(** * configv2: paths, entries and the priority-merging configuration store

    A shallow embedding of [config/path.py], [config/containers.py] and
    [config/configuration.py].  Python objects are modelled by value:

    - a path key is a [Key] (str, int, bool, None, float, complex, tuple,
      slice), compared with Python's [==], under which [1 == 1.0 == True];
    - a [Path] is the tuple [parts] of its keys;
    - a configuration value is a [Value] tree (atoms, tuples, lists,
      dicts), as a caller passes plain Python containers;
    - an exception is an [Exn]; a call that may raise returns a [Result];
    - a method that touches [self.entries_by_path] passes the
      [Configuration] through explicitly and returns the new one.

    What the repository takes from elsewhere is modelled as follows.
    The text [str] gives for a float or a complex number, and the values
    [float] and [complex] read from text, are parameters.  The Lark
    parser is modelled by the grammar [path_parser] itself: its rules as
    inductive relations over the text, each terminal tried with
    [re.match] at the current position, and [PathTransformer] as a
    function on the parse tree.  Which tree Lark keeps when a text has
    several parses is not modelled, so results on [Path.from_str] are
    stated over all the parses of a text.

    Strings are [string]s of ASCII characters; text outside ASCII is not
    modelled. *)

From Stdlib Require Import ZArith String Ascii Bool Lia List.
From Stdlib Require Import SpecFloat.
From Stdlib Require DecimalString DecimalZ.
Import ListNotations.

Local Open Scope string_scope.
Local Open Scope list_scope.
Local Open Scope Z_scope.

Set Implicit Arguments.
Set Warnings "-register-all".

(* ================================================================== *)
(** * Keys *)
(* ================================================================== *)

(** The key kinds a path can hold.  A float is an IEEE 754 value
    ([spec_float]); the bounds of a slice are optional integers, as the
    path grammar produces them. *)
Inductive Key : Type :=
| KStr (s : string)
| KInt (z : Z)
| KBool (b : bool)
| KNone
| KFloat (f : spec_float)
| KComplex (re im : spec_float)
| KTuple (l : list Key)
| KSlice (start stop step : option Z).

(** [isinstance(part, int)]: [bool] is a subclass of [int]. *)
Definition isinstance_int (k : Key) : bool :=
  match k with KInt _ | KBool _ => true | _ => false end.

Definition isinstance_slice (k : Key) : bool :=
  match k with KSlice _ _ _ => true | _ => false end.

Definition isinstance_str (k : Key) : bool :=
  match k with KStr _ => true | _ => false end.

(** ** Python equality on keys *)

(** The exact comparison of an integer with a float: the float
    [(-1)^s * m * 2^e] equals [z] only when it is that integer. *)
Definition int_float_eqb (z : Z) (f : spec_float) : bool :=
  match f with
  | S754_zero _ => z =? 0
  | S754_finite s m e =>
      let v := if s then Z.neg m else Z.pos m in
      if 0 <=? e then z =? v * 2 ^ e
      else (v mod 2 ^ (- e) =? 0) && (z =? v / 2 ^ (- e))
  | S754_infinity _ | S754_nan => false
  end.

(** A number as [==] sees it: an integer or float real part, and an
    imaginary part when the number is complex. *)
Inductive Real : Type :=
| RInt (z : Z)
| RFloat (f : spec_float).

Definition Real_eqb (a b : Real) : bool :=
  match a, b with
  | RInt x, RInt y => x =? y
  | RInt x, RFloat f => int_float_eqb x f
  | RFloat f, RInt x => int_float_eqb x f
  | RFloat f, RFloat g => SFeqb f g
  end.

Definition number_of_key (k : Key) : option (Real * spec_float) :=
  match k with
  | KInt z => Some (RInt z, S754_zero false)
  | KBool b => Some (RInt (if b then 1 else 0), S754_zero false)
  | KFloat f => Some (RFloat f, S754_zero false)
  | KComplex re im => Some (RFloat re, im)
  | _ => None
  end.

Definition option_Z_eqb (a b : option Z) : bool :=
  match a, b with
  | None, None => true
  | Some x, Some y => x =? y
  | _, _ => false
  end.

(** [a == b] on keys.  Numbers compare by value across int, bool, float
    and complex; strings, None, tuples and slices only with their own
    kind.  A NaN equals nothing, itself included: that one object is
    found again by identity is not modelled. *)
Fixpoint Key_eqb (a b : Key) : bool :=
  match a, b with
  | KStr s, KStr t => String.eqb s t
  | KNone, KNone => true
  | KTuple l, KTuple m =>
      (fix tuple_eqb (l m : list Key) : bool :=
         match l, m with
         | [], [] => true
         | x :: l', y :: m' => Key_eqb x y && tuple_eqb l' m'
         | _, _ => false
         end) l m
  | KSlice a1 a2 a3, KSlice b1 b2 b3 =>
      option_Z_eqb a1 b1 && option_Z_eqb a2 b2 && option_Z_eqb a3 b3
  | _, _ =>
      match number_of_key a, number_of_key b with
      | Some (x, xi), Some (y, yi) => Real_eqb x y && SFeqb xi yi
      | _, _ => false
      end
  end.

(** Equality of two tuples of keys, [self.parts == other.parts]. *)
Fixpoint parts_eqb (l m : list Key) : bool :=
  match l, m with
  | [], [] => true
  | x :: l', y :: m' => Key_eqb x y && parts_eqb l' m'
  | _, _ => false
  end.

(* ================================================================== *)
(** * Paths  ([config/path.py]) *)
(* ================================================================== *)

(** A [Path] holds the tuple [parts] of its keys; it is immutable. *)
Definition Path : Type := list Key.

Definition Path_len (self : Path) : nat := length self.

(** [Path.__eq__] against another [Path]. *)
Definition Path_eqb (self other : Path) : bool := parts_eqb self other.

(** ** Python slicing of a tuple *)

(** A slice bound [i] against a sequence of length [n]: a negative bound
    counts from the end, and the result is clamped into [0..n]. *)
Definition clamp_index (n : nat) (i : Z) : nat :=
  let len := Z.of_nat n in
  let j := if i <? 0 then i + len else i in
  Z.to_nat (Z.max 0 (Z.min len j)).

(** [t[:stop]] *)
Definition slice_upto {A} (t : list A) (stop : Z) : list A :=
  firstn (clamp_index (length t) stop) t.

(** [t[start:]] *)
Definition slice_from {A} (t : list A) (start : Z) : list A :=
  skipn (clamp_index (length t) start) t.

(** [Path.__getitem__] with a slice [[:i]], and with an index. *)
Definition Path_upto (self : Path) (i : Z) : Path := slice_upto self i.
Definition Path_item (self : Path) (i : nat) : option Key := nth_error self i.

(** [Path.__add__] of two paths. *)
Definition Path_add (self other : Path) : Path := self ++ other.

(** ** The three relations *)

(** [self.parts == other.parts[: len(self)]] *)
Definition is_prefix_of (self other : Path) : bool :=
  parts_eqb self (slice_upto other (Z.of_nat (Path_len self))).

(** [self.parts == other.parts[-len(self) :]] *)
Definition is_suffix_of (self other : Path) : bool :=
  parts_eqb self (slice_from other (- Z.of_nat (Path_len self))).

(** [end = min(len(self), len(other));
     self.parts[:end] == other.parts[:end]] *)
Definition is_compatible_with (self other : Path) : bool :=
  let end_ := Z.of_nat (Nat.min (Path_len self) (Path_len other)) in
  parts_eqb (slice_upto self end_) (slice_upto other end_).

(* ================================================================== *)
(** * Values, exceptions and results *)
(* ================================================================== *)

(** A configuration value.  An atom is a scalar (None, a bool, a number,
    a string, a slice object) and shares the representation of scalar
    keys; the keys of a dict are [Key]s, kept in insertion order. *)
Inductive Value : Type :=
| VAtom (a : Key)
| VTuple (items : list Value)
| VList (items : list Value)
| VDict (items : list (Key * Value)).

(** A key read back as a value, as iterating over a dict yields it. *)
Fixpoint value_of_key (k : Key) : Value :=
  match k with
  | KTuple l => VTuple (map value_of_key l)
  | _ => VAtom k
  end.

(** The exception classes the modelled code raises. *)
Inductive ExnClass : Type :=
| AssertionError
| IndexError
| KeyError
| TypeError
| ValueError.

(** What an exception says.  The one message the repository formats
    itself, [f"No viable type found for '{path}'."], keeps its path. *)
Inductive ExnMessage : Type :=
| No_viable_type_found_for (path : Path)
| pop_from_empty_list
| index_out_of_range
| missing_key (k : Key)
| unhashable_key (k : Key)
| bad_index_type (k : Key)
| no_item_assignment
| not_subscriptable
| not_iterable
| slice_step_zero
| slice_size_mismatch
| assertion_failed.

(** An exception: its class, its message, and the path that
    [Path.track_errors] appends as the last of its [args]. *)
Record Exn : Type := mkExn {
  exn_class : ExnClass;
  exn_message : ExnMessage;
  exn_path : option Path
}.

Definition exn (c : ExnClass) (m : ExnMessage) : Exn := mkExn c m None.

(** The outcome of a call: a returned value or a raised exception. *)
Inductive Result (A : Type) : Type :=
| Ok (a : A)
| Raise (e : Exn).

Arguments Ok {A} a.
Arguments Raise {A} e.

Definition bind {A B} (r : Result A) (k : A -> Result B) : Result B :=
  match r with
  | Ok a => k a
  | Raise e => Raise e
  end.

Declare Scope result_scope.
Delimit Scope result_scope with result.
Notation "x <- r ;; k" := (bind r (fun x => k))
  (at level 61, r at next level, right associativity) : result_scope.
Local Open Scope result_scope.

(* ================================================================== *)
(** * Entries  ([config/configuration.py]) *)
(* ================================================================== *)

(** [class Node(Flag)]: a set of flags, held as its integer value. *)
Definition Node : Type := N.

Definition LEAF : Node := 1%N.
Definition DICT : Node := 2%N.
Definition LIST : Node := 4%N.
Definition ANY : Node := N.lor (N.lor LEAF DICT) LIST.
Definition LIST_OR_DICT : Node := N.lor LIST DICT.

(** [a & b] on flags, and the truth value of a flag ([Node(0)] is
    false). *)
Definition Node_and (a b : Node) : Node := N.land a b.
Definition Node_bool (a : Node) : bool := negb (N.eqb a 0%N).

Definition get_value_and_type (value : Value) : Value * Node :=
  match value with
  | VDict _ => (VDict [], DICT)
  | VList _ => (VList [], LIST)
  | _ => (value, LEAF)
  end.

Module Entry.

(** The frozen dataclass [Entry], as its fields. *)
Record Entry : Type := mk {
  path : Path;
  priority : Z;
  value : Value;
  type : Node;
  implicit : bool
}.

(** [Entry.__post_init__]: a type left at [Node.ANY] is replaced by the
    type of the value. *)
Definition post_init (self : Entry) : Entry :=
  let '(_, node_type) := get_value_and_type (value self) in
  if N.eqb (type self) ANY
  then mk (path self) (priority self) (value self) node_type
               (implicit self)
  else self.

(** [Entry(path=.., priority=.., value=.., type=.., implicit=..)]: the
    generated [__init__] followed by [__post_init__]. *)
Definition new (path : Path) (priority : Z) (value : Value)
    (type : Node) (implicit : bool) : Entry :=
  post_init (mk path priority value type implicit).

(** [dataclasses.replace(self, path=.., implicit=..)] and
    [replace(self, value=.., type=..)]: a new [Entry] is built from the
    changed fields, so [__post_init__] runs again. *)
Definition replace_path_implicit (self : Entry) (path' : Path)
    (implicit' : bool) : Entry :=
  new path' (priority self) (value self) (type self) implicit'.

Definition replace_value_type (self : Entry) (value' : Value)
    (type' : Node) : Entry :=
  new (path self) (priority self) value' type' (implicit self).

(** [0 if self.implicit else self.priority] *)
Definition explicit_priority (self : Entry) : Z :=
  if implicit self then 0 else priority self.

(** One step of the loop of [get_implicit_entries], for the index [i]:
    the implicit entry at [self.path[:i]], shaped by [self.path[i]]. *)
Definition implicit_entry_at (self : Entry) (i : nat) : list Entry :=
  match Path_item (path self) i with
  | None => []
  | Some part =>
      let prefix := Path_upto (path self) (Z.of_nat i) in
      let implicit_entry := replace_path_implicit self prefix true in
      if isinstance_int part
      then [replace_value_type implicit_entry (VDict []) LIST_OR_DICT]
      else if isinstance_slice part
      then [replace_value_type implicit_entry (VList []) LIST]
      else [replace_value_type implicit_entry (VDict []) DICT]
  end.

(** [Entry.get_implicit_entries]: the entries the generator yields, in
    order; [range(1, len(self.path))] is [seq 1 (len - 1)]. *)
Definition get_implicit_entries (self : Entry) : list Entry :=
  flat_map (implicit_entry_at self)
           (seq 1 (Path_len (path self) - 1))
  ++ [self].

(** [Entry.merge]; the [assert] on the paths raises [AssertionError]. *)
Definition merge (self other : Entry) : Result Entry :=
  if negb (Path_eqb (path self) (path other))
  then Raise (exn AssertionError assertion_failed)
  else
    let value :=
      if explicit_priority self >=? explicit_priority other
      then value self else value other in
    Ok (new (path self)
                  (Z.max (priority self) (priority other))
                  value
                  (Node_and (type self) (type other))
                  (implicit self && implicit other)).

End Entry.

Abbreviation Entry := Entry.Entry.

(* ================================================================== *)
(** * Lists as Python uses them *)
(* ================================================================== *)

(** [sorted(l, key=key)] with integer keys: a stable sort, so entries
    with equal keys keep their order. *)
Fixpoint insert_sorted {A} (key : A -> Z) (x : A) (l : list A) : list A :=
  match l with
  | [] => [x]
  | y :: l' =>
      if key x <=? key y then x :: l else y :: insert_sorted key x l'
  end.

Definition sorted {A} (key : A -> Z) (l : list A) : list A :=
  fold_right (insert_sorted key) [] l.

(** [max(l, default=d)] *)
Definition max_default (l : list Z) (d : Z) : Z :=
  match l with
  | [] => d
  | x :: l' => fold_left Z.max l' x
  end.

(* ================================================================== *)
(** * The entry store *)
(* ================================================================== *)

(** [entries_by_path], a [defaultdict(list)] keyed by [Path]: the items
    in insertion order, which [to_dict] follows when it walks the keys;
    a key is found with [Path.__eq__], and no two keys are equal. *)
Definition Store : Type := list (Path * list Entry).

Fixpoint Store_find (d : Store) (k : Path) : option (list Entry) :=
  match d with
  | [] => None
  | (k', v) :: d' => if Path_eqb k' k then Some v else Store_find d' k
  end.

(** [d[k]] on the defaultdict: a missing key is first inserted with an
    empty list. *)
Definition Store_getitem (d : Store) (k : Path) : list Entry * Store :=
  match Store_find d k with
  | Some v => (v, d)
  | None => ([], d ++ [(k, [])])
  end.

(** [d[k].append(e)]: the list under [k] (a new, empty one at the end
    of the dict when [k] is missing) gets [e] as its last item. *)
Fixpoint Store_append (d : Store) (k : Path) (e : Entry) : Store :=
  match d with
  | [] => [(k, [e])]
  | (k', v) :: d' =>
      if Path_eqb k' k then (k', v ++ [e]) :: d'
      else (k', v) :: Store_append d' k e
  end.

(** [d.keys()] *)
Definition Store_keys (d : Store) : list Path := map fst d.

(* ================================================================== *)
(** * Containers addressed by paths  ([config/containers.py]) *)
(* ================================================================== *)

(** [PathDict], [PathList] and [PathTuple] are dict, list and tuple with
    path-based item access; a [Value] does not tell them from the plain
    containers, so [recursive_path_conversion], which rebuilds a plain
    container item by item into its [Path*] counterpart, returns the
    value it is given.  The copy it makes is why a tree built by
    [to_dict] shares nothing with the values of the stored entries. *)
Definition recursive_path_conversion (value : Value) : Value := value.

(** [Path.track_errors]: an AttributeError, IndexError, KeyError or
    TypeError that passes through gets [self[:1]] put in front of the
    path that ends its [args] (or appended, when there is none yet). *)
Definition track_errors {A} (self : Path) (body : Result A) : Result A :=
  match body with
  | Ok a => Ok a
  | Raise e =>
      match exn_class e with
      | IndexError | KeyError | TypeError =>
          let head := Path_upto self 1 in
          Raise (mkExn (exn_class e) (exn_message e)
                   (Some match exn_path e with
                         | None => head
                         | Some p => Path_add head p
                         end))
      | AssertionError | ValueError => Raise e
      end
  end.

(** ** Built-in item access *)

(** A key that [hash] refuses: a slice, or a tuple that holds one. *)
Fixpoint unhashable (k : Key) : bool :=
  match k with
  | KSlice _ _ _ => true
  | KTuple l =>
      (fix any (l : list Key) : bool :=
         match l with
         | [] => false
         | x :: l' => unhashable x || any l'
         end) l
  | _ => false
  end.

Fixpoint dict_find (d : list (Key * Value)) (k : Key) : option Value :=
  match d with
  | [] => None
  | (k', v) :: d' => if Key_eqb k' k then Some v else dict_find d' k
  end.

(** [dict.__setitem__]: the value under an equal key is replaced where
    it stands; a new key goes to the end. *)
Fixpoint dict_set (d : list (Key * Value)) (k : Key) (v : Value)
    : list (Key * Value) :=
  match d with
  | [] => [(k, v)]
  | (k', v') :: d' =>
      if Key_eqb k' k then (k', v) :: d' else (k', v') :: dict_set d' k v
  end.

(** The integer an index key stands for ([True] is 1, [False] is 0). *)
Definition index_of_key (k : Key) : option Z :=
  match k with
  | KInt z => Some z
  | KBool b => Some (if b then 1 else 0)
  | _ => None
  end.

(** The position an index [i] names in a sequence of length [n]. *)
Definition sequence_index (n : nat) (i : Z) : option nat :=
  let len := Z.of_nat n in
  let j := if i <? 0 then i + len else i in
  if (0 <=? j) && (j <? len) then Some (Z.to_nat j) else None.

Fixpoint list_set {A} (l : list A) (i : nat) (x : A) : list A :=
  match l, i with
  | [], _ => []
  | _ :: l', O => x :: l'
  | y :: l', S i' => y :: list_set l' i' x
  end.

(** [slice.indices(len)] with the number of positions it selects:
    [(start, stop, step, slicelength)]; a zero step is a ValueError. *)
Definition slice_indices (n : nat) (start stop step : option Z)
    : Result (Z * Z * Z * Z) :=
  let len := Z.of_nat n in
  let step := match step with None => 1 | Some s => s end in
  if step =? 0 then Raise (exn ValueError slice_step_zero)
  else
    let lower := if step <? 0 then -1 else 0 in
    let upper := if step <? 0 then len - 1 else len in
    let adjust (bound : option Z) (missing : Z) : Z :=
      match bound with
      | None => missing
      | Some b =>
          if b <? 0
          then (if b + len <? lower then lower else b + len)
          else (if upper <? b then upper else b)
      end in
    let start := adjust start (if step <? 0 then upper else lower) in
    let stop := adjust stop (if step <? 0 then lower else upper) in
    let slicelength :=
      if step <? 0
      then (if stop <? start then (start - stop - 1) / (- step) + 1 else 0)
      else (if start <? stop then (stop - start - 1) / step + 1 else 0) in
    Ok (start, stop, step, slicelength).

(** The positions [start, start + step, ...] of a slice. *)
Definition slice_positions (start step slicelength : Z) : list nat :=
  map (fun i => Z.to_nat (start + Z.of_nat i * step))
      (seq 0 (Z.to_nat slicelength)).

(** [seq[start:stop:step]] *)
Definition sequence_getslice (l : list Value) (start stop step : option Z)
    : Result (list Value) :=
  ix <- slice_indices (length l) start stop step ;;
  let '(start, _, step, slicelength) := ix in
  Ok (flat_map (fun i => match nth_error l i with
                         | Some x => [x]
                         | None => []
                         end)
               (slice_positions start step slicelength)).

(** The items of an iterable value. *)
Definition iterate (v : Value) : Result (list Value) :=
  match v with
  | VList l | VTuple l => Ok l
  | VDict d => Ok (map (fun kv => value_of_key (fst kv)) d)
  | VAtom (KStr s) =>
      Ok (map (fun c => VAtom (KStr (String c EmptyString)))
              (list_ascii_of_string s))
  | VAtom _ => Raise (exn TypeError not_iterable)
  end.

(** [l[start:stop:step] = v] on a list: a slice of step 1 is replaced by
    the items of [v], however many; an extended slice takes exactly as
    many items as it has positions. *)
Definition list_setslice (l : list Value) (start stop step : option Z)
    (v : Value) : Result (list Value) :=
  ix <- slice_indices (length l) start stop step ;;
  let '(start, stop, step, slicelength) := ix in
  if step =? 1 then
    items <- iterate v ;;
    let stop := Z.max start stop in
    Ok (firstn (Z.to_nat start) l ++ items ++ skipn (Z.to_nat stop) l)
  else
    items <- iterate v ;;
    if negb (Z.of_nat (length items) =? slicelength)
    then Raise (exn ValueError slice_size_mismatch)
    else
      Ok (fold_left (fun acc ix => list_set acc (fst ix) (snd ix))
                    (combine (slice_positions start step slicelength) items)
                    l).

(** [super().__getitem__(key)] of a dict, list or tuple, for a key that
    is no [Path]. *)
Definition builtin_getitem (self : Value) (key : Key) : Result Value :=
  match self with
  | VDict d =>
      if unhashable key then Raise (exn TypeError (unhashable_key key))
      else match dict_find d key with
           | Some v => Ok v
           | None => Raise (exn KeyError (missing_key key))
           end
  | VList l | VTuple l =>
      match key with
      | KSlice start stop step =>
          items <- sequence_getslice l start stop step ;;
          Ok (match self with VTuple _ => VTuple items | _ => VList items end)
      | _ =>
          match index_of_key key with
          | None => Raise (exn TypeError (bad_index_type key))
          | Some i =>
              match sequence_index (length l) i with
              | None => Raise (exn IndexError index_out_of_range)
              | Some n =>
                  match nth_error l n with
                  | Some v => Ok v
                  | None => Raise (exn IndexError index_out_of_range)
                  end
              end
          end
      end
  | VAtom _ => Raise (exn TypeError not_subscriptable)
  end.

(** [super().__setitem__(key, value)] of a dict or list; a tuple (and
    [PathTuple], whose [__setitem__] is [None]) and an atom take no item
    assignment. *)
Definition builtin_setitem (self : Value) (key : Key) (value : Value)
    : Result Value :=
  match self with
  | VDict d =>
      if unhashable key then Raise (exn TypeError (unhashable_key key))
      else Ok (VDict (dict_set d key value))
  | VList l =>
      match key with
      | KSlice start stop step =>
          items <- list_setslice l start stop step value ;;
          Ok (VList items)
      | _ =>
          match index_of_key key with
          | None => Raise (exn TypeError (bad_index_type key))
          | Some i =>
              match sequence_index (length l) i with
              | None => Raise (exn IndexError index_out_of_range)
              | Some n => Ok (VList (list_set l n value))
              end
          end
      end
  | VTuple _ | VAtom _ => Raise (exn TypeError no_item_assignment)
  end.

(** ** [PathMixin] *)

(** Whether [self[first]] is a container with path-based access: the
    item of a dict, list or tuple that is itself one, unless [first] is
    a slice, which yields a plain list or tuple. *)
Definition has_path_access (first : Key) (item : Value) : bool :=
  match item with
  | VAtom _ => false
  | _ => negb (isinstance_slice first)
  end.

(** [PathMixin.__getitem__] with a [Path] key. *)
Fixpoint PathMixin_getitem (self : Value) (key : Path) : Result Value :=
  match key with
  | [] => Ok self
  | first :: rest =>
      track_errors key
        (entry <- builtin_getitem self first ;;
         match rest with
         | [] => Ok entry
         | _ :: _ =>
             if has_path_access first entry
             then PathMixin_getitem entry rest
             else Raise (exn TypeError not_subscriptable)
         end)
  end.

(** [PathMixin.__setitem__(key, value)] with a [Path] key and no
    [default].  The item [self[first]] is updated in place, so the new
    container holds the updated item where the old one stood. *)
Fixpoint PathMixin_setitem (self : Value) (key : Path) (value : Value)
    : Result Value :=
  let value := recursive_path_conversion value in
  match key with
  | [] => track_errors key (Raise (exn IndexError index_out_of_range))
  | first :: rest =>
      track_errors key
        (match rest with
         | [] => builtin_setitem self first value
         | _ :: _ =>
             to_update <- builtin_getitem self first ;;
             match to_update with
             | VDict _ | VList _ =>
                 if isinstance_slice first
                 then Raise (exn TypeError (bad_index_type first))
                 else
                   updated <- PathMixin_setitem to_update rest value ;;
                   builtin_setitem self first updated
             | VTuple _ | VAtom _ =>
                 Raise (exn TypeError no_item_assignment)
             end
         end)
  end.

(* ================================================================== *)
(** * The configuration  ([config/configuration.py]) *)
(* ================================================================== *)

Definition DEFAULT_PRIORITY : Z := 10.

Definition PRIORITIES : list (string * Z) :=
  [ ("implicit", 1); ("config", 2); ("internal", 3); ("named_config", 4);
    ("run_arguments", 5); ("commandline", 6); ("forced", 7) ].

(** [PRIORITIES[name]] *)
Fixpoint PRIORITIES_getitem (d : list (string * Z)) (name : string)
    : option Z :=
  match d with
  | [] => None
  | (n, p) :: d' => if String.eqb n name then Some p
                    else PRIORITIES_getitem d' name
  end.

Record Configuration : Type := mkConfiguration {
  entries_by_path : Store;
  active_priority : Z
}.

(** [Configuration.__init__]: no entries, and the ceiling
    [PRIORITIES["forced"]]. *)
Definition Configuration_init : Configuration :=
  mkConfiguration []
    match PRIORITIES_getitem PRIORITIES "forced" with
    | Some p => p
    | None => DEFAULT_PRIORITY
    end.

Definition with_entries (self : Configuration) (d : Store) : Configuration :=
  mkConfiguration d (active_priority self).

(** [priority or self.active_priority]: [None] and [0] are both false. *)
Definition or_default (priority : option Z) (default : Z) : Z :=
  match priority with
  | None => default
  | Some p => if p =? 0 then default else p
  end.

(** [Configuration.add_entry] *)
Definition add_entry (self : Configuration) (path : Path) (value : Value)
    (priority : option Z) : Result unit * Configuration :=
  let priority := or_default priority (active_priority self) in
  if negb (priority <=? active_priority self)
  then (Raise (exn AssertionError assertion_failed), self)
  else
    let entry := Entry.new path priority value ANY false in
    (Ok tt,
     with_entries self
       (fold_left
          (fun d implicit_entry =>
             Store_append d (Entry.path implicit_entry) implicit_entry)
          (Entry.get_implicit_entries entry)
          (entries_by_path self))).

(** The [while] loop of [get_entry_for_priority].  [stack] is what is
    left of [sorted_entries], its last item first, so that [pop()] takes
    the head. *)
Fixpoint merge_loop (result : Entry) (stack : list Entry) : Result Entry :=
  match stack with
  | [] => Ok result
  | next :: stack' =>
      if Entry.implicit result
      then (merged <- Entry.merge result next ;; merge_loop merged stack')
      else Ok result
  end.

(** What [get_entry_for_priority] has when its loop ends: the entries
    of the path filtered by the floor, sorted by priority, popped and
    merged. *)
Definition resolve (stored : list Entry) (priority : Z) : Result Entry :=
  let entries :=
    filter (fun e => Entry.priority e >=? priority) stored in
  let sorted_entries := sorted Entry.priority entries in
  match rev sorted_entries with
  | [] => Raise (exn IndexError pop_from_empty_list)
  | result :: stack => merge_loop result stack
  end.

(** [Configuration.get_entry_for_priority] *)
Definition get_entry_for_priority (self : Configuration) (path : Path)
    (priority : Z) : Result Entry * Configuration :=
  let '(stored, d) := Store_getitem (entries_by_path self) path in
  (result <- resolve stored priority ;;
   if negb (Node_bool (Entry.type result))
   then Raise (exn TypeError (No_viable_type_found_for path))
   else Ok result,
   with_entries self d).

(** The prefixes [path[:i] for i in range(1, len(path))]. *)
Definition proper_prefixes (path : Path) : list Path :=
  map (fun i => Path_upto path (Z.of_nat i)) (seq 1 (Path_len path - 1)).

Fixpoint check_write_access_loop (d : Store) (prefixes : list Path)
    (priority : Z) : bool * Store :=
  match prefixes with
  | [] => (true, d)
  | p :: prefixes' =>
      let '(stored, d') := Store_getitem d p in
      let explicit_priority := map Entry.explicit_priority stored in
      if priority <? max_default explicit_priority 0
      then (false, d')
      else check_write_access_loop d' prefixes' priority
  end.

(** [Configuration.check_write_access] *)
Definition check_write_access (self : Configuration) (path : Path)
    (priority : Z) : bool * Configuration :=
  let '(access, d) :=
    check_write_access_loop (entries_by_path self) (proper_prefixes path)
                            priority in
  (access, with_entries self d).

(** The [for] loop of [to_dict] over the sorted compatible paths, with
    the tree [d] built so far. *)
Fixpoint to_dict_loop (self : Configuration) (priority : Z)
    (paths : list Path) (d : Value) : Result Value * Configuration :=
  match paths with
  | [] => (Ok d, self)
  | path :: paths' =>
      match get_entry_for_priority self path priority with
      | (Raise e, self1) => (Raise e, self1)
      | (Ok entry, self1) =>
          let '(access, self2) :=
            check_write_access self1 path (Entry.priority entry) in
          if access then
            match PathMixin_setitem d path (Entry.value entry) with
            | Raise e => (Raise e, self2)
            | Ok d' => to_dict_loop self2 priority paths' d'
            end
          else to_dict_loop self2 priority paths' d
      end
  end.

(** [Configuration.to_dict(restrict, priority)]; [to_dict()] is
    [to_dict self [] 0]. *)
Definition to_dict (self : Configuration) (restrict : Path) (priority : Z)
    : Result Value * Configuration :=
  let compatible_paths :=
    filter (fun k => is_compatible_with restrict k)
           (Store_keys (entries_by_path self)) in
  to_dict_loop self priority
    (sorted (fun p => Z.of_nat (Path_len p)) compatible_paths)
    (VDict []).

(** [Configuration.get_value] *)
Definition get_value (self : Configuration) (path : Path)
    : Result Value * Configuration :=
  match to_dict self path 0 with
  | (Raise e, self') => (Raise e, self')
  | (Ok d, self') => (PathMixin_getitem d path, self')
  end.

(* ================================================================== *)
(** * Text  *)
(* ================================================================== *)

Local Open Scope string_scope.

(** Character classes of the regular expressions, on ASCII. *)
Definition in_range (lo hi c : ascii) : bool :=
  (nat_of_ascii lo <=? nat_of_ascii c)%nat
  && (nat_of_ascii c <=? nat_of_ascii hi)%nat.

Definition is_char (a c : ascii) : bool := Ascii.eqb a c.

(** [\d] *)
Definition is_digit (c : ascii) : bool := in_range "0" "9" c.

Definition is_letter (c : ascii) : bool :=
  in_range "a" "z" c || in_range "A" "Z" c.

(** [\w] *)
Definition is_word (c : ascii) : bool :=
  is_letter c || is_digit c || is_char "_" c.

(** [\s]: tab, line feed, vertical tab, form feed, carriage return, the
    four separators 28..31, and the space. *)
Definition is_space (c : ascii) : bool :=
  let n := nat_of_ascii c in
  ((9 <=? n) && (n <=? 13) || (28 <=? n) && (n <=? 32))%nat.

Arguments in_range : simpl never.
Arguments is_char : simpl never.
Arguments is_digit : simpl never.
Arguments is_letter : simpl never.
Arguments is_word : simpl never.
Arguments is_space : simpl never.

Definition newline : ascii := ascii_of_nat 10.
Definition double_quote : ascii := ascii_of_nat 34.
Definition single_quote : ascii := ascii_of_nat 39.
Definition backslash : ascii := ascii_of_nat 92.

Definition forall_chars (p : ascii -> bool) (s : string) : bool :=
  forallb p (list_ascii_of_string s).

(** [str.isidentifier()]: a letter or underscore, then word
    characters. *)
Definition isidentifier (s : string) : bool :=
  match s with
  | EmptyString => false
  | String c r => (is_letter c || is_char "_" c) && forall_chars is_word r
  end.

(** [s.replace(" ", "")] *)
Fixpoint remove_spaces (s : string) : string :=
  match s with
  | EmptyString => EmptyString
  | String c r =>
      if is_char " " c then remove_spaces r else String c (remove_spaces r)
  end.

(** [sep.join(l)] *)
Fixpoint join (sep : string) (l : list string) : string :=
  match l with
  | [] => EmptyString
  | [x] => x
  | x :: l' => x ++ sep ++ join sep l'
  end.

(* ================================================================== *)
(** * Rendering a path  ([Path.__repr__], [Path.format_part]) *)
(* ================================================================== *)

(** [str(z)] of an integer: its decimal digits. *)
Definition str_int (z : Z) : string :=
  DecimalString.NilZero.string_of_int (Z.to_int z).

Definition str_bool (b : bool) : string := if b then "True" else "False".

Definition hex_digit (n : nat) : ascii :=
  if (n <? 10)%nat then ascii_of_nat (48 + n) else ascii_of_nat (87 + n).

(** One character inside [repr] of a string quoted with [quote]. *)
Definition repr_char (quote c : ascii) : string :=
  let n := nat_of_ascii c in
  if is_char backslash c then String backslash (String backslash EmptyString)
  else if is_char quote c then String backslash (String c EmptyString)
  else if is_char (ascii_of_nat 9) c then String backslash "t"
  else if is_char newline c then String backslash "n"
  else if is_char (ascii_of_nat 13) c then String backslash "r"
  else if ((n <? 32) || (n =? 127))%nat
  then String backslash
         (String "x" (String (hex_digit (n / 16))
                        (String (hex_digit (n mod 16)) EmptyString)))
  else String c EmptyString.

Definition has_char (a : ascii) (s : string) : bool :=
  existsb (is_char a) (list_ascii_of_string s).

(** [repr(s)] of a string: single quotes, unless the string has a
    single quote and no double quote. *)
Definition repr_str (s : string) : string :=
  let quote :=
    if has_char single_quote s && negb (has_char double_quote s)
    then double_quote else single_quote in
  String quote
    (join EmptyString (map (repr_char quote) (list_ascii_of_string s))
     ++ String quote EmptyString).

Definition str_option_int (o : option Z) : string :=
  match o with None => "None" | Some z => str_int z end.

Section Rendering.

(** [str] of a float and of a complex number are Python's own and are
    taken as given. *)
Variable str_float : spec_float -> string.
Variable str_complex : spec_float -> spec_float -> string.

(** [repr(k)], as [str] of a tuple shows its items. *)
Fixpoint repr_key (k : Key) : string :=
  match k with
  | KStr s => repr_str s
  | KInt z => str_int z
  | KBool b => str_bool b
  | KNone => "None"
  | KFloat f => str_float f
  | KComplex re im => str_complex re im
  | KTuple l =>
      match l with
      | [x] => "(" ++ repr_key x ++ ",)"
      | _ => "(" ++ join ", " (map repr_key l) ++ ")"
      end
  | KSlice start stop step =>
      "slice(" ++ str_option_int start ++ ", " ++ str_option_int stop
      ++ ", " ++ str_option_int step ++ ")"
  end.

(** [str(part)] for a part that is no string: [str] and [repr] differ
    on strings only. *)
Definition str_key (part : Key) : string :=
  match part with
  | KStr s => s
  | _ => repr_key part
  end.

(** [Path.format_part] *)
Definition format_part (part : Key) : string :=
  match part with
  | KStr s =>
      if isidentifier s then "." ++ s
      else "['" ++ s ++ "']"
  | KSlice start stop step =>
      let str_bound (o : option Z) : string :=
        match o with None => EmptyString | Some z => str_int z end in
      let slice_str :=
        str_bound start ++ ":" ++ str_bound stop
        ++ match step with
           | None => EmptyString
           | Some z => ":" ++ str_int z
           end in
      "[" ++ slice_str ++ "]"
  | _ => "[" ++ remove_spaces (str_key part) ++ "]"
  end.

(** [Path.__repr__] *)
Definition Path_repr (self : Path) : string :=
  let r := join EmptyString (map format_part self) in
  match r with
  | String "." r' => r'
  | _ => r
  end.

End Rendering.

(* ================================================================== *)
(** * Parsing a path  ([path_parser], [PathTransformer]) *)
(* ================================================================== *)

(** ** Terminals

    The parser tries each terminal it expects at the current position
    with [re.match], which gives one match or none: a terminal is a
    function from the text ahead to the token and the text after it. *)
Definition Scanner : Type := string -> option (string * string).

(** The longest prefix of characters in the class [p]. *)
Fixpoint span (p : ascii -> bool) (s : string) : string * string :=
  match s with
  | EmptyString => (EmptyString, EmptyString)
  | String c r =>
      if p c then let (tok, rest) := span p r in (String c tok, rest)
      else (EmptyString, s)
  end.

(** [[p]+] *)
Definition one_or_more (p : ascii -> bool) : Scanner :=
  fun s =>
    match span p s with
    | (EmptyString, _) => None
    | (tok, rest) => Some (tok, rest)
    end.

(** [[p]?] *)
Definition optional_char (p : ascii -> bool) (s : string) : string * string :=
  match s with
  | String c r => if p c then (String c EmptyString, r) else (EmptyString, s)
  | EmptyString => (EmptyString, EmptyString)
  end.

(** A literal of the grammar, such as ["["]: the text after it. *)
Fixpoint literal (lit s : string) : option string :=
  match lit with
  | EmptyString => Some s
  | String c lit' =>
      match s with
      | String c' s' => if Ascii.eqb c c' then literal lit' s' else None
      | EmptyString => None
      end
  end.

(** [identifier: /\w+/] *)
Definition IDENTIFIER : Scanner := one_or_more is_word.

(** The rule [other]: one or more characters that are no quote, single
    or double, no dot, no closing bracket and no white space. *)
Definition is_other (c : ascii) : bool :=
  negb (is_char double_quote c || is_char single_quote c || is_char "." c
        || is_char "]" c || is_space c).

Definition OTHER : Scanner := one_or_more is_other.

(** [DEC_NUMBER: /0|-?[1-9]\d*/i] *)
Definition DEC_NUMBER : Scanner :=
  fun s =>
    match s with
    | EmptyString => None
    | String c r =>
        if is_char "0" c then Some ("0", r)
        else
          let (sign, s1) := optional_char (is_char "-") s in
          match s1 with
          | String d r1 =>
              if in_range "1" "9" d
              then let (ds, rest) := span is_digit r1 in
                   Some (sign ++ String d ds, rest)
              else None
          | EmptyString => None
          end
    end.

(** [-?0x[digits]*], with the letter [x] and the digits given. *)
Definition prefixed_number (x digit : ascii -> bool) : Scanner :=
  fun s =>
    let (sign, s1) := optional_char (is_char "-") s in
    match s1 with
    | String z r0 =>
        if is_char "0" z
        then match r0 with
             | String c r =>
                 if x c
                 then let (ds, rest) := span digit r in
                      Some (sign ++ String z (String c ds), rest)
                 else None
             | EmptyString => None
             end
        else None
    | EmptyString => None
    end.

Definition is_hex_digit (c : ascii) : bool :=
  is_digit c || in_range "a" "f" c || in_range "A" "F" c.

(** [HEX_NUMBER: /-?0x[\da-f]*/i] *)
Definition HEX_NUMBER : Scanner :=
  prefixed_number (fun c => is_char "x" c || is_char "X" c) is_hex_digit.

(** [OCT_NUMBER: /-?0o[0-7]*/i] *)
Definition OCT_NUMBER : Scanner :=
  prefixed_number (fun c => is_char "o" c || is_char "O" c) (in_range "0" "7").

(** [BIN_NUMBER: /-?0b[0-1]*/i] *)
Definition BIN_NUMBER : Scanner :=
  prefixed_number (fun c => is_char "b" c || is_char "B" c) (in_range "0" "1").

(** [(\d+\.\d*|\.\d+|\d+)] *)
Definition mantissa : Scanner :=
  fun s =>
    let (d1, r1) := span is_digit s in
    match d1, r1 with
    | String _ _, String c r2 =>
        if is_char "." c
        then let (d2, r3) := span is_digit r2 in
             Some (d1 ++ String c d2, r3)
        else Some (d1, r1)
    | String _ _, EmptyString => Some (d1, r1)
    | EmptyString, String c r2 =>
        if is_char "." c
        then match span is_digit r2 with
             | (EmptyString, _) => None
             | (d2, r3) => Some (String c d2, r3)
             end
        else None
    | EmptyString, EmptyString => None
    end.

(** [(e[-+]?\d+)?] *)
Definition optional_exponent (s : string) : string * string :=
  match s with
  | String e r =>
      if is_char "e" e || is_char "E" e
      then
        let (sign, r1) :=
          optional_char (fun c => is_char "-" c || is_char "+" c) r in
        match span is_digit r1 with
        | (EmptyString, _) => (EmptyString, s)
        | (ds, rest) => (String e (sign ++ ds), rest)
        end
      else (EmptyString, s)
  | EmptyString => (EmptyString, EmptyString)
  end.

(** [FLOAT_NUMBER:
     /-?((\d+\.\d*|\.\d+|\d+)(e[-+]?\d+)?|\d+(e[-+]?\d+))/i].  Whatever
    the second alternative matches, the first matches before it. *)
Definition FLOAT_NUMBER : Scanner :=
  fun s =>
    let (sign, s1) := optional_char (is_char "-") s in
    match mantissa s1 with
    | None => None
    | Some (m, s2) =>
        let (e, rest) := optional_exponent s2 in
        Some (sign ++ m ++ e, rest)
    end.

Definition is_j (c : ascii) : bool := is_char "j" c || is_char "J" c.

(** [IMAG_NUMBER: /-?\d+j/i | FLOAT_NUMBER "j"i] *)
Definition IMAG_NUMBER : Scanner :=
  fun s =>
    let integer_j :=
      let (sign, s1) := optional_char (is_char "-") s in
      match span is_digit s1 with
      | (String d ds, String j rest) =>
          if is_j j then Some (sign ++ String d ds ++ String j EmptyString, rest)
          else None
      | _ => None
      end in
    match integer_j with
    | Some r => Some r
    | None =>
        match FLOAT_NUMBER s with
        | Some (f, String j rest) =>
            if is_j j then Some (f ++ String j EmptyString, rest) else None
        | _ => None
        end
    end.

(** [/[+-]/] *)
Definition SIGN : Scanner :=
  fun s =>
    match s with
    | String c r =>
        if is_char "+" c || is_char "-" c then Some (String c EmptyString, r)
        else None
    | EmptyString => None
    end.

(** The text after an opening quote, up to the first closing quote that
    an even number of backslashes precedes; [.] does not match a line
    feed.  [even] tells whether the backslashes just read are even in
    number. *)
Fixpoint quoted_body (quote : ascii) (even : bool) (s : string)
    : option (string * string) :=
  match s with
  | EmptyString => None
  | String c r =>
      if is_char newline c then None
      else if is_char quote c && even then Some (String c EmptyString, r)
      else
        match quoted_body quote
                (if is_char backslash c then negb even else true) r with
        | Some (tok, rest) => Some (String c tok, rest)
        | None => None
        end
  end.

(** The two terminals of the rule [string]: a quote, the body above,
    for the double and for the single quote. *)
Definition QUOTED (quote : ascii) : Scanner :=
  fun s =>
    match s with
    | String c r =>
        if is_char quote c
        then match quoted_body quote true r with
             | Some (tok, rest) => Some (String c tok, rest)
             | None => None
             end
        else None
    | EmptyString => None
    end.

(** ** Parse trees *)

(** The children of a [slice_key] node, which keeps its [":"] tokens. *)
Inductive SliceArg : Type :=
| a_integer (tok : string)
| a_colon.

(** The tree of a key, one constructor per rule. *)
Inductive Tree : Type :=
| t_integer (tok : string)
| t_slice_key (args : list SliceArg)
| t_float_value (tok : string)
| t_complex_value (toks : list string)
| t_boolean (tok : string)
| t_none
| t_string (tok : string)
| t_other (tok : string)
| t_tuple_key (keys : list Tree).

(** The children of the [path] node. *)
Inductive Child : Type :=
| c_identifier (tok : string)
| c_key (t : Tree).

(** ** The grammar

    One relation per rule, one constructor per alternative.  An
    optional part [[x]] of a rule that is absent adds no child to the
    tree, as in the Lark releases the repository was written for. *)

(** [integer: DEC_NUMBER | HEX_NUMBER | BIN_NUMBER | OCT_NUMBER] *)
Inductive parses_integer : string -> string -> string -> Prop :=
| pi_dec s tok rest :
    DEC_NUMBER s = Some (tok, rest) -> parses_integer s tok rest
| pi_hex s tok rest :
    HEX_NUMBER s = Some (tok, rest) -> parses_integer s tok rest
| pi_bin s tok rest :
    BIN_NUMBER s = Some (tok, rest) -> parses_integer s tok rest
| pi_oct s tok rest :
    OCT_NUMBER s = Some (tok, rest) -> parses_integer s tok rest.

(** [[integer]] *)
Inductive parses_optional_integer
    : string -> list SliceArg -> string -> Prop :=
| po_absent s : parses_optional_integer s [] s
| po_present s tok rest :
    parses_integer s tok rest ->
    parses_optional_integer s [a_integer tok] rest.

(** [slice_key: [integer] ":" [integer] [":" [integer]]] *)
Inductive parses_slice_key : string -> list SliceArg -> string -> Prop :=
| ps_two s a1 s1 s2 a2 rest :
    parses_optional_integer s a1 s1 ->
    literal ":" s1 = Some s2 ->
    parses_optional_integer s2 a2 rest ->
    parses_slice_key s (a1 ++ a_colon :: a2) rest
| ps_three s a1 s1 s2 a2 s3 s4 a3 rest :
    parses_optional_integer s a1 s1 ->
    literal ":" s1 = Some s2 ->
    parses_optional_integer s2 a2 s3 ->
    literal ":" s3 = Some s4 ->
    parses_optional_integer s4 a3 rest ->
    parses_slice_key s (a1 ++ a_colon :: a2 ++ a_colon :: a3) rest.

(** [key] with its nine alternatives, and [("," key)*] for the tuples:
    [parses_key s t rest] when a key with tree [t] is read from the
    front of [s], leaving [rest]. *)
Inductive parses_key : string -> Tree -> string -> Prop :=
| pk_integer s tok rest :
    parses_integer s tok rest -> parses_key s (t_integer tok) rest
| pk_slice_key s args rest :
    parses_slice_key s args rest -> parses_key s (t_slice_key args) rest
| pk_float_value s tok rest :
    FLOAT_NUMBER s = Some (tok, rest) -> parses_key s (t_float_value tok) rest
| pk_complex_imag s tok rest :
    IMAG_NUMBER s = Some (tok, rest) ->
    parses_key s (t_complex_value [tok]) rest
| pk_complex_value s re s1 sign s2 im rest :
    FLOAT_NUMBER s = Some (re, s1) ->
    SIGN s1 = Some (sign, s2) ->
    IMAG_NUMBER s2 = Some (im, rest) ->
    parses_key s (t_complex_value [re; sign; im]) rest
| pk_true s rest :
    literal "True" s = Some rest -> parses_key s (t_boolean "True") rest
| pk_false s rest :
    literal "False" s = Some rest -> parses_key s (t_boolean "False") rest
| pk_none s rest :
    literal "None" s = Some rest -> parses_key s t_none rest
| pk_string_double s tok rest :
    QUOTED double_quote s = Some (tok, rest) ->
    parses_key s (t_string tok) rest
| pk_string_single s tok rest :
    QUOTED single_quote s = Some (tok, rest) ->
    parses_key s (t_string tok) rest
| pk_other s tok rest :
    OTHER s = Some (tok, rest) -> parses_key s (t_other tok) rest
| pk_tuple_empty s rest :
    literal "()" s = Some rest -> parses_key s (t_tuple_key []) rest
| pk_tuple_one s s1 k s2 rest :
    literal "(" s = Some s1 ->
    parses_key s1 k s2 ->
    literal ",)" s2 = Some rest ->
    parses_key s (t_tuple_key [k]) rest
| pk_tuple_many s s1 k s2 k' ks s3 s4 rest :
    literal "(" s = Some s1 ->
    parses_key s1 k s2 ->
    parses_more_keys s2 (k' :: ks) s3 ->
    (s4 = s3 \/ literal "," s3 = Some s4) ->
    literal ")" s4 = Some rest ->
    parses_key s (t_tuple_key (k :: k' :: ks)) rest

with parses_more_keys : string -> list Tree -> string -> Prop :=
| pm_done s : parses_more_keys s [] s
| pm_more s s1 k s2 ks rest :
    literal "," s = Some s1 ->
    parses_key s1 k s2 ->
    parses_more_keys s2 ks rest ->
    parses_more_keys s (k :: ks) rest.

(** [("." identifier | "[" key "]")*] up to the end of the text. *)
Inductive parses_segments : string -> list Child -> Prop :=
| pg_end : parses_segments EmptyString []
| pg_attribute s s1 tok rest children :
    literal "." s = Some s1 ->
    IDENTIFIER s1 = Some (tok, rest) ->
    parses_segments rest children ->
    parses_segments s (c_identifier tok :: children)
| pg_item s s1 t s2 rest children :
    literal "[" s = Some s1 ->
    parses_key s1 t s2 ->
    literal "]" s2 = Some rest ->
    parses_segments rest children ->
    parses_segments s (c_key t :: children).

(** [path: [identifier ("." identifier | "[" key "]")*]] *)
Inductive parses_path : string -> list Child -> Prop :=
| pp_empty : parses_path EmptyString []
| pp_identifier s tok rest children :
    IDENTIFIER s = Some (tok, rest) ->
    parses_segments rest children ->
    parses_path s (c_identifier tok :: children).

(** ** [PathTransformer] *)

(** The value of a digit in a base up to 16. *)
Definition digit_value (c : ascii) : Z :=
  let n := Z.of_nat (nat_of_ascii c) in
  if is_digit c then n - 48
  else if in_range "a" "f" c then n - 87
  else n - 55.

Definition digits_value (base : Z) (digits : string) : Z :=
  fold_left (fun acc c => acc * base + digit_value c)
            (list_ascii_of_string digits) 0.

(** [literal_eval(tok)] of an [integer] token; a prefix with no digit
    after it is a SyntaxError, here [None]. *)
Definition literal_eval (tok : string) : option Z :=
  let (sign, body) := optional_char (is_char "-") tok in
  let negate (z : Z) : Z :=
    match sign with EmptyString => z | _ => (- z)%Z end in
  match body with
  | String z (String c digits) =>
      let based (base : Z) : option Z :=
        match digits with
        | EmptyString => None
        | _ => Some (negate (digits_value base digits))
        end in
      if is_char "0" z && (is_char "x" c || is_char "X" c) then based 16%Z
      else if is_char "0" z && (is_char "o" c || is_char "O" c) then based 8%Z
      else if is_char "0" z && (is_char "b" c || is_char "B" c) then based 2%Z
      else Some (negate (digits_value 10 body))
  | _ => Some (negate (digits_value 10 body))
  end.

(** [tok[1:-1]] *)
Definition strip_quotes (tok : string) : string :=
  match tok with
  | String _ r => substring 0 (String.length r - 1) r
  | EmptyString => EmptyString
  end.

(** The loop of [PathTransformer.slice_key] over the children: a
    [":"] moves to the next bound, an integer sets the current one. *)
Fixpoint slice_args (args : list SliceArg) (i : nat)
    (sargs : option Z * option Z * option Z)
    : option (option Z * option Z * option Z) :=
  match args with
  | [] => Some sargs
  | a_colon :: args' => slice_args args' (S i) sargs
  | a_integer tok :: args' =>
      match literal_eval tok with
      | None => None
      | Some z =>
          let '(start, stop, step) := sargs in
          match i with
          | 0%nat => slice_args args' i (Some z, stop, step)
          | 1%nat => slice_args args' i (start, Some z, step)
          | 2%nat => slice_args args' i (start, stop, Some z)
          | _ => None
          end
      end
  end.

Section Transformer.

(** [float(text)] and [complex(text)] are Python's own and are taken as
    given; [None] stands for a ValueError. *)
Variable float_of_str : string -> option spec_float.
Variable complex_of_str : string -> option (spec_float * spec_float).

(** The methods of [PathTransformer], bottom-up over the tree of a key;
    [None] when one of them raises. *)
Fixpoint transform (t : Tree) : option Key :=
  match t with
  | t_integer tok => option_map KInt (literal_eval tok)
  | t_slice_key args =>
      match slice_args args 0 (None, None, None) with
      | Some (start, stop, step) => Some (KSlice start stop step)
      | None => None
      end
  | t_float_value tok => option_map KFloat (float_of_str tok)
  | t_complex_value toks =>
      match complex_of_str (join EmptyString toks) with
      | Some (re, im) => Some (KComplex re im)
      | None => None
      end
  | t_boolean tok =>
      if String.eqb tok "True" then Some (KBool true)
      else if String.eqb tok "False" then Some (KBool false)
      else None
  | t_none => Some KNone
  | t_string tok => Some (KStr (strip_quotes tok))
  | t_other tok => Some (KStr tok)
  | t_tuple_key keys =>
      option_map KTuple
        ((fix all (l : list Tree) : option (list Key) :=
            match l with
            | [] => Some []
            | t' :: l' =>
                match transform t', all l' with
                | Some k, Some ks => Some (k :: ks)
                | _, _ => None
                end
            end) keys)
  end.

Definition transform_child (c : Child) : option Key :=
  match c with
  | c_identifier tok => Some (KStr tok)
  | c_key t => transform t
  end.

(** [PathTransformer.path]: the path of the transformed children. *)
Fixpoint transform_path (children : list Child) : option Path :=
  match children with
  | [] => Some []
  | c :: children' =>
      match transform_child c, transform_path children' with
      | Some k, Some p => Some (k :: p)
      | _, _ => None
      end
  end.

(** [Path.from_str(text)] returns the transformed tree of a parse of
    [text].  It is sure to return [p] when [text] has a parse and each
    of its parses transforms to [p]. *)
Definition from_str_is (text : string) (p : Path) : Prop :=
  (exists children, parses_path text children)
  /\ forall children,
       parses_path text children -> transform_path children = Some p.

(** [Path.from_str(text)] can return [p]: some parse of [text]
    transforms to [p]. *)
Definition from_str_may_be (text : string) (p : Path) : Prop :=
  exists children,
    parses_path text children /\ transform_path children = Some p.

End Transformer.

Local Open Scope list_scope.
Local Open Scope Z_scope.

(* ================================================================== *)
(** * Notions used in the statements *)
(* ================================================================== *)

(** ** Entries and the store *)

(** Every [Node] the class defines has its bits among those of [ANY]; an
    [Entry] that went through [__post_init__] never keeps [ANY]. *)
Definition Node_valid (t : Node) : Prop := (N.land t ANY = t)%N.

Definition Entry_wf (e : Entry) : Prop :=
  Node_valid (Entry.type e) /\ Entry.type e <> ANY.

(** The implicit entry for the prefix of length [i], given the key
    [part] that follows it. *)
Definition implicit_entry_for (e : Entry) (i : nat) : Entry :=
  match nth_error (Entry.path e) i with
  | Some part =>
      Entry.mk (firstn i (Entry.path e)) (Entry.priority e)
        (if isinstance_slice part then VList [] else VDict [])
        (if isinstance_int part then LIST_OR_DICT
         else if isinstance_slice part then LIST else DICT)
        true
  | None => e
  end.

(** The list a read of [entries_by_path[k]] returns. *)
Definition Store_lookup (d : Store) (k : Path) : list Entry :=
  fst (Store_getitem d k).

(** [x] is one of the entries held somewhere in the store. *)
Definition Store_holds (d : Store) (x : Entry) : Prop :=
  exists k l, In (k, l) d /\ In x l.

(** Two configurations that answer every read alike: the same ceiling,
    and for every path the same stored entries. *)
Definition same_entries (c1 c2 : Configuration) : Prop :=
  active_priority c1 = active_priority c2
  /\ forall q, Store_lookup (entries_by_path c1) q
               = Store_lookup (entries_by_path c2) q.

(** ** Write access *)

(** The claim's reading of a denial, C2: some proper prefix of [path]
    (the empty one included) holds an entry whose explicit priority
    exceeds [priority]. *)
Definition some_prefix_outranks (self : Configuration) (path : Path)
    (priority : Z) : Prop :=
  exists i e,
    (i < length path)%nat
    /\ In e (Store_lookup (entries_by_path self) (firstn i path))
    /\ priority < Entry.explicit_priority e.

(** What the code checks: a prefix of length [1..n-1] whose greatest
    explicit priority, 0 when nothing is stored there, exceeds
    [priority]. *)
Definition denied_at (self : Configuration) (path : Path) (priority : Z)
    (i : nat) : Prop :=
  (1 <= i < length path)%nat
  /\ let stored := Store_lookup (entries_by_path self) (firstn i path) in
     (exists e, In e stored /\ priority < Entry.explicit_priority e)
     \/ (stored = [] /\ priority < 0).

(** ** Keys that are read back *)

Local Open Scope string_scope.

(** The first character of [rest], if any, is outside the class [p]. *)
Definition stops (p : ascii -> bool) (rest : string) : Prop :=
  match rest with
  | EmptyString => True
  | String c _ => p c = false
  end.

(** The body of a string that the single-quote terminal reads back
    whole: it has no line feed, a single quote in it follows an odd
    number of backslashes, and it ends on an even number of them. *)
Fixpoint quotable (even : bool) (s : string) : bool :=
  match s with
  | EmptyString => even
  | String c r =>
      if is_char newline c then false
      else if is_char single_quote c then negb even && quotable true r
      else quotable (if is_char backslash c then negb even else true) r
  end.

(** A string key that is an identifier or quotable. *)
Definition text_key (k : Key) : bool :=
  match k with
  | KStr s => isidentifier s || quotable true s
  | _ => false
  end.

(** The empty path, or an identifier followed by text keys. *)
Definition text_path (p : Path) : bool :=
  match p with
  | [] => true
  | KStr s :: keys => isidentifier s && forallb text_key keys
  | _ :: _ => false
  end.

(** The child of the [path] node that a text key is read back as. *)
Definition child_of_text (k : Key) : Child :=
  match k with
  | KStr s =>
      if isidentifier s then c_identifier s
      else c_key (t_string (String single_quote (s ++ String single_quote "")))
  | _ => c_key t_none
  end.

(** A key that is read back inside a tuple as well: an integer, a
    boolean, None, or a tuple of such keys. *)
Fixpoint plain_key (k : Key) : bool :=
  match k with
  | KInt _ | KBool _ | KNone => true
  | KTuple l =>
      (fix all (l : list Key) : bool :=
         match l with
         | [] => true
         | x :: l' => plain_key x && all l'
         end) l
  | _ => false
  end.

(** A text key, a plain key, or a slice. *)
Definition literal_key (k : Key) : bool :=
  text_key k || plain_key k || isinstance_slice k.

(** The empty path, or an identifier followed by literal keys. *)
Definition literal_path (p : Path) : bool :=
  match p with
  | [] => true
  | KStr s :: keys => isidentifier s && forallb literal_key keys
  | _ :: _ => false
  end.

Local Open Scope list_scope.
Local Open Scope Z_scope.

(** ** Scenarios *)

(** [cfg.add_entry(path, value, priority)] for its effect on [cfg]. *)
Definition after_add_entry (self : Configuration) (path : Path)
    (value : Value) (priority : option Z) : Configuration :=
  snd (add_entry self path value priority).

Definition vint (z : Z) : Value := VAtom (KInt z).

(** Two entries at [a]: a dict given at priority 2, and the implicit
    placeholder of a write below [a] at priority 6. *)
Definition entry_a_low : Entry :=
  Entry.new [KStr "a"] 2 (VDict [(KStr "b", vint 1)]) ANY false.

Definition entry_a_high : Entry :=
  Entry.new [KStr "a"] 6 (VDict []) DICT true.

(** An entry at [a[True][:2].z]. *)
Definition entry_abool : Entry :=
  Entry.new [KStr "a"; KBool true; KSlice None (Some 2) None; KStr "z"]
            5 (vint 1) ANY false.

(** [add_entry("a", [1,2,3,4], priority=2);
     add_entry("a[:2]", [9,9], priority=4)] *)
Definition cfg_slice_write : Configuration :=
  after_add_entry
    (after_add_entry Configuration_init
       [KStr "a"] (VList [vint 1; vint 2; vint 3; vint 4]) (Some 2))
    [KStr "a"; KSlice None (Some 2) None] (VList [vint 9; vint 9]) (Some 4).

(** [add_entry("a[:2]", [9])]; [add_entry("a.b", 1)]: [a] must be a
    list for the one and a dict for the other. *)
Definition cfg_list_and_dict : Configuration :=
  after_add_entry
    (after_add_entry Configuration_init
       [KStr "a"; KSlice None (Some 2) None] (VList [vint 9]) None)
    [KStr "a"; KStr "b"] (vint 1) None.

(** [add_entry("a", {"b": 1, "c": 2}, priority=6);
     add_entry("a.b", 9, priority=2)] *)
Definition cfg_closed : Configuration :=
  after_add_entry
    (after_add_entry Configuration_init
       [KStr "a"] (VDict [(KStr "b", vint 1); (KStr "c", vint 2)]) (Some 6))
    [KStr "a"; KStr "b"] (vint 9) (Some 2).

(** [add_entry("a", {"k": 0}, priority=6);
     add_entry("a.b", {"x": 1}, priority=2);
     add_entry("a.b.c", 1, priority=7)] *)
Definition cfg_reopened : Configuration :=
  after_add_entry
    (after_add_entry
       (after_add_entry Configuration_init
          [KStr "a"] (VDict [(KStr "k", vint 0)]) (Some 6))
       [KStr "a"; KStr "b"] (VDict [(KStr "x", vint 1)]) (Some 2))
    [KStr "a"; KStr "b"; KStr "c"] (vint 1) (Some 7).

(** ** Keys without NaN *)

Definition is_nan (f : spec_float) : bool :=
  match f with
  | S754_nan => true
  | _ => false
  end.

(** A key that holds no NaN, in itself or in a tuple: such a key equals
    itself. *)
Fixpoint nan_free (k : Key) : bool :=
  match k with
  | KFloat f => negb (is_nan f)
  | KComplex re im => negb (is_nan re) && negb (is_nan im)
  | KTuple l =>
      (fix all (l : list Key) : bool :=
         match l with
         | [] => true
         | x :: l' => nan_free x && all l'
         end) l
  | _ => true
  end.

Definition nan_free_path (p : Path) : bool := forallb nan_free p.

(** ** Containers *)

(** A value that is a dict, a list or a tuple: what [PathDict],
    [PathList] and [PathTuple] hold. *)
Definition is_container (v : Value) : bool :=
  match v with
  | VAtom _ => false
  | _ => true
  end.

(** A value that takes item assignment: a dict or a list. *)
Definition is_mutable (v : Value) : bool :=
  match v with
  | VDict _ | VList _ => true
  | _ => false
  end.

(** Two containers of the same kind. *)
Definition same_kind (a b : Value) : bool :=
  match a, b with
  | VAtom _, VAtom _ => true
  | VTuple _, VTuple _ => true
  | VList _, VList _ => true
  | VDict _, VDict _ => true
  | _, _ => false
  end.

(** Where a read by path went wrong, as the path of the error tells it:
    the error names the prefix [key[:n]]; the keys before its last one
    lead to [parent], and there the key [k = key[n - 1]] either raises
    the error, or reads an item with no access by path while keys are
    left. *)
Definition fails_at (d : Value) (key : Path) (e : Exn) : Prop :=
  exists (n : nat) (parent : Value) (k : Key),
    (1 <= n <= length key)%nat /\
    exn_path e = Some (firstn n key) /\
    PathMixin_getitem d (firstn (n - 1) key) = Ok parent /\
    nth_error key (n - 1) = Some k /\
    (builtin_getitem parent k = Raise (exn (exn_class e) (exn_message e)) \/
     (exists item, builtin_getitem parent k = Ok item /\
                   has_path_access k item = false /\
                   (n < length key)%nat /\
                   exn_class e = TypeError)).

(** ** Priorities *)

(** A list in ascending order of [key]. *)
Fixpoint ascending {A} (key : A -> Z) (l : list A) : Prop :=
  match l with
  | [] => True
  | x :: l' => Forall (fun y => key x <= key y) l' /\ ascending key l'
  end.

(** A configuration after two writes to the path [a]. *)
Definition cfg_two_writes : Configuration :=
  after_add_entry
    (after_add_entry Configuration_init [KStr "a"] (vint 1) (Some 5))
    [KStr "a"] (vint 2) (Some 5).

(** ** A single write *)

(** A path whose keys [hash] accepts: the keys of nested dicts. *)
Definition hashable_path (p : Path) : bool :=
  forallb (fun k => negb (unhashable k)) p.

(** The dict that holds [leaf] at the path [keys] and nothing else:
    [{k1: {k2: ... {kn: leaf}}}]. *)
Fixpoint nest (keys : list Key) (leaf : Value) : Value :=
  match keys with
  | [] => leaf
  | k :: keys' => VDict [(k, nest keys' leaf)]
  end.

(** Entries none of which is stored under the path of a later one. *)
Fixpoint distinct_paths (es : list Entry) : Prop :=
  match es with
  | [] => True
  | e :: es' =>
      Forall (fun e' => Path_eqb (Entry.path e) (Entry.path e') = false) es'
      /\ distinct_paths es'
  end.

(** The keys of a dict are pairwise different, as in every [dict]:
    no key is found again among the items after it. *)
Fixpoint unique_keys (items : list (Key * Value)) : Prop :=
  match items with
  | [] => True
  | (k, _) :: items' => dict_find items' k = None /\ unique_keys items'
  end.

(** A value all of whose dicts have keys that are hashable, hold no NaN
    and are pairwise different: what a [dict] guarantees, with every key
    found under itself. *)
Fixpoint well_keyed (v : Value) : Prop :=
  match v with
  | VAtom _ => True
  | VList l | VTuple l =>
      (fix all (l : list Value) : Prop :=
         match l with
         | [] => True
         | x :: l' => well_keyed x /\ all l'
         end) l
  | VDict items =>
      unique_keys items
      /\ (fix all (items : list (Key * Value)) : Prop :=
            match items with
            | [] => True
            | (k, x) :: items' =>
                nan_free k = true /\ unhashable k = false
                /\ well_keyed x /\ all items'
            end) items
  end.

(** [Path.__getitem__] with the slice [[i:]]. *)
Definition Path_from (self : Path) (i : Z) : Path := slice_from self i.

(** ** Writes to one path *)

(** The priority a write gets on a new configuration: the one given, or
    the ceiling when it is left out or 0. *)
Definition effective_priority (w : Value * option Z) : Z :=
  or_default (snd w) (active_priority Configuration_init).

(** The configuration after a series of writes to one path on a new
    configuration, each a value with the priority given to
    [add_entry]. *)
Definition after_writes (path : Path) (writes : list (Value * option Z))
    : Configuration :=
  fold_left (fun self w => after_add_entry self path (fst w) (snd w))
            writes Configuration_init.

(** The placeholder of the prefix [path[:j]]: an implicit entry with an
    empty dict as value and the type [t]. *)
Definition placeholder (path : Path) (j : nat) (t : Node) (x : Entry)
    : Prop :=
  Entry.path x = firstn j path /\ Entry.value x = VDict []
  /\ Entry.type x = t /\ Entry.implicit x = true /\ 0 <= Entry.priority x.

(* ================================================================== *)
(** * Membership and deletion by path  ([config/containers.py]) *)
(* ================================================================== *)

(** [PathMixin.__contains__], [PathDict.__contains__] and
    [PathMixin.__delitem__] call methods that a scalar item lacks, so
    they can raise an AttributeError next to the exceptions of the
    built-in containers.  A failure is kept as its class and the path
    that [track_errors] attached to it. *)
Inductive Failure : Type :=
| AttributeError
| Builtin (c : ExnClass).

Inductive Outcome (A : Type) : Type :=
| Done (a : A)
| Fails (f : Failure) (path : option Path).

Arguments Done {A} a.
Arguments Fails {A} f path.

Definition of_result {A} (r : Result A) : Outcome A :=
  match r with
  | Ok a => Done a
  | Raise e => Fails (Builtin (exn_class e)) (exn_path e)
  end.

(** The classes [Path.track_errors] catches. *)
Definition tracked (f : Failure) : bool :=
  match f with
  | AttributeError => true
  | Builtin (IndexError | KeyError | TypeError) => true
  | Builtin (AssertionError | ValueError) => false
  end.

(** [Path.track_errors] around code with an [Outcome]. *)
Definition track_outcome {A} (self : Path) (body : Outcome A) : Outcome A :=
  match body with
  | Done a => Done a
  | Fails f path =>
      if tracked f
      then Fails f (Some match path with
                         | None => Path_upto self 1
                         | Some p => Path_add (Path_upto self 1) p
                         end)
      else Fails f path
  end.

(** [a.__contains__(path)] on a scalar: a string refuses a [Path] as
    its left operand with a TypeError, the other scalars have no such
    method. *)
Definition atom_contains (a : Key) : Outcome bool :=
  match a with
  | KStr _ => Fails (Builtin TypeError) None
  | _ => Fails AttributeError None
  end.

(** [key in self] for a [Path] key: [PathDict.__contains__] on a dict,
    [PathMixin.__contains__] on a list or tuple.  For the empty path a
    dict returns itself, which [in] takes as true unless the dict is
    empty.  A list or tuple reads the item with [self[first]] and turns
    an IndexError or AttributeError into [False]; a slice reads a plain
    list or tuple, whose own membership test never finds a [Path]. *)
Fixpoint contains (self : Value) (key : Path) : Outcome bool :=
  match self with
  | VAtom a => atom_contains a
  | VDict items =>
      match key with
      | [] => Done (match items with [] => false | _ :: _ => true end)
      | first :: rest =>
          track_outcome key
            (if unhashable first then Fails (Builtin TypeError) None
             else
               match dict_find items first with
               | None => Done false
               | Some item =>
                   match rest with
                   | [] => Done true
                   | _ :: _ => contains item rest
                   end
               end)
      end
  | VList _ | VTuple _ =>
      match key with
      | [] => Done true
      | first :: rest =>
          track_outcome key
            (match builtin_getitem self first with
             | Raise e =>
                 match exn_class e with
                 | IndexError => Done false
                 | c => Fails (Builtin c) (exn_path e)
                 end
             | Ok sub_item =>
                 match rest with
                 | [] => Done true
                 | _ :: _ =>
                     if isinstance_slice first then Done false
                     else
                       match contains sub_item rest with
                       | Fails AttributeError _ => Done false
                       | Fails (Builtin IndexError) _ => Done false
                       | outcome => outcome
                       end
                 end
             end)
      end
  end.

(** [dict.__delitem__]: the item under an equal key is removed. *)
Fixpoint dict_remove (d : list (Key * Value)) (k : Key)
    : list (Key * Value) :=
  match d with
  | [] => []
  | (k', v) :: d' =>
      if Key_eqb k' k then d' else (k', v) :: dict_remove d' k
  end.

Fixpoint remove_at {A} (l : list A) (i : nat) : list A :=
  match l, i with
  | [], _ => []
  | _ :: l', O => l'
  | y :: l', S i' => y :: remove_at l' i'
  end.

(** [del l[start:stop:step]]: the items at the positions of the slice
    are removed. *)
Definition list_delslice (l : list Value) (start stop step : option Z)
    : Result (list Value) :=
  ix <- slice_indices (length l) start stop step ;;
  let '(start, _, step, slicelength) := ix in
  let positions := slice_positions start step slicelength in
  Ok (map snd
        (filter (fun ix => negb (existsb (Nat.eqb (fst ix)) positions))
                (combine (seq 0 (length l)) l))).

(** [super().__delitem__(key)] of a dict or list, for a key that is no
    [Path]. *)
Definition builtin_delitem (self : Value) (key : Key) : Result Value :=
  match self with
  | VDict d =>
      if unhashable key then Raise (exn TypeError (unhashable_key key))
      else match dict_find d key with
           | Some _ => Ok (VDict (dict_remove d key))
           | None => Raise (exn KeyError (missing_key key))
           end
  | VList l =>
      match key with
      | KSlice start stop step =>
          items <- list_delslice l start stop step ;;
          Ok (VList items)
      | _ =>
          match index_of_key key with
          | None => Raise (exn TypeError (bad_index_type key))
          | Some i =>
              match sequence_index (length l) i with
              | None => Raise (exn IndexError index_out_of_range)
              | Some n => Ok (VList (remove_at l n))
              end
          end
      end
  | VTuple _ | VAtom _ => Raise (exn TypeError no_item_assignment)
  end.

(** [self.__delitem__(key)] with a [Path] key: [PathMixin.__delitem__]
    on a dict or list.  [PathTuple] sets [__delitem__] to [None], and
    calling it is a TypeError; a scalar has no such method; the plain
    list that a slice reads takes no [Path] as an index.  The item
    [self[first]] is changed in place, so the new container holds the
    changed item where the old one stood. *)
Fixpoint delitem (self : Value) (key : Path) : Outcome Value :=
  match self with
  | VAtom _ => Fails AttributeError None
  | VTuple _ => Fails (Builtin TypeError) None
  | VDict _ | VList _ =>
      match key with
      | [] => track_outcome key (Fails (Builtin IndexError) None)
      | first :: rest =>
          track_outcome key
            (match rest with
             | [] => of_result (builtin_delitem self first)
             | _ :: _ =>
                 match builtin_getitem self first with
                 | Raise e => of_result (Raise e : Result Value)
                 | Ok item =>
                     if isinstance_slice first
                     then Fails (Builtin TypeError) None
                     else
                       match delitem item rest with
                       | Done item' =>
                           of_result (builtin_setitem self first item')
                       | Fails f path => Fails f path
                       end
                 end
             end)
      end
  end.

(* ================================================================== *)
(** * Updating a dict  ([config/containers.py]) *)
(* ================================================================== *)

(** [to_update[rest] = value] for an item [to_update] of a dict: a dict
    or list takes the assignment by path, a tuple and a scalar take no
    item assignment. *)
Definition assign_item (to_update : Value) (rest : Path) (value : Value)
    : Result Value :=
  match to_update with
  | VDict _ | VList _ => PathMixin_setitem to_update rest value
  | VTuple _ | VAtom _ => Raise (exn TypeError no_item_assignment)
  end.

(** [PathMixin.__setitem__(key, value, PathDict)] on a [PathDict], with
    a [Path] key: what [update] and [recursive_update] call.  When keys
    are left after the first, [self.setdefault(first, PathDict())] puts
    an empty dict under a missing first key, and it stays there when the
    assignment to it fails; so the items of the dict are returned with
    the result.  The assignment below the first key is a plain
    [to_update[rest] = value], which creates nothing. *)
Definition PathDict_setitem_default (items : list (Key * Value))
    (key : Path) (value : Value) : Result unit * list (Key * Value) :=
  let value := recursive_path_conversion value in
  match key with
  | [] => (track_errors key (Raise (exn IndexError index_out_of_range)), items)
  | first :: rest =>
      if unhashable first
      then (track_errors key (Raise (exn TypeError (unhashable_key first))),
            items)
      else
        match rest with
        | [] => (Ok tt, dict_set items first value)
        | _ :: _ =>
            let '(to_update, items1) :=
              match dict_find items first with
              | Some item => (item, items)
              | None => (VDict [], dict_set items first (VDict []))
              end in
            match track_errors key (assign_item to_update rest value) with
            | Ok updated => (Ok tt, dict_set items1 first updated)
            | Raise e => (Raise e, items1)
            end
        end
  end.

(** [sorted(l, key=key)] with string keys: a stable sort by the order
    of the characters. *)
Fixpoint insert_by_str {A} (key : A -> string) (x : A) (l : list A)
    : list A :=
  match l with
  | [] => [x]
  | y :: l' =>
      if String.leb (key x) (key y) then x :: l
      else y :: insert_by_str key x l'
  end.

Definition sorted_by_str {A} (key : A -> string) (l : list A) : list A :=
  fold_right (insert_by_str key) [] l.

Section Flatten.

Variable str_float : spec_float -> string.
Variable str_complex : spec_float -> spec_float -> string.

(** [iterate_flattened(d, key)] with the default [_by_str_key] and
    without nodes: the leaves of [d], each with its full path, the items
    of a dict in the order of [str(k)] and those of a list or tuple by
    index.  The items below each key are collected before the keys are
    sorted, which yields the same items in the same order. *)
Fixpoint iterate_flattened (d : Value) (key : Path) : list (Path * Value) :=
  match d with
  | VDict items =>
      flat_map snd
        (sorted_by_str fst
           (map (fun kv =>
                   (str_key str_float str_complex (fst kv),
                    iterate_flattened (snd kv) (Path_add key [fst kv])))
                items))
  | VList l | VTuple l =>
      (fix enumerate (l : list Value) (i : nat) : list (Path * Value) :=
         match l with
         | [] => []
         | value :: l' =>
             iterate_flattened value (Path_add key [KInt (Z.of_nat i)])
             ++ enumerate l' (S i)
         end) l 0%nat
  | VAtom _ => [(key, d)]
  end.

(** [PathDict.flat_items] *)
Definition flat_items (self : Value) : list (Path * Value) :=
  iterate_flattened self [].

End Flatten.

(** The truth value of a value: [None], [False], a zero, and an empty
    string or container are false. *)
Definition truthy (v : Value) : bool :=
  match v with
  | VAtom KNone => false
  | VAtom (KBool b) => b
  | VAtom (KInt z) => negb (z =? 0)
  | VAtom (KFloat (S754_zero _)) => false
  | VAtom (KComplex (S754_zero _) (S754_zero _)) => false
  | VAtom (KStr EmptyString) => false
  | VAtom (KTuple []) => false
  | VAtom _ => true
  | VTuple [] | VList [] | VDict [] => false
  | _ => true
  end.

(** The loop [for k, v in ...: self.__setitem__(k, v, PathDict)]; it
    ends at the first assignment that raises. *)
Fixpoint update_loop (items : list (Key * Value))
    (flat : list (Path * Value)) : Result unit * list (Key * Value) :=
  match flat with
  | [] => (Ok tt, items)
  | (k, v) :: flat' =>
      match PathDict_setitem_default items k v with
      | (Ok _, items') => update_loop items' flat'
      | (Raise e, items') => (Raise e, items')
      end
  end.

Section RecursiveUpdate.

Variable str_float : spec_float -> string.
Variable str_complex : spec_float -> spec_float -> string.

(** [PathDict.recursive_update(d, **kwargs)] on a dict with the items
    [self]; [d] is [None] when it is left out.  The keyword arguments
    are used only when [d] is [None]; a [d] that is no dict has no
    [flat_items]. *)
Definition recursive_update (self : list (Key * Value)) (d : Value)
    (kwargs : list (string * Value))
    : Outcome unit * list (Key * Value) :=
  if negb (truthy d || match kwargs with [] => false | _ :: _ => true end)
  then (Fails (Builtin AssertionError) None, self)
  else
    let d :=
      recursive_path_conversion
        match d with
        | VAtom KNone => VDict (map (fun kv => (KStr (fst kv), snd kv)) kwargs)
        | _ => d
        end in
    match d with
    | VDict _ =>
        let '(result, self') :=
          update_loop self (flat_items str_float str_complex d) in
        (of_result result, self')
    | _ => (Fails AttributeError None, self)
    end.

End RecursiveUpdate.

(* ================================================================== *)
(** * The order of paths  ([config/path.py]) *)
(* ================================================================== *)

(** ** Python's [>] on keys *)

(** The exact comparison of an integer with a float; a NaN compares
    with nothing. *)
Definition int_float_compare (z : Z) (f : spec_float) : option comparison :=
  match f with
  | S754_zero _ => Some (z ?= 0)
  | S754_infinity s => Some (if s then Gt else Lt)
  | S754_nan => None
  | S754_finite s m e =>
      let v := if s then Z.neg m else Z.pos m in
      if 0 <=? e then Some (z ?= v * 2 ^ e)
      else Some (z * 2 ^ (- e) ?= v)
  end.

Definition Real_compare (a b : Real) : option comparison :=
  match a, b with
  | RInt x, RInt y => Some (x ?= y)
  | RInt x, RFloat f => int_float_compare x f
  | RFloat f, RInt x => option_map CompOpp (int_float_compare x f)
  | RFloat f, RFloat g => SFcompare f g
  end.

(** The real number a key stands for in an order comparison: an
    integer, a boolean or a float; a complex number has no order. *)
Definition real_of_key (k : Key) : option Real :=
  match k with
  | KInt z => Some (RInt z)
  | KBool b => Some (RInt (if b then 1 else 0))
  | KFloat f => Some (RFloat f)
  | _ => None
  end.

(** [a > b] on the bounds of two slices, which are compared as the
    tuples [(start, stop, step)]: [None] has no order with an integer. *)
Definition bound_gt (a b : option Z) : option bool :=
  match a, b with
  | Some x, Some y => Some (y <? x)
  | _, _ => None
  end.

(** [a > b] on keys; [None] stands for the TypeError of two values that
    have no order.  Numbers compare by value, strings by their
    characters, tuples and slices by the first items that differ; a
    longer tuple is greater than its prefix. *)
Fixpoint Key_gt (a b : Key) : option bool :=
  match a, b with
  | KStr s, KStr t => Some (String.ltb t s)
  | KTuple l, KTuple m =>
      (fix tuple_gt (l m : list Key) : option bool :=
         match l, m with
         | [], _ => Some false
         | _ :: _, [] => Some true
         | x :: l', y :: m' =>
             if Key_eqb x y then tuple_gt l' m' else Key_gt x y
         end) l m
  | KSlice a1 a2 a3, KSlice b1 b2 b3 =>
      if negb (option_Z_eqb a1 b1) then bound_gt a1 b1
      else if negb (option_Z_eqb a2 b2) then bound_gt a2 b2
      else if negb (option_Z_eqb a3 b3) then bound_gt a3 b3
      else Some false
  | _, _ =>
      match real_of_key a, real_of_key b with
      | Some x, Some y =>
          Some match Real_compare x y with
               | Some Gt => true
               | _ => false
               end
      | _, _ => None
      end
  end.

(** [self.parts > other.parts]: the first keys that differ decide, and
    when none do, the longer tuple is the greater. *)
Fixpoint parts_gt (l m : list Key) : option bool :=
  match l, m with
  | [], _ => Some false
  | _ :: _, [] => Some true
  | x :: l', y :: m' =>
      if Key_eqb x y then parts_gt l' m' else Key_gt x y
  end.

(** [Path.__gt__] against another [Path]. *)
Definition Path_gt (self other : Path) : option bool := parts_gt self other.

(** The comparisons that [functools.total_ordering] derives from
    [__gt__] and [__eq__]:
    [a < b] is [not (a > b) and a != b], [a >= b] is [a > b or a == b],
    and [a <= b] is [not (a > b)]. *)
Definition Path_lt (self other : Path) : option bool :=
  option_map (fun gt => negb gt && negb (Path_eqb self other))
             (Path_gt self other).

Definition Path_ge (self other : Path) : option bool :=
  option_map (fun gt => gt || Path_eqb self other) (Path_gt self other).

Definition Path_le (self other : Path) : option bool :=
  option_map negb (Path_gt self other).

(** A path all of whose keys are strings. *)
Definition string_path (p : Path) : bool := forallb isinstance_str p.

(* ================================================================== *)
(** * Properties of paths *)
(* ================================================================== *)

Lemma parts_eqb_nil_l (l : list Key) :
  parts_eqb [] l = match l with [] => true | _ :: _ => false end.
Proof. destruct l; reflexivity. Qed.

Lemma clamp_index_of_nat (n i : nat) :
  clamp_index n (Z.of_nat i) = Nat.min i n.
Proof.
  unfold clamp_index. cbv zeta.
  destruct (Z.ltb_spec (Z.of_nat i) 0); lia.
Qed.

Lemma slice_upto_of_nat {A} (t : list A) (i : nat) :
  slice_upto t (Z.of_nat i) = firstn i t.
Proof.
  unfold slice_upto. rewrite clamp_index_of_nat.
  destruct (Nat.le_ge_cases i (length t)) as [H | H].
  - now rewrite Nat.min_l.
  - rewrite Nat.min_r by assumption.
    now rewrite !firstn_all2 by lia.
Qed.

(** C7.  The empty path is a prefix of every path and compatible with
    every path, but [Path().is_suffix_of(p)] holds only for the empty
    [p]: [other.parts[-0:]] is the whole tuple, not its empty tail. *)
Theorem empty_path_relations (p : Path) :
  is_prefix_of [] p = true
  /\ is_compatible_with [] p = true
  /\ is_suffix_of [] p = match p with [] => true | _ :: _ => false end.
Proof.
  unfold is_prefix_of, is_compatible_with, is_suffix_of, Path_len.
  cbn [length Nat.min Z.of_nat Z.opp].
  rewrite !(slice_upto_of_nat _ 0).
  repeat split.
  unfold slice_from, clamp_index. cbn [Z.ltb Z.compare].
  replace (Z.to_nat (Z.max 0 (Z.min (Z.of_nat (length p)) 0))) with 0%nat by lia.
  apply parts_eqb_nil_l.
Qed.

(* ================================================================== *)
(** * Properties of entries *)
(* ================================================================== *)

Lemma Node_valid_cases (t : Node) :
  Node_valid t -> (t < 8)%N.
Proof.
  unfold Node_valid. intros H. rewrite <- H.
  change ANY with (N.ones 3). rewrite N.land_ones.
  apply N.mod_lt. discriminate.
Qed.

Lemma land_not_ANY (a b : Node) :
  Node_valid a -> a <> ANY -> Node_and a b <> ANY.
Proof.
  intros Ha Hne Hand. apply Hne.
  pose proof (Node_valid_cases Ha) as Hlt.
  unfold Node_and in Hand.
  assert (Hbits : N.land (N.land a b) ANY = ANY) by (rewrite Hand; reflexivity).
  rewrite (N.land_comm a b), <- N.land_assoc, Ha, N.land_comm in Hbits.
  rewrite Hand in Hbits.
  rewrite <- Ha.
  clear - Hand Hlt.
  assert (a = 0 \/ a = 1 \/ a = 2 \/ a = 3 \/ a = 4 \/ a = 5 \/ a = 6 \/ a = 7)%N
    as Hc by lia.
  destruct Hc as [-> | [-> | [-> | [-> | [-> | [-> | [-> | ->]]]]]]];
    try reflexivity;
    destruct b as [| [[[]|[]|]|[[]|[]|]|]]; cbn in Hand; try discriminate;
    exfalso; revert Hand; cbn; try discriminate.
Qed.

Lemma post_init_id (e : Entry) :
  Entry.type e <> ANY -> Entry.post_init e = e.
Proof.
  intros H. unfold Entry.post_init.
  destruct (get_value_and_type (Entry.value e)).
  destruct (N.eqb_spec (Entry.type e) ANY); [contradiction | reflexivity].
Qed.

Lemma get_value_and_type_valid (value : Value) :
  Node_valid (snd (get_value_and_type value))
  /\ snd (get_value_and_type value) <> ANY.
Proof. destruct value; split; (reflexivity || (intros H; discriminate H)). Qed.

Lemma new_wf path priority value type implicit :
  Node_valid type -> Entry_wf (Entry.new path priority value type implicit).
Proof.
  intros Hv. unfold Entry.new, Entry.post_init, Entry_wf.
  cbn [Entry.type Entry.value].
  pose proof (get_value_and_type_valid value) as [Hn1 Hn2].
  destruct (get_value_and_type value) as [v n]. cbn [snd] in Hn1, Hn2.
  destruct (N.eqb_spec type ANY) as [-> | Hne];
    cbn [Entry.type]; split; assumption.
Qed.

(** C3.  For entries with equal paths, [e1.merge(e2)] returns an entry
    at that path whose value is [e1.value] when
    [e1.explicit_priority >= e2.explicit_priority] and [e2.value]
    otherwise, whose priority is the maximum of the two, whose type is
    the bitwise [&] of the two types, and whose implicit flag is the
    conjunction of the two. *)
Theorem merge_fields (e1 e2 : Entry) :
  Entry_wf e1 ->
  Path_eqb (Entry.path e1) (Entry.path e2) = true ->
  Entry.merge e1 e2 =
    Ok (Entry.mk
          (Entry.path e1)
          (Z.max (Entry.priority e1) (Entry.priority e2))
          (if Entry.explicit_priority e1 >=? Entry.explicit_priority e2
           then Entry.value e1 else Entry.value e2)
          (N.land (Entry.type e1) (Entry.type e2))
          (Entry.implicit e1 && Entry.implicit e2)).
Proof.
  intros [Hvalid Hany] Hpath. unfold Entry.merge. rewrite Hpath.
  cbn [negb]. unfold Entry.new. rewrite post_init_id; [reflexivity |].
  cbn [Entry.type]. now apply land_not_ANY.
Qed.

(** The implicit placeholder of priority 6 merged with the dict given at
    priority 2: the value is that of the explicit entry. *)
Lemma merge_fields_witness :
  Entry.merge entry_a_high entry_a_low =
    Ok (Entry.mk [KStr "a"] 6 (VDict [(KStr "b", VAtom (KInt 1))]) DICT false).
Proof.
  rewrite (@merge_fields entry_a_high entry_a_low).
  - reflexivity.
  - split; [reflexivity | intros H; discriminate H].
  - reflexivity.
Defined.

(** ** The implicit entries of an entry *)

Lemma new_not_ANY path priority value type implicit :
  type <> ANY ->
  Entry.new path priority value type implicit
  = Entry.mk path priority value type implicit.
Proof. intros H. unfold Entry.new. now rewrite post_init_id. Qed.

Lemma new_fields path priority value type implicit :
  let e := Entry.new path priority value type implicit in
  Entry.path e = path /\ Entry.priority e = priority
  /\ Entry.value e = value /\ Entry.implicit e = implicit.
Proof.
  unfold Entry.new, Entry.post_init. cbn [Entry.value Entry.type].
  destruct (get_value_and_type value).
  destruct (N.eqb type ANY); cbn; repeat split.
Qed.

Lemma implicit_entry_at_some (e : Entry) (i : nat) (part : Key) :
  nth_error (Entry.path e) i = Some part ->
  Entry.implicit_entry_at e i =
    [ Entry.mk (firstn i (Entry.path e)) (Entry.priority e)
        (if isinstance_slice part then VList [] else VDict [])
        (if isinstance_int part then LIST_OR_DICT
         else if isinstance_slice part then LIST else DICT)
        true ].
Proof.
  intros Hpart. unfold Entry.implicit_entry_at, Path_item. rewrite Hpart.
  unfold Path_upto. rewrite slice_upto_of_nat.
  unfold Entry.replace_value_type, Entry.replace_path_implicit.
  destruct (new_fields (firstn i (Entry.path e)) (Entry.priority e)
              (Entry.value e) (Entry.type e) true) as (-> & -> & _ & ->).
  destruct part; cbn [isinstance_int isinstance_slice];
    apply f_equal2; try reflexivity;
    apply new_not_ANY; intros H; discriminate H.
Qed.

Lemma flat_map_singletons {A B} (f : A -> list B) (g : A -> B) (l : list A) :
  (forall x, In x l -> f x = [g x]) -> flat_map f l = map g l.
Proof.
  induction l as [| x l IH]; intros H; cbn; [reflexivity |].
  rewrite (H x) by now left. cbn. f_equal. apply IH.
  intros y Hy. apply H. now right.
Qed.

Lemma nth_error_path_lt (p : Path) (i : nat) :
  (i < length p)%nat -> exists part, nth_error p i = Some part.
Proof.
  intros H. destruct (nth_error p i) eqn:E; [eauto |].
  apply nth_error_None in E. lia.
Qed.

Lemma get_implicit_entries_map (e : Entry) :
  Entry.get_implicit_entries e =
    map (implicit_entry_for e) (seq 1 (length (Entry.path e) - 1)) ++ [e].
Proof.
  unfold Entry.get_implicit_entries, Path_len. f_equal.
  apply flat_map_singletons. intros i Hi. apply in_seq in Hi.
  destruct (@nth_error_path_lt (Entry.path e) i) as [part Hpart]; [lia |].
  unfold implicit_entry_for. rewrite Hpart.
  now apply implicit_entry_at_some.
Qed.

(** C4, as the code has it.  For an entry at a path of length [n],
    [get_implicit_entries] yields one entry per prefix of length
    [1..n-1] and then the entry itself.  The entry for the prefix of
    length [i] has that prefix as its path, the priority of the source
    and [implicit=True]; the key [part] that follows the prefix fixes
    the rest: an int or bool key gives type [LIST_OR_DICT] and value
    [{}], a slice key gives [LIST] and [[]], any other key gives [DICT]
    and [{}]. *)
Theorem get_implicit_entries_spec (e : Entry) :
  length (Entry.get_implicit_entries e) = S (length (Entry.path e) - 1)
  /\ nth_error (Entry.get_implicit_entries e) (length (Entry.path e) - 1)
     = Some e
  /\ forall (i : nat) (part : Key),
       (1 <= i)%nat ->
       nth_error (Entry.path e) i = Some part ->
       exists ie,
         nth_error (Entry.get_implicit_entries e) (i - 1) = Some ie
         /\ Entry.path ie = firstn i (Entry.path e)
         /\ Entry.priority ie = Entry.priority e
         /\ Entry.implicit ie = true
         /\ match part with
            | KInt _ | KBool _ =>
                Entry.type ie = LIST_OR_DICT /\ Entry.value ie = VDict []
            | KSlice _ _ _ =>
                Entry.type ie = LIST /\ Entry.value ie = VList []
            | KStr _ | KNone | KFloat _ | KComplex _ _ | KTuple _ =>
                Entry.type ie = DICT /\ Entry.value ie = VDict []
            end.
Proof.
  rewrite get_implicit_entries_map.
  set (n := length (Entry.path e)).
  assert (Hlen : length (map (implicit_entry_for e) (seq 1 (n - 1))) = (n - 1)%nat)
    by now rewrite length_map, length_seq.
  split; [| split].
  - rewrite length_app, Hlen. cbn. lia.
  - rewrite nth_error_app2 by lia. rewrite Hlen, Nat.sub_diag. reflexivity.
  - intros i part Hi Hpart.
    assert (Hlt : (i < n)%nat)
      by (apply nth_error_Some; rewrite Hpart; discriminate).
    exists (implicit_entry_for e i).
    split.
    + rewrite nth_error_app1 by lia.
      rewrite nth_error_map, nth_error_seq.
      destruct (Nat.ltb_spec (i - 1) (n - 1)); [| lia].
      cbn. do 2 f_equal. lia.
    + unfold implicit_entry_for. rewrite Hpart.
      destruct part; cbn; repeat split; reflexivity.
Qed.

(** The prefix [a[True]] of [a[True][:2].z], which a slice follows. *)
Lemma get_implicit_entries_spec_witness :
  exists ie,
    nth_error (Entry.get_implicit_entries entry_abool) (2 - 1) = Some ie
    /\ Entry.path ie = [KStr "a"; KBool true]
    /\ Entry.priority ie = 5
    /\ Entry.implicit ie = true
    /\ Entry.type ie = LIST /\ Entry.value ie = VList [].
Proof.
  destruct (get_implicit_entries_spec entry_abool) as [_ [_ H]].
  destruct (H 2%nat (KSlice None (Some 2) None)) as [ie Hie];
    [lia | reflexivity |].
  exists ie. exact Hie.
Defined.

(** C4 as the claim words it fails on a Boolean key: [bool] is a
    subclass of [int], so the prefix before [True] gets
    [LIST_OR_DICT], not [DICT]. *)
Lemma get_implicit_entries_bool_key :
  map Entry.type
      (Entry.get_implicit_entries
         (Entry.new [KStr "a"; KBool true] 5 (VAtom (KInt 1)) ANY false))
    = [LIST_OR_DICT; LEAF]
  /\ LIST_OR_DICT <> DICT.
Proof. split; [reflexivity | intros H; discriminate H]. Qed.

(* ================================================================== *)
(** * Properties of the entry store *)
(* ================================================================== *)

Lemma Store_lookup_find (d : Store) (k : Path) :
  Store_lookup d k = match Store_find d k with Some v => v | None => [] end.
Proof.
  unfold Store_lookup, Store_getitem. now destruct (Store_find d k).
Qed.

Lemma Store_find_app (d d' : Store) (k : Path) :
  Store_find (d ++ d') k =
    match Store_find d k with Some v => Some v | None => Store_find d' k end.
Proof.
  induction d as [| [k' v] d IH]; cbn; [reflexivity |].
  now destruct (Path_eqb k' k).
Qed.

(** Reading a missing key inserts it, but with an empty list: what any
    later read returns is the same as before. *)
Lemma Store_lookup_getitem (d : Store) (p q : Path) :
  Store_lookup (snd (Store_getitem d p)) q = Store_lookup d q.
Proof.
  rewrite !Store_lookup_find. unfold Store_getitem.
  destruct (Store_find d p); cbn [snd]; [reflexivity |].
  rewrite Store_find_app. destruct (Store_find d q); [reflexivity |].
  cbn. now destruct (Path_eqb p q).
Qed.

Lemma Store_holds_getitem (d : Store) (p : Path) (x : Entry) :
  Store_holds (snd (Store_getitem d p)) x <-> Store_holds d x.
Proof.
  unfold Store_getitem. destruct (Store_find d p); cbn [snd]; [tauto |].
  unfold Store_holds. split.
  - intros (k & l & Hin & Hx). apply in_app_or in Hin as [Hin | Hin].
    + eauto.
    + destruct Hin as [Heq | []]. inversion Heq; subst. destruct Hx.
  - intros (k & l & Hin & Hx). exists k, l. split; [| assumption].
    apply in_or_app. now left.
Qed.

Lemma Store_holds_append (d : Store) (p : Path) (e x : Entry) :
  Store_holds (Store_append d p e) x <-> Store_holds d x \/ x = e.
Proof.
  unfold Store_holds.
  induction d as [| [k' v] d IH]; cbn.
  - split.
    + intros (k & l & [Heq | []] & Hx). inversion Heq; subst.
      destruct Hx as [-> | []]. now right.
    + intros [(k & l & [] & _) | ->]. exists p, [e]. cbn. auto.
  - destruct (Path_eqb k' p).
    + split.
      * intros (k & l & [Heq | Hin] & Hx).
        -- inversion Heq; subst. apply in_app_or in Hx as [Hx | [-> | []]].
           ++ left. exists k, v. cbn. auto.
           ++ now right.
        -- left. exists k, l. cbn. auto.
      * intros [(k & l & [Heq | Hin] & Hx) | ->].
        -- inversion Heq; subst. exists k, (l ++ [e]). split; [now left |].
           apply in_or_app. now left.
        -- exists k, l. cbn. auto.
        -- exists k', (v ++ [e]). split; [now left |].
           apply in_or_app. right. now left.
    + split.
      * intros (k & l & [Heq | Hin] & Hx).
        -- inversion Heq; subst. left. exists k, l. cbn. auto.
        -- destruct (proj1 IH) as [(k2 & l2 & Hin2 & Hx2) | ->]; eauto.
           left. exists k2, l2. cbn. auto.
      * intros [(k & l & [Heq | Hin] & Hx) | ->].
        -- inversion Heq; subst. exists k, l. cbn. auto.
        -- destruct (proj2 IH) as (k2 & l2 & Hin2 & Hx2); eauto.
           exists k2, l2. cbn. auto.
        -- destruct (proj2 IH) as (k2 & l2 & Hin2 & Hx2); eauto.
           exists k2, l2. cbn. auto.
Qed.

Lemma Store_holds_fold_append (es : list Entry) (d : Store) (x : Entry) :
  Store_holds
    (fold_left (fun d e => Store_append d (Entry.path e) e) es d) x
  <-> Store_holds d x \/ In x es.
Proof.
  revert d. induction es as [| e es IH]; intros d; cbn.
  - tauto.
  - rewrite IH, Store_holds_append. intuition auto.
Qed.

(* ================================================================== *)
(** * Properties of the configuration *)
(* ================================================================== *)

Lemma get_entry_for_priority_unfold (self : Configuration) (path : Path)
    (priority : Z) :
  fst (get_entry_for_priority self path priority) =
    (result <- resolve (Store_lookup (entries_by_path self) path) priority ;;
     if negb (Node_bool (Entry.type result))
     then Raise (exn TypeError (No_viable_type_found_for path))
     else Ok result).
Proof.
  unfold get_entry_for_priority, Store_lookup.
  now destruct (Store_getitem (entries_by_path self) path).
Qed.



(** With a viable type the merged entry is returned. *)
Lemma get_entry_for_priority_viable
    (self : Configuration) (path : Path) (priority : Z) (result : Entry) :
  resolve (Store_lookup (entries_by_path self) path) priority = Ok result ->
  Entry.type result <> 0%N ->
  fst (get_entry_for_priority self path priority) = Ok result.
Proof.
  intros Hloop Htype. rewrite get_entry_for_priority_unfold, Hloop.
  cbn [bind]. unfold Node_bool.
  destruct (N.eqb_spec (Entry.type result) 0); [contradiction | reflexivity].
Qed.

Lemma filter_nil_iff {A} (f : A -> bool) (l : list A) :
  filter f l = [] <-> forall x, In x l -> f x = false.
Proof.
  induction l as [| y l IH]; cbn.
  - split; [intros _ x [] | reflexivity].
  - destruct (f y) eqn:E; split.
    + discriminate.
    + intros H. specialize (H y (or_introl eq_refl)). congruence.
    + intros H x [<- | Hx]; [assumption | now apply IH].
    + intros H. apply IH. intros x Hx. apply H. now right.
Qed.



(** C6.  [add_entry("a", [1,2,3,4], priority=2)] and then
    [add_entry("a[:2]", [9,9], priority=4)] on a new configuration:
    [to_dict()] returns [{"a": [9, 9, 3, 4]}]. *)
Theorem to_dict_slice_write :
  fst (to_dict cfg_slice_write [] 0)
  = Ok (VDict [(KStr "a", VList [vint 9; vint 9; vint 3; vint 4])]).
Proof. reflexivity. Qed.

(** ** Reads keep what is stored *)

Lemma same_entries_refl (c : Configuration) : same_entries c c.
Proof. now split. Qed.

Lemma same_entries_trans (c1 c2 c3 : Configuration) :
  same_entries c1 c2 -> same_entries c2 c3 -> same_entries c1 c3.
Proof.
  intros [Ha1 Hl1] [Ha2 Hl2]. split; [congruence |].
  intros q. now rewrite Hl1.
Qed.

Lemma get_entry_for_priority_same_entries self path priority :
  same_entries (snd (get_entry_for_priority self path priority)) self.
Proof.
  unfold get_entry_for_priority.
  pose proof (Store_lookup_getitem (entries_by_path self) path) as H.
  destruct (Store_getitem (entries_by_path self) path) as [stored d].
  cbn [snd] in *. split; [reflexivity | exact H].
Qed.

Lemma check_write_access_loop_lookup d prefixes priority q :
  Store_lookup (snd (check_write_access_loop d prefixes priority)) q
  = Store_lookup d q.
Proof.
  revert d. induction prefixes as [| p ps IH]; intros d; cbn; [reflexivity |].
  pose proof (Store_lookup_getitem d p q) as H.
  destruct (Store_getitem d p) as [stored d']. cbn [snd] in H.
  destruct (priority <? _); [exact H |]. now rewrite IH.
Qed.

Lemma check_write_access_same_entries self path priority :
  same_entries (snd (check_write_access self path priority)) self.
Proof.
  unfold check_write_access.
  pose proof (check_write_access_loop_lookup (entries_by_path self)
                (proper_prefixes path) priority) as H.
  destruct (check_write_access_loop _ _ _) as [access d].
  cbn [snd] in *. split; [reflexivity | exact H].
Qed.

Lemma to_dict_loop_same_entries paths : forall self priority d,
  same_entries (snd (to_dict_loop self priority paths d)) self.
Proof.
  induction paths as [| path paths IH]; intros self priority d; cbn.
  - apply same_entries_refl.
  - pose proof (get_entry_for_priority_same_entries self path priority) as H1.
    destruct (get_entry_for_priority self path priority) as [[entry | e] self1];
      cbn [snd] in H1; [| exact H1].
    pose proof (check_write_access_same_entries self1 path
                  (Entry.priority entry)) as H2.
    destruct (check_write_access self1 path (Entry.priority entry))
      as [access self2]. cbn [snd] in H2.
    assert (H12 : same_entries self2 self)
      by (eapply same_entries_trans; eassumption).
    destruct access.
    + destruct (PathMixin_setitem d path (Entry.value entry)); cbn [snd].
      * eapply same_entries_trans; [apply IH | exact H12].
      * exact H12.
    + eapply same_entries_trans; [apply IH | exact H12].
Qed.

(** No read changes the list a later read returns for any path, nor
    the ceiling; what a read can add is a key with an empty list. *)
Lemma reads_keep_entries (self : Configuration) (path : Path) (priority : Z) :
  same_entries (snd (get_entry_for_priority self path priority)) self
  /\ same_entries (snd (check_write_access self path priority)) self
  /\ same_entries (snd (to_dict self path priority)) self
  /\ same_entries (snd (get_value self path)) self.
Proof.
  repeat split;
    try apply get_entry_for_priority_same_entries;
    try apply check_write_access_same_entries;
    try apply to_dict_loop_same_entries.
  - unfold get_value.
    pose proof (to_dict_loop_same_entries
                  (sorted (fun p => Z.of_nat (Path_len p))
                     (filter (fun k => is_compatible_with path k)
                        (Store_keys (entries_by_path self))))
                  self 0 (VDict [])) as [H _].
    fold (to_dict self path 0) in H.
    now destruct (to_dict self path 0) as [[d | e] self'].
  - unfold get_value.
    pose proof (to_dict_loop_same_entries
                  (sorted (fun p => Z.of_nat (Path_len p))
                     (filter (fun k => is_compatible_with path k)
                        (Store_keys (entries_by_path self))))
                  self 0 (VDict [])) as [_ H].
    fold (to_dict self path 0) in H.
    now destruct (to_dict self path 0) as [[d | e] self'].
Qed.

(** C8.  A read is not free of effects on the store.  On a new
    configuration [get_entry_for_priority(Path("a"))] raises, and leaves
    the key [a] behind with an empty list; [check_write_access] does
    the same for the prefixes it visits.  After that [to_dict()], which
    returned [{}] before, raises the IndexError of the empty list. *)
Theorem reads_insert_keys :
  Store_keys (entries_by_path Configuration_init) = []
  /\ get_entry_for_priority Configuration_init [KStr "a"] 0
     = (Raise (exn IndexError pop_from_empty_list),
        mkConfiguration [([KStr "a"], [])] 7)
  /\ check_write_access Configuration_init [KStr "a"; KStr "b"] 0
     = (true, mkConfiguration [([KStr "a"], [])] 7)
  /\ fst (to_dict Configuration_init [] 0) = Ok (VDict [])
  /\ fst (to_dict
            (snd (get_entry_for_priority Configuration_init [KStr "a"] 0))
            [] 0)
     = Raise (exn IndexError pop_from_empty_list).
Proof. repeat split. Qed.

(** ** Adding entries *)

Lemma implicit_entries_priority (e x : Entry) :
  In x (Entry.get_implicit_entries e) -> Entry.priority x = Entry.priority e.
Proof.
  rewrite get_implicit_entries_map. intros H.
  apply in_app_or in H as [H | [<- | []]]; [| reflexivity].
  apply in_map_iff in H as (i & <- & _). unfold implicit_entry_for.
  now destruct (nth_error (Entry.path e) i).
Qed.



(** ** Write access *)

Lemma fold_max_lt (l : list Z) (a p : Z) :
  p < fold_left Z.max l a <-> p < a \/ exists x, In x l /\ p < x.
Proof.
  revert a. induction l as [| y l IH]; intros a; cbn.
  - split; [auto | intros [H | (x & [] & _)]; exact H].
  - rewrite IH. split.
    + intros [H | (x & Hx & Hlt)].
      * destruct (Z.max_spec a y) as [[_ E] | [_ E]]; rewrite E in H; eauto.
      * eauto.
    + intros [H | (x & [<- | Hx] & Hlt)]; [left; lia | left; lia | eauto].
Qed.

Lemma max_default_lt (l : list Z) (p : Z) :
  p < max_default l 0
  <-> (exists x, In x l /\ p < x) \/ (l = [] /\ p < 0).
Proof.
  destruct l as [| a l]; cbn [max_default].
  - split; [auto | intros [(x & [] & _) | [_ H]]; exact H].
  - rewrite fold_max_lt. split.
    + intros [H | (x & Hx & Hlt)]; left; [exists a | exists x]; cbn; auto.
    + intros [(x & [<- | Hx] & Hlt) | [H _]]; [auto | eauto | discriminate].
Qed.

Lemma check_write_access_loop_false prefixes : forall d priority,
  fst (check_write_access_loop d prefixes priority) = false
  <-> exists p,
        In p prefixes
        /\ priority
           < max_default (map Entry.explicit_priority (Store_lookup d p)) 0.
Proof.
  induction prefixes as [| p ps IH]; intros d priority; cbn.
  - split; [discriminate | intros (p & [] & _)].
  - destruct (Store_getitem d p) as [stored d'] eqn:E.
    assert (Hst : Store_lookup d p = stored)
      by (unfold Store_lookup; now rewrite E).
    assert (Hsame : forall q, Store_lookup d' q = Store_lookup d q)
      by (intros q; rewrite <- (Store_lookup_getitem d p q); now rewrite E).
    destruct (Z.ltb_spec priority
                (max_default (map Entry.explicit_priority stored) 0))
      as [Hlt | Hge]; cbn [fst].
    + split; [intros _ | reflexivity].
      exists p. rewrite Hst. split; [now left | exact Hlt].
    + rewrite IH. split.
      * intros (q & Hq & Hlt). rewrite Hsame in Hlt. eauto.
      * intros (q & [<- | Hq] & Hlt).
        -- rewrite Hst in Hlt. lia.
        -- exists q. rewrite Hsame. auto.
Qed.

Lemma In_proper_prefixes (path p : Path) :
  In p (proper_prefixes path)
  <-> exists i, (1 <= i < length path)%nat /\ p = firstn i path.
Proof.
  unfold proper_prefixes, Path_len, Path_upto. rewrite in_map_iff. split.
  - intros (i & <- & Hi). apply in_seq in Hi. exists i.
    rewrite slice_upto_of_nat. split; [lia | reflexivity].
  - intros (i & Hi & ->). exists i. rewrite slice_upto_of_nat.
    split; [reflexivity | apply in_seq; lia].
Qed.

Lemma explicit_priority_lt (stored : list Entry) (priority : Z) :
  priority < max_default (map Entry.explicit_priority stored) 0
  <-> (exists e, In e stored /\ priority < Entry.explicit_priority e)
      \/ (stored = [] /\ priority < 0).
Proof.
  rewrite max_default_lt. split.
  - intros [(x & Hx & Hlt) | [Hnil Hlt]].
    + apply in_map_iff in Hx as (e & <- & He). eauto.
    + right. split; [| exact Hlt]. now destruct stored.
  - intros [(e & He & Hlt) | [-> Hlt]].
    + left. exists (Entry.explicit_priority e). split; [| exact Hlt].
      now apply in_map.
    + now right.
Qed.

Lemma check_write_access_false (self : Configuration) (path : Path)
    (priority : Z) :
  fst (check_write_access self path priority) = false
  <-> exists i, denied_at self path priority i.
Proof.
  unfold check_write_access.
  pose proof (check_write_access_loop_false (proper_prefixes path)
                (entries_by_path self) priority) as H.
  destruct (check_write_access_loop _ _ _) as [access d]. cbn [fst] in *.
  rewrite H. unfold denied_at. split.
  - intros (p & Hp & Hlt). apply In_proper_prefixes in Hp as (i & Hi & ->).
    exists i. split; [exact Hi |]. cbv zeta. now apply explicit_priority_lt.
  - intros (i & Hi & Hlt). exists (firstn i path). split.
    + apply In_proper_prefixes. eauto.
    + now apply explicit_priority_lt.
Qed.

Lemma denied_at_same_entries (c1 c2 : Configuration) path priority i :
  same_entries c1 c2 ->
  denied_at c1 path priority i -> denied_at c2 path priority i.
Proof.
  intros [_ Hl] [Hi H]. split; [exact Hi |]. cbv zeta in *.
  now rewrite <- Hl.
Qed.




(* ================================================================== *)
(** * Rendering and parsing *)
(* ================================================================== *)

Local Open Scope string_scope.

(** ** Strings *)

Lemma append_assoc (a b c : string) : (a ++ b) ++ c = a ++ (b ++ c).
Proof. induction a as [| x a IH]; cbn; [reflexivity | now rewrite IH]. Qed.

Lemma append_empty_r (a : string) : a ++ "" = a.
Proof. induction a as [| x a IH]; cbn; [reflexivity | now rewrite IH]. Qed.

Lemma join_empty_cons (x : string) (l : list string) :
  join "" (x :: l) = x ++ join "" l.
Proof. destruct l; cbn; [now rewrite append_empty_r | reflexivity]. Qed.

Lemma span_append (p : ascii -> bool) (s rest : string) :
  forall_chars p s = true -> stops p rest -> span p (s ++ rest) = (s, rest).
Proof.
  unfold forall_chars. induction s as [| c s IH]; cbn; intros Hall Hstop.
  - destruct rest as [| c r]; [reflexivity |]. cbn in *. now rewrite Hstop.
  - apply andb_true_iff in Hall as [Hc Hs]. rewrite Hc, IH; auto.
Qed.

Lemma isidentifier_word (s : string) :
  isidentifier s = true -> forall_chars is_word s = true /\ s <> "".
Proof.
  destruct s as [| c s]; cbn; [discriminate |]. intros H.
  apply andb_true_iff in H as [Hc Hs]. split; [| discriminate].
  unfold forall_chars in *. cbn. rewrite Hs, andb_true_r.
  unfold is_word. apply orb_true_iff in Hc as [-> | ->];
    [reflexivity | apply orb_true_r].
Qed.

Lemma IDENTIFIER_append (s rest : string) :
  isidentifier s = true -> stops is_word rest ->
  IDENTIFIER (s ++ rest) = Some (s, rest).
Proof.
  intros Hid Hstop. apply isidentifier_word in Hid as [Hall Hne].
  unfold IDENTIFIER, one_or_more. rewrite span_append by assumption.
  destruct s; [contradiction | reflexivity].
Qed.

Lemma quoted_body_quotable (s rest : string) : forall even,
  quotable even s = true ->
  quoted_body single_quote even (s ++ String single_quote rest)
  = Some (s ++ String single_quote "", rest).
Proof.
  induction s as [| c s IH]; intros even H.
  - cbn in H. subst even. reflexivity.
  - cbn [quotable] in H. cbn [append quoted_body].
    destruct (is_char newline c); [discriminate |].
    destruct (is_char single_quote c) eqn:Eq.
    + apply andb_true_iff in H as [He Hq].
      destruct even; [discriminate |]. cbn [andb].
      assert (Hb : is_char backslash c = false).
      { apply Ascii.eqb_eq in Eq. subst c. reflexivity. }
      rewrite Hb, (IH true Hq). reflexivity.
    + cbn [andb]. now rewrite (IH _ H).
Qed.

Lemma substring_all (s : string) (c : ascii) :
  substring 0 (String.length (s ++ String c "") - 1) (s ++ String c "") = s.
Proof.
  induction s as [| x s IH]; [reflexivity |].
  cbn [append String.length].
  replace (S (String.length (s ++ String c "")) - 1)%nat
    with (S (String.length (s ++ String c "") - 1)).
  - cbn [substring]. now rewrite IH.
  - clear IH. induction s; cbn; lia.
Qed.

Lemma strip_quotes_quoted (s : string) (q q' : ascii) :
  strip_quotes (String q (s ++ String q' "")) = s.
Proof. apply substring_all. Qed.

(** ** What a parse can be, from the first character *)

(** A scanner applied to a text whose first character it rejects. *)
Ltac scan_fails :=
  match goal with
  | H : _ = Some _ |- _ => solve [cbv in H; discriminate H]
  end.

Ltac invert_parse H := inversion H; clear H; subst.

Lemma parses_integer_at_quote (x tok rest : string) :
  ~ parses_integer (String single_quote x) tok rest.
Proof. intros H. invert_parse H; scan_fails. Qed.

Lemma parses_slice_key_at_quote (x : string) args rest :
  ~ parses_slice_key (String single_quote x) args rest.
Proof.
  intros H. invert_parse H;
    match goal with
    | H1 : parses_optional_integer (String _ _) _ _ |- _ => invert_parse H1
    end;
    try scan_fails;
    match goal with
    | H2 : parses_integer _ _ _ |- _ =>
        exact (parses_integer_at_quote H2)
    end.
Qed.

Lemma parses_key_at_quote (x : string) (t : Tree) (rest : string) :
  parses_key (String single_quote x) t rest ->
  exists tok,
    t = t_string tok
    /\ QUOTED single_quote (String single_quote x) = Some (tok, rest).
Proof.
  intros H. invert_parse H; try scan_fails.
  - exfalso. eapply parses_integer_at_quote; eassumption.
  - exfalso. eapply parses_slice_key_at_quote; eassumption.
  - eauto.
Qed.

Lemma parses_segments_attribute (y : string) (children : list Child) :
  parses_segments (String "." y) children ->
  exists tok rest children',
    children = c_identifier tok :: children'
    /\ IDENTIFIER y = Some (tok, rest)
    /\ parses_segments rest children'.
Proof.
  intros H. invert_parse H; try scan_fails.
  match goal with
  | H1 : literal "." _ = Some _ |- _ => cbv in H1; injection H1 as <-
  end.
  eauto 10.
Qed.

Lemma parses_segments_item (y : string) (children : list Child) :
  parses_segments (String "[" y) children ->
  exists t s2 rest children',
    children = c_key t :: children'
    /\ parses_key y t s2
    /\ literal "]" s2 = Some rest
    /\ parses_segments rest children'.
Proof.
  intros H. invert_parse H; try scan_fails.
  match goal with
  | H1 : literal "[" _ = Some _ |- _ => cbv in H1; injection H1 as <-
  end.
  eauto 12.
Qed.

Lemma literal_bracket (r rest : string) :
  literal "]" (String "]" r) = Some rest -> rest = r.
Proof. intros H. cbv in H. congruence. Qed.

(** ** Paths of text keys are read back *)

Section RoundTrip.

Variable str_float : spec_float -> string.
Variable str_complex : spec_float -> spec_float -> string.
Variable float_of_str : string -> option spec_float.
Variable complex_of_str : string -> option (spec_float * spec_float).

Local Abbreviation render := (format_part str_float str_complex).
Local Abbreviation segments keys := (join "" (map render keys)).
Local Abbreviation transformed := (transform_path float_of_str complex_of_str).

Lemma render_text_key (k : Key) :
  text_key k = true ->
  exists s,
    k = KStr s
    /\ ((isidentifier s = true /\ render k = String "." s)
        \/ (isidentifier s = false /\ quotable true s = true
            /\ render k
               = String "["
                   (String single_quote
                      (s ++ String single_quote (String "]" ""))))).
Proof.
  destruct k as [s | | | | | | |]; try discriminate. cbn [text_key format_part].
  intros H. exists s. split; [reflexivity |].
  destruct (isidentifier s); [left | right]; auto.
Qed.

Lemma segments_stop (keys : list Key) :
  forallb text_key keys = true -> stops is_word (segments keys).
Proof.
  destruct keys as [| k keys]; [exact (fun _ => I) |].
  cbn [forallb map]. intros H. apply andb_true_iff in H as [Hk _].
  rewrite join_empty_cons.
  destruct (render_text_key k Hk) as (s & -> & [[_ ->] | (_ & _ & ->)]);
    reflexivity.
Qed.

Lemma segments_round_trip (keys : list Key) :
  forallb text_key keys = true ->
  parses_segments (segments keys) (map child_of_text keys)
  /\ forall children,
       parses_segments (segments keys) children ->
       transformed children = Some keys.
Proof.
  induction keys as [| k keys IH]; cbn [forallb map]; intros Hall.
  - split; [constructor |].
    intros children H. invert_parse H; [reflexivity | scan_fails | scan_fails].
  - apply andb_true_iff in Hall as [Hk Hkeys].
    specialize (IH Hkeys) as [IHparse IHonly].
    pose proof (segments_stop keys Hkeys) as Hstop.
    rewrite join_empty_cons.
    destruct (render_text_key k Hk)
      as (s & -> & [[Hid ->] | (Hid & Hq & ->)]);
      cbn [child_of_text]; rewrite Hid; cbn [append].
    + split.
      * eapply pg_attribute;
          [reflexivity | now apply IDENTIFIER_append | exact IHparse].
      * intros children H.
        apply parses_segments_attribute in H
          as (tok & rest & children' & -> & Htok & Hrest).
        rewrite IDENTIFIER_append in Htok by assumption.
        injection Htok as <- <-.
        cbn [transform_path transform_child].
        now rewrite (IHonly _ Hrest).
    + rewrite append_assoc. cbn [append].
      assert (Hscan :
        QUOTED single_quote
          (String single_quote
             (s ++ String single_quote (String "]" (segments keys))))
        = Some (String single_quote (s ++ String single_quote ""),
                String "]" (segments keys))).
      { unfold QUOTED. change (is_char single_quote single_quote) with true.
        cbv iota. now rewrite quoted_body_quotable. }
      split.
      * eapply pg_item;
          [reflexivity | apply pk_string_single; exact Hscan
           | reflexivity | exact IHparse].
      * intros children H.
        apply parses_segments_item in H
          as (t & s2 & rest & children' & -> & Hkey & Hclose & Hrest).
        apply parses_key_at_quote in Hkey as (tok & -> & Htok).
        rewrite Hscan in Htok. injection Htok as <- <-.
        apply literal_bracket in Hclose. subst rest.
        cbn [transform_path transform_child transform].
        rewrite strip_quotes_quoted. now rewrite (IHonly _ Hrest).
Qed.

(** A path of text keys is read back from its rendering: the rendering
    has a parse, and every parse of it transforms to the path. *)
Lemma text_path_round_trip (p : Path) :
  text_path p = true ->
  from_str_is float_of_str complex_of_str
              (Path_repr str_float str_complex p) p.
Proof.
  destruct p as [| k keys]; intros Hp.
  - split.
    + exists []. constructor.
    + intros children H. invert_parse H; [reflexivity | scan_fails].
  - destruct k as [s | | | | | | |]; try discriminate.
    cbn [text_path] in Hp. apply andb_true_iff in Hp as [Hid Hkeys].
    destruct (segments_round_trip keys Hkeys) as [Hparse Honly].
    pose proof (segments_stop keys Hkeys) as Hstop.
    unfold Path_repr. cbn [map]. rewrite join_empty_cons.
    cbn [format_part]. rewrite Hid. cbn [append].
    split.
    + exists (c_identifier s :: map child_of_text keys).
      eapply pp_identifier; [now apply IDENTIFIER_append | exact Hparse].
    + intros children H.
      assert (Htok : IDENTIFIER (s ++ segments keys)
                     = Some (s, segments keys))
        by now apply IDENTIFIER_append.
      invert_parse H.
      * destruct s; discriminate.
      * match goal with
        | H1 : IDENTIFIER _ = Some _ |- _ =>
            rewrite Htok in H1; injection H1 as <- <-
        end.
        cbn [transform_path transform_child].
        now rewrite (Honly _ H1).
Qed.

End RoundTrip.

(** ** Integers in decimal *)

Local Open Scope string_scope.

Ltac eval_digit :=
  match goal with
  | |- context [digit_value ?c] =>
      let v := eval vm_compute in (digit_value c) in
      change (digit_value c) with v
  end.

Lemma digits_value_acc (d : Decimal.uint) : forall acc : positive,
  fold_left (fun a c => (a * 10 + digit_value c)%Z)
    (list_ascii_of_string (DecimalString.NilEmpty.string_of_uint d))
    (Z.pos acc)
  = Z.pos (Pos.of_uint_acc d acc).
Proof.
  induction d; intros acc;
    cbn [DecimalString.NilEmpty.string_of_uint list_ascii_of_string
         fold_left Pos.of_uint_acc];
    [reflexivity | rewrite <- IHd; f_equal; eval_digit; lia ..].
Qed.

Lemma digits_value_of_uint (d : Decimal.uint) :
  digits_value 10 (DecimalString.NilEmpty.string_of_uint d)
  = Z.of_N (Pos.of_uint d).
Proof.
  unfold digits_value.
  induction d;
    cbn [DecimalString.NilEmpty.string_of_uint list_ascii_of_string
         fold_left Pos.of_uint];
    [reflexivity | eval_digit; try exact IHd; cbn [Z.mul Z.add];
     rewrite digits_value_acc; reflexivity ..].
Qed.

Lemma to_uint_head (p : positive) :
  Pos.to_uint p <> Decimal.Nil /\ forall d, Pos.to_uint p <> Decimal.D0 d.
Proof.
  split; [apply DecimalPos.Unsigned.to_uint_nonnil |].
  intros d H.
  pose proof (DecimalPos.Unsigned.to_of (Pos.to_uint p)) as Hn.
  rewrite DecimalPos.Unsigned.of_to in Hn. cbn [N.to_uint] in Hn.
  pose proof (DecimalPos.Unsigned.to_uint_nonzero p) as Hz.
  unfold Decimal.unorm in Hn.
  destruct (Decimal.nzhead (Pos.to_uint p)) eqn:E; try congruence.
  exact (DecimalFacts.nzhead_nonzero (Pos.to_uint p) u E).
Qed.

Lemma string_of_uint_digits (d : Decimal.uint) :
  forall_chars is_digit (DecimalString.NilEmpty.string_of_uint d) = true.
Proof.
  unfold forall_chars.
  induction d; cbn [DecimalString.NilEmpty.string_of_uint
                    list_ascii_of_string forallb];
    [reflexivity | rewrite IHd; reflexivity ..].
Qed.

(** The decimal digits of a positive number: a digit from 1 to 9, then
    digits. *)
Lemma str_int_pos (p : positive) :
  exists c ds,
    DecimalString.NilEmpty.string_of_uint (Pos.to_uint p) = String c ds
    /\ str_int (Z.pos p) = String c ds
    /\ str_int (Z.neg p) = String "-" (String c ds)
    /\ in_range "1" "9" c = true
    /\ forall_chars is_digit ds = true.
Proof.
  destruct (to_uint_head p) as [Hnil Hzero].
  unfold str_int. cbn [Z.to_int DecimalString.NilZero.string_of_int].
  unfold DecimalString.NilZero.string_of_uint.
  destruct (Pos.to_uint p) as [| d | d | d | d | d | d | d | d | d | d];
    [contradiction | exfalso; exact (Hzero d eq_refl) | ..];
    cbn [DecimalString.NilEmpty.string_of_uint];
    do 2 eexists; repeat split; apply string_of_uint_digits.
Qed.

Lemma in_range_1_9 (c : ascii) :
  in_range "1" "9" c = true ->
  is_char "0" c = false /\ is_char "-" c = false /\ is_digit c = true.
Proof.
  unfold in_range, is_char, is_digit, in_range. intros H.
  apply andb_true_iff in H as [H1 H2].
  apply Nat.leb_le in H1, H2. cbn in H1, H2.
  repeat split.
  - apply Ascii.eqb_neq. intros <-. cbn in H1. lia.
  - apply Ascii.eqb_neq. intros <-. cbn in H1. lia.
  - apply andb_true_iff. split; apply Nat.leb_le; cbn; lia.
Qed.

Lemma DEC_NUMBER_str_int (z : Z) (rest : string) :
  stops is_digit rest ->
  DEC_NUMBER (str_int z ++ rest) = Some (str_int z, rest).
Proof.
  intros Hstop. destruct z as [| p | p].
  - reflexivity.
  - destruct (str_int_pos p) as (c & ds & _ & -> & _ & Hc & Hds).
    destruct (in_range_1_9 c Hc) as (H0 & Hm & _).
    cbn [append]. unfold DEC_NUMBER, optional_char.
    rewrite H0, Hm, Hc, span_append by assumption. reflexivity.
  - destruct (str_int_pos p) as (c & ds & _ & _ & -> & Hc & Hds).
    cbn [append]. unfold DEC_NUMBER, optional_char.
    change (is_char "0" "-") with false.
    change (is_char "-" "-") with true. cbv iota.
    rewrite Hc, span_append by assumption. reflexivity.
Qed.

Lemma literal_eval_str_int (z : Z) : literal_eval (str_int z) = Some z.
Proof.
  assert (Hbody : forall p c ds,
            DecimalString.NilEmpty.string_of_uint (Pos.to_uint p) = String c ds ->
            in_range "1" "9" c = true ->
            match String c ds with
            | String z0 (String c0 digits) =>
                let based (base : Z) : option Z :=
                  match digits with
                  | EmptyString => None
                  | _ => Some (digits_value base digits)
                  end in
                if is_char "0" z0 && (is_char "x" c0 || is_char "X" c0)
                then based 16%Z
                else if is_char "0" z0 && (is_char "o" c0 || is_char "O" c0)
                then based 8%Z
                else if is_char "0" z0 && (is_char "b" c0 || is_char "B" c0)
                then based 2%Z
                else Some (digits_value 10 (String c ds))
            | _ => Some (digits_value 10 (String c ds))
            end = Some (Z.pos p)).
  { intros p c ds E Hc. destruct (in_range_1_9 c Hc) as (H0 & _ & _).
    assert (Hval : digits_value 10 (String c ds) = Z.pos p).
    { rewrite <- E, digits_value_of_uint, DecimalPos.Unsigned.of_to.
      reflexivity. }
    destruct ds; [now rewrite Hval |].
    rewrite H0. cbn [andb]. now rewrite Hval. }
  destruct z as [| p | p].
  - reflexivity.
  - destruct (str_int_pos p) as (c & ds & E & -> & _ & Hc & Hds).
    destruct (in_range_1_9 c Hc) as (_ & Hm & _).
    unfold literal_eval, optional_char. rewrite Hm.
    exact (Hbody p c ds E Hc).
  - destruct (str_int_pos p) as (c & ds & E & _ & -> & Hc & Hds).
    unfold literal_eval, optional_char.
    change (is_char "-" "-") with true. cbv iota.
    pose proof (Hbody p c ds E Hc) as H.
    destruct ds as [| c0 digits].
    + injection H as H. now rewrite H.
    + destruct (in_range_1_9 c Hc) as (H0 & _ & _).
      rewrite H0 in *. cbn [andb] in *.
      injection H as H. now rewrite H.
Qed.

(** ** Text without spaces *)

Lemma remove_spaces_append (a b : string) :
  remove_spaces (a ++ b) = remove_spaces a ++ remove_spaces b.
Proof.
  induction a as [| c a IH]; cbn [append remove_spaces]; [reflexivity |].
  destruct (is_char " " c); [exact IH | cbn [append]; now rewrite IH].
Qed.

Lemma remove_spaces_digits (s : string) :
  forall_chars is_digit s = true -> remove_spaces s = s.
Proof.
  unfold forall_chars.
  induction s as [| c s IH]; cbn [list_ascii_of_string forallb remove_spaces];
    [reflexivity |].
  intros H. apply andb_true_iff in H as [Hc Hs].
  assert (Hsp : is_char " " c = false).
  { apply Ascii.eqb_neq. intros <-. discriminate Hc. }
  rewrite Hsp, IH by assumption. reflexivity.
Qed.

Lemma remove_spaces_str_int (z : Z) : remove_spaces (str_int z) = str_int z.
Proof.
  assert (Hdigits : forall c ds,
            in_range "1" "9" c = true -> forall_chars is_digit ds = true ->
            remove_spaces (String c ds) = String c ds).
  { intros c ds Hc Hds. destruct (in_range_1_9 c Hc) as (_ & _ & Hd).
    apply remove_spaces_digits. unfold forall_chars in *.
    cbn [list_ascii_of_string forallb]. now rewrite Hd, Hds. }
  destruct z as [| p | p]; [reflexivity | |];
    destruct (str_int_pos p) as (c & ds & _ & Hpos & Hneg & Hc & Hds).
  - rewrite Hpos. now apply Hdigits.
  - rewrite Hneg.
    change (remove_spaces (String "-" (String c ds)))
      with (String "-" (remove_spaces (String c ds))).
    f_equal. now apply Hdigits.
Qed.

Lemma remove_spaces_join (l : list string) :
  remove_spaces (join ", " l) = join "," (map remove_spaces l).
Proof.
  induction l as [| x l IH]; [reflexivity |].
  destruct l as [| y l]; [reflexivity |].
  change (join ", " (x :: y :: l)) with (x ++ ", " ++ join ", " (y :: l)).
  change (join "," (map remove_spaces (x :: y :: l)))
    with (remove_spaces x ++ "," ++ join "," (map remove_spaces (y :: l))).
  rewrite !remove_spaces_append, IH. reflexivity.
Qed.

(** A joined list followed by more text, item by item. *)
Lemma join_comma_append (x : string) (l : list string) (tail : string) :
  join "," (x :: l) ++ tail
  = x ++ fold_right (fun y acc => String "," (y ++ acc)) tail l.
Proof.
  revert x. induction l as [| y l IH]; intros x; [reflexivity |].
  change (join "," (x :: y :: l)) with (x ++ "," ++ join "," (y :: l)).
  rewrite !append_assoc. cbn [append fold_right]. now rewrite IH.
Qed.

(** ** Plain keys and slices have a parse *)

Section Literals.

Variable str_float : spec_float -> string.
Variable str_complex : spec_float -> spec_float -> string.
Variable float_of_str : string -> option spec_float.
Variable complex_of_str : string -> option (spec_float * spec_float).

Local Abbreviation render := (format_part str_float str_complex).
Local Abbreviation segments keys := (join "" (map render keys)).
Local Abbreviation compact k :=
  (remove_spaces (repr_key str_float str_complex k)).
Local Abbreviation transformed_key := (transform float_of_str complex_of_str).
Local Abbreviation transformed :=
  (transform_path float_of_str complex_of_str).

(** The text of [k] without spaces, in front of any text that does not
    go on with a digit, is read as a key that transforms to [k]. *)
Local Abbreviation reads_back k :=
  (forall rest,
     stops is_digit rest ->
     exists t,
       parses_key (compact k ++ rest) t rest /\ transformed_key t = Some k).

Lemma transform_tuple (ts : list Tree) (l : list Key) :
  Forall2 (fun t k => transformed_key t = Some k) ts l ->
  transformed_key (t_tuple_key ts) = Some (KTuple l).
Proof.
  intros H. cbn [transform].
  match goal with
  | |- option_map KTuple (?all ts) = _ =>
      assert (Hall : all ts = Some l); [| now rewrite Hall]
  end.
  induction H as [| t k ts l Ht _ IH]; [reflexivity |].
  now rewrite Ht, IH.
Qed.

Lemma more_keys_read_back (l : list Key) :
  Forall (fun k => reads_back k) l ->
  forall rest,
    exists ts,
      parses_more_keys
        (fold_right (fun y acc => String "," (y ++ acc)) (String ")" rest)
                    (map (fun k => compact k) l))
        ts (String ")" rest)
      /\ Forall2 (fun t k => transformed_key t = Some k) ts l.
Proof.
  induction 1 as [| k l Hk _ IH]; intros rest; cbn [map fold_right].
  - exists []. split; constructor.
  - destruct (IH rest) as (ts & Hts & Hall).
    destruct (Hk (fold_right (fun y acc => String "," (y ++ acc))
                    (String ")" rest) (map (fun k => compact k) l)))
      as (t & Ht & Htk).
    { destruct l; reflexivity. }
    exists (t :: ts). split; [| now constructor].
    eapply pm_more; [reflexivity | exact Ht | exact Hts].
Qed.

Lemma tuple_reads_back (l : list Key) :
  Forall (fun k => reads_back k) l -> reads_back (KTuple l).
Proof.
  intros Hl rest _.
  destruct l as [| x [| y l]].
  - exists (t_tuple_key []). split; [| reflexivity].
    apply pk_tuple_empty. reflexivity.
  - inversion Hl as [| ? ? Hx _]; subst.
    destruct (Hx (String "," (String ")" rest))) as (t & Ht & Htk);
      [reflexivity |].
    exists (t_tuple_key [t]). split.
    + cbn [repr_key]. rewrite !remove_spaces_append.
      change (remove_spaces "(") with "(".
      change (remove_spaces ",)") with ",)".
      rewrite !append_assoc. cbn [append].
      eapply pk_tuple_one; [reflexivity | exact Ht | reflexivity].
    + apply transform_tuple. repeat constructor. exact Htk.
  - inversion Hl as [| ? ? Hx Hrest]; subst.
    destruct (more_keys_read_back Hrest rest) as (ts & Hts & Hall).
    destruct (Hx (fold_right (fun y acc => String "," (y ++ acc))
                    (String ")" rest) (map (fun k => compact k) (y :: l))))
      as (t & Ht & Htk); [reflexivity |].
    inversion Hall as [| t' k' ts' l' Ht' Hts']; subst.
    exists (t_tuple_key (t :: t' :: ts')). split.
    + cbn [repr_key]. rewrite !remove_spaces_append, remove_spaces_join.
      change (remove_spaces "(") with "(".
      change (remove_spaces ")") with ")".
      rewrite map_map, !append_assoc. cbn [append].
      change (map (fun k => compact k) (x :: y :: l))
        with (compact x :: map (fun k => compact k) (y :: l)).
      rewrite join_comma_append.
      eapply pk_tuple_many;
        [reflexivity | exact Ht | exact Hts | left; reflexivity | reflexivity].
    + apply transform_tuple. now constructor.
Qed.

Lemma plain_key_reads_back : forall k, plain_key k = true -> reads_back k.
Proof.
  fix IH 1. intros k Hk.
  destruct k as [s | z | b | | f | re im | l | start stop step];
    try discriminate Hk.
  - intros rest Hstop. exists (t_integer (str_int z)). split.
    + cbn [repr_key]. rewrite remove_spaces_str_int.
      apply pk_integer, pi_dec, DEC_NUMBER_str_int. exact Hstop.
    + cbn [transform]. now rewrite literal_eval_str_int.
  - intros rest _. destruct b.
    + exists (t_boolean "True"). split; [| reflexivity].
      apply pk_true. reflexivity.
    + exists (t_boolean "False"). split; [| reflexivity].
      apply pk_false. reflexivity.
  - intros rest _. exists t_none. split; [| reflexivity].
    apply pk_none. reflexivity.
  - apply tuple_reads_back. cbn [plain_key] in Hk.
    induction l as [| x l IHl]; constructor.
    + apply IH. now apply andb_true_iff in Hk as [Hx _].
    + apply IHl. now apply andb_true_iff in Hk as [_ Hl].
Qed.

Lemma optional_integer_parses (o : option Z) (tail : string) :
  stops is_digit tail ->
  parses_optional_integer
    (match o with None => "" | Some z => str_int z end ++ tail)
    (match o with None => [] | Some z => [a_integer (str_int z)] end)
    tail.
Proof.
  intros Hstop. destruct o as [z |]; [| apply po_absent].
  apply po_present, pi_dec, DEC_NUMBER_str_int. exact Hstop.
Qed.

Lemma slice_args_bounds (start stop step : option Z) :
  let args (o : option Z) :=
    match o with None => [] | Some z => [a_integer (str_int z)] end in
  slice_args
    (args start ++ a_colon :: args stop
     ++ match step with
        | None => []
        | Some z => [a_colon; a_integer (str_int z)]
        end)%list
    0 (None, None, None)
  = Some (start, stop, step).
Proof.
  destruct start, stop, step; cbn [app slice_args];
    rewrite ?literal_eval_str_int; cbn [slice_args];
    rewrite ?literal_eval_str_int; cbn [slice_args];
    rewrite ?literal_eval_str_int; reflexivity.
Qed.

Lemma slice_reads_back (start stop step : option Z) (tail : string) :
  exists t,
    parses_key
      (match start with None => "" | Some z => str_int z end
       ++ String ":"
            (match stop with None => "" | Some z => str_int z end
             ++ match step with
                | None => String "]" tail
                | Some z => String ":" (str_int z ++ String "]" tail)
                end))
      t (String "]" tail)
    /\ transformed_key t = Some (KSlice start stop step).
Proof.
  pose proof (slice_args_bounds start stop step) as Hargs. cbv zeta in Hargs.
  destruct step as [z |].
  - exists (t_slice_key
              (match start with None => [] | Some z => [a_integer (str_int z)] end
               ++ a_colon
               :: match stop with None => [] | Some z => [a_integer (str_int z)] end
               ++ a_colon :: [a_integer (str_int z)])%list).
    split.
    + apply pk_slice_key.
      eapply ps_three;
        [apply optional_integer_parses; reflexivity | reflexivity
         | apply optional_integer_parses; reflexivity | reflexivity
         | apply (optional_integer_parses (Some z)); reflexivity].
    + cbn [transform]. now rewrite Hargs.
  - exists (t_slice_key
              (match start with None => [] | Some z => [a_integer (str_int z)] end
               ++ a_colon
               :: match stop with None => [] | Some z => [a_integer (str_int z)] end)%list).
    split.
    + apply pk_slice_key.
      eapply ps_two;
        [apply optional_integer_parses; reflexivity | reflexivity
         | apply optional_integer_parses; reflexivity].
    + cbn [transform]. rewrite app_nil_r in Hargs. now rewrite Hargs.
Qed.

Lemma QUOTED_quotable (s tail : string) :
  quotable true s = true ->
  QUOTED single_quote (String single_quote (s ++ String single_quote tail))
  = Some (String single_quote (s ++ String single_quote ""), tail).
Proof.
  intros Hq. unfold QUOTED. change (is_char single_quote single_quote) with true.
  cbv iota. now rewrite quoted_body_quotable.
Qed.

(** The rendering of a literal key starts a segment. *)
Lemma render_literal_key_stops (k : Key) :
  literal_key k = true -> forall tail, stops is_word (render k ++ tail).
Proof.
  intros Hk tail.
  destruct k as [s | z | b | | f | re im | l | start stop step];
    try discriminate Hk; try reflexivity.
  cbn [format_part]. destruct (isidentifier s); reflexivity.
Qed.

Lemma literal_key_segment (k : Key) (tail : string)
    (children : list Child) (keys : list Key) :
  literal_key k = true ->
  stops is_word tail ->
  parses_segments tail children ->
  transformed children = Some keys ->
  exists c,
    parses_segments (render k ++ tail) (c :: children)
    /\ transformed (c :: children) = Some (k :: keys).
Proof.
  intros Hk Hstop Hparse Hkeys.
  assert (Hplain :
    forall k', plain_key k' = true ->
      render k' = String "[" (compact k' ++ "]") ->
      exists c,
        parses_segments (render k' ++ tail) (c :: children)
        /\ transformed (c :: children) = Some (k' :: keys)).
  { intros k' Hk' Hrender.
    destruct (@plain_key_reads_back k' Hk' (String "]" tail)) as (t & Ht & Htk);
      [reflexivity |].
    exists (c_key t). split.
    - rewrite Hrender. cbn [append]. rewrite append_assoc. cbn [append].
      eapply pg_item; [reflexivity | exact Ht | reflexivity | exact Hparse].
    - cbn [transform_path transform_child]. now rewrite Htk, Hkeys. }
  destruct k as [s | z | b | | f | re im | l | start stop step];
    try discriminate Hk; try (apply Hplain; [exact Hk | reflexivity]).
  - (* a string *)
    unfold literal_key in Hk. cbn [plain_key isinstance_slice] in Hk.
    rewrite !orb_false_r in Hk.
    destruct (@render_text_key str_float str_complex (KStr s) Hk)
      as (s' & Hs & [[Hid ->] | (Hid & Hq & ->)]);
      injection Hs as <-.
    + exists (c_identifier s). split.
      * cbn [append].
        eapply pg_attribute;
          [reflexivity | now apply IDENTIFIER_append | exact Hparse].
      * cbn [transform_path transform_child]. now rewrite Hkeys.
    + exists (c_key (t_string (String single_quote (s ++ String single_quote "")))).
      split.
      * cbn [append]. rewrite append_assoc. cbn [append].
        eapply pg_item;
          [reflexivity
           | apply pk_string_single, QUOTED_quotable; exact Hq
           | reflexivity | exact Hparse].
      * cbn [transform_path transform_child transform].
        now rewrite strip_quotes_quoted, Hkeys.
  - (* a tuple *)
    apply Hplain; [| reflexivity].
    unfold literal_key in Hk. cbn [text_key isinstance_slice orb] in Hk.
    now rewrite orb_false_r in Hk.
  - (* a slice *)
    destruct (slice_reads_back start stop step tail) as (t & Ht & Htk).
    exists (c_key t). split.
    + cbn [format_part append].
      destruct step as [z |];
        repeat (rewrite !append_assoc; cbn [append]);
        (eapply pg_item; [reflexivity | exact Ht | reflexivity | exact Hparse]).
    + cbn [transform_path transform_child]. now rewrite Htk, Hkeys.
Qed.

Lemma literal_segments_parse (keys : list Key) :
  forallb literal_key keys = true ->
  stops is_word (segments keys)
  /\ exists children,
       parses_segments (segments keys) children
       /\ transformed children = Some keys.
Proof.
  induction keys as [| k keys IH]; cbn [forallb map]; intros Hall.
  - split; [exact I |]. exists []. split; [constructor | reflexivity].
  - apply andb_true_iff in Hall as [Hk Hkeys].
    destruct (IH Hkeys) as (Hstop & children & Hparse & Htr).
    rewrite join_empty_cons. split.
    + now apply render_literal_key_stops.
    + destruct (literal_key_segment k Hk Hstop Hparse Htr)
        as (c & Hc & Hck).
      eauto.
Qed.

(** A path of literal keys has a parse that transforms to it. *)
Lemma literal_path_has_parse (p : Path) :
  literal_path p = true ->
  from_str_may_be float_of_str complex_of_str
                  (Path_repr str_float str_complex p) p.
Proof.
  destruct p as [| k keys]; intros Hp.
  - exists []. split; [constructor | reflexivity].
  - destruct k as [s | | | | | | |]; try discriminate.
    cbn [literal_path] in Hp. apply andb_true_iff in Hp as [Hid Hkeys].
    destruct (literal_segments_parse keys Hkeys)
      as (Hstop & children & Hparse & Htr).
    unfold Path_repr. cbn [map]. rewrite join_empty_cons.
    cbn [format_part]. rewrite Hid. cbn [append].
    exists (c_identifier s :: children). split.
    + eapply pp_identifier; [now apply IDENTIFIER_append | exact Hparse].
    + cbn [transform_path transform_child]. now rewrite Htr.
Qed.


End Literals.


(** ** Renderings that are not read back *)

(** All the parses of a given text: the parse hypotheses on a text that
    is known are inverted one after the other, and each terminal is
    evaluated. *)
Ltac all_parses :=
  repeat
    match goal with
    | H : _ = Some _ |- _ =>
        vm_compute in H;
        first [ discriminate H
              | injection H as <- <-
              | injection H as <- ]
    | H : _ \/ _ |- _ => destruct H
    | H : ?x = String _ _ |- _ => subst x
    | H : parses_path (String _ _) _ |- _ => invert_parse H
    | H : parses_segments (String _ _) _ |- _ => invert_parse H
    | H : parses_segments EmptyString _ |- _ => invert_parse H
    | H : parses_key (String _ _) _ _ |- _ => invert_parse H
    | H : parses_more_keys (String _ _) _ _ |- _ => invert_parse H
    | H : parses_integer (String _ _) _ _ |- _ => invert_parse H
    | H : parses_slice_key (String _ _) _ _ |- _ => invert_parse H
    | H : parses_optional_integer (String _ _) _ _ |- _ => invert_parse H
    end.


(* ================================================================== *)
(** * Further properties of keys and paths *)
(* ================================================================== *)

Local Open Scope list_scope.
Local Open Scope Z_scope.

(** Induction on a key, with the items of a tuple as smaller keys. *)
Lemma Key_nested_ind (P : Key -> Prop) :
  (forall s, P (KStr s)) ->
  (forall z, P (KInt z)) ->
  (forall b, P (KBool b)) ->
  P KNone ->
  (forall f, P (KFloat f)) ->
  (forall re im, P (KComplex re im)) ->
  (forall l, Forall P l -> P (KTuple l)) ->
  (forall start stop step, P (KSlice start stop step)) ->
  forall k, P k.
Proof.
  intros Hs Hz Hb Hn Hf Hc Ht Hsl.
  fix IH 1. intros k.
  destruct k as [s | z | b | | f | re im | l | start stop step];
    [apply Hs | apply Hz | apply Hb | exact Hn | apply Hf | apply Hc
    | | apply Hsl].
  apply Ht. induction l as [| x l IHl]; constructor; [apply IH | exact IHl].
Qed.

Lemma SFeqb_refl (f : spec_float) : is_nan f = false -> SFeqb f f = true.
Proof.
  destruct f as [s | s | | s m e]; try discriminate; intros _;
    unfold SFeqb; cbn; try (destruct s; reflexivity).
  destruct s; rewrite Z.compare_refl, Pos.compare_cont_refl; reflexivity.
Qed.

Lemma compare_cont_Eq_sym (m1 m2 : positive) :
  Pos.compare_cont Eq m1 m2 = CompOpp (Pos.compare_cont Eq m2 m1).
Proof. now rewrite (Pos.compare_cont_antisym m2 m1 Eq). Qed.

Lemma SFeqb_sym (f g : spec_float) : SFeqb f g = SFeqb g f.
Proof.
  unfold SFeqb.
  destruct f as [s | s | | s m e], g as [s' | s' | | s' m' e']; cbn;
    try reflexivity;
    try (destruct s, s'; reflexivity);
    try (destruct s; reflexivity);
    try (destruct s'; reflexivity).
  destruct s, s'; try reflexivity;
    rewrite (Z.compare_antisym e e'), (compare_cont_Eq_sym m m');
    destruct (e ?= e')%Z; try reflexivity;
    destruct (Pos.compare_cont Eq m' m); reflexivity.
Qed.

Lemma option_Z_eqb_sym (a b : option Z) : option_Z_eqb a b = option_Z_eqb b a.
Proof. destruct a, b; cbn; try reflexivity. apply Z.eqb_sym. Qed.

Lemma option_Z_eqb_refl (a : option Z) : option_Z_eqb a a = true.
Proof. destruct a; cbn; [apply Z.eqb_refl | reflexivity]. Qed.

Lemma Real_eqb_sym (a b : Real) : Real_eqb a b = Real_eqb b a.
Proof.
  destruct a, b; cbn; try reflexivity; [apply Z.eqb_sym | apply SFeqb_sym].
Qed.

(** [a == b] and [b == a] agree on keys. *)
Lemma Key_eqb_sym : forall a b, Key_eqb a b = Key_eqb b a.
Proof.
  induction a as [s | z | b0 | | f | re im | l IH | a1 a2 a3]
    using Key_nested_ind; intros b;
    destruct b as [t | z' | b' | | f' | re' im' | m | b1 b2 b3];
    cbn [Key_eqb number_of_key]; try reflexivity;
    try (f_equal; solve [apply Real_eqb_sym | apply SFeqb_sym]).
  - apply String.eqb_sym.
  - revert m. induction IH as [| x l Hx _ IHl]; intros [| y m];
      try reflexivity.
    now rewrite Hx, IHl.
  - now rewrite (option_Z_eqb_sym a1), (option_Z_eqb_sym a2),
      (option_Z_eqb_sym a3).
Qed.

(** A key without NaN equals itself. *)
Lemma Key_eqb_refl : forall k, nan_free k = true -> Key_eqb k k = true.
Proof.
  induction k as [s | z | b | | f | re im | l IH | a1 a2 a3]
    using Key_nested_ind; cbn [nan_free Key_eqb number_of_key Real_eqb];
    intros H.
  - apply String.eqb_refl.
  - now rewrite Z.eqb_refl.
  - now rewrite Z.eqb_refl.
  - reflexivity.
  - apply negb_true_iff in H. now rewrite SFeqb_refl.
  - apply andb_true_iff in H as [H1 H2].
    apply negb_true_iff in H1, H2. now rewrite !SFeqb_refl.
  - induction IH as [| x l Hx _ IHl]; [reflexivity |].
    apply andb_true_iff in H as [H1 H2]. now rewrite Hx, IHl.
  - now rewrite !option_Z_eqb_refl.
Qed.

Lemma parts_eqb_sym (l m : list Key) : parts_eqb l m = parts_eqb m l.
Proof.
  revert m. induction l as [| x l IH]; intros [| y m]; cbn; try reflexivity.
  now rewrite Key_eqb_sym, IH.
Qed.

Lemma parts_eqb_refl (l : list Key) :
  nan_free_path l = true -> parts_eqb l l = true.
Proof.
  unfold nan_free_path. induction l as [| x l IH]; cbn; [reflexivity |].
  intros H. apply andb_true_iff in H as [Hx Hl].
  now rewrite Key_eqb_refl, IH.
Qed.

Lemma parts_eqb_length (l m : list Key) :
  parts_eqb l m = true -> length l = length m.
Proof.
  revert m. induction l as [| x l IH]; intros [| y m]; cbn;
    try discriminate; [reflexivity |].
  intros H. apply andb_true_iff in H as [_ H]. f_equal. now apply IH.
Qed.

Lemma parts_eqb_app (a b c d : list Key) :
  length a = length c ->
  parts_eqb (a ++ b) (c ++ d) = parts_eqb a c && parts_eqb b d.
Proof.
  revert c. induction a as [| x a IH]; intros [| y c] H; cbn in *;
    try discriminate; [reflexivity |].
  rewrite IH by lia. now rewrite andb_assoc.
Qed.

Lemma is_prefix_of_firstn (a b : Path) :
  is_prefix_of a b = parts_eqb a (firstn (length a) b).
Proof. unfold is_prefix_of, Path_len. now rewrite slice_upto_of_nat. Qed.

Lemma is_compatible_with_firstn (a b : Path) :
  is_compatible_with a b =
  parts_eqb (firstn (Nat.min (length a) (length b)) a)
            (firstn (Nat.min (length a) (length b)) b).
Proof.
  unfold is_compatible_with, Path_len. cbv zeta.
  now rewrite !slice_upto_of_nat.
Qed.

(** X1.  [a.is_compatible_with(b)] and [b.is_compatible_with(a)] agree:
    the common length is a minimum, and equality of keys is symmetric. *)
Theorem is_compatible_with_sym (a b : Path) :
  is_compatible_with a b = is_compatible_with b a.
Proof.
  rewrite !is_compatible_with_firstn.
  rewrite (Nat.min_comm (length b) (length a)).
  apply parts_eqb_sym.
Qed.

(** X2.  A path is a prefix of another exactly when it is not longer
    and the two are compatible. *)
Theorem is_prefix_of_compatible (a b : Path) :
  is_prefix_of a b =
  (length a <=? length b)%nat && is_compatible_with a b.
Proof.
  rewrite is_prefix_of_firstn, is_compatible_with_firstn.
  destruct (Nat.leb_spec (length a) (length b)) as [H | H].
  - rewrite Nat.min_l by assumption. now rewrite firstn_all.
  - cbn [andb]. rewrite firstn_all2 by lia.
    destruct (parts_eqb a b) eqn:E; [| reflexivity].
    apply parts_eqb_length in E. lia.
Qed.

(** X3.  Two paths are prefixes of each other exactly when they are
    equal, and likewise for suffixes. *)
Theorem prefix_suffix_antisym (a b : Path) :
  is_prefix_of a b && is_prefix_of b a = Path_eqb a b /\
  is_suffix_of a b && is_suffix_of b a = Path_eqb a b.
Proof.
  unfold Path_eqb. split.
  - rewrite !is_prefix_of_firstn.
    destruct (parts_eqb a b) eqn:E.
    + pose proof (parts_eqb_length _ _ E) as L.
      rewrite L, firstn_all, E. rewrite <- L, firstn_all.
      now rewrite parts_eqb_sym, E.
    + destruct (parts_eqb a (firstn (length a) b)) eqn:E1; [| reflexivity].
      destruct (parts_eqb b (firstn (length b) a)) eqn:E2; [| reflexivity].
      apply parts_eqb_length in E1 as L1. apply parts_eqb_length in E2 as L2.
      rewrite length_firstn in L1, L2.
      assert (L : length a = length b) by lia.
      rewrite L, firstn_all in E1. congruence.
  - unfold is_suffix_of, slice_from, clamp_index, Path_len. cbv zeta.
    destruct (parts_eqb a b) eqn:E.
    + pose proof (parts_eqb_length _ _ E) as L. rewrite L.
      destruct (Z.ltb_spec (- Z.of_nat (length b)) 0) as [H | H].
      * replace (Z.to_nat _) with 0%nat by lia. cbn [skipn].
        now rewrite E, parts_eqb_sym, E.
      * destruct b; [| cbn in H; lia].
        destruct a; [reflexivity | discriminate].
    + destruct (parts_eqb a (skipn _ b)) eqn:E1; [| reflexivity].
      destruct (parts_eqb b (skipn _ a)) eqn:E2; [| reflexivity].
      apply parts_eqb_length in E1 as L1. apply parts_eqb_length in E2 as L2.
      rewrite length_skipn in L1, L2.
      assert (L : length a = length b).
      { destruct (Z.ltb_spec (- Z.of_nat (length a)) 0),
                 (Z.ltb_spec (- Z.of_nat (length b)) 0); lia. }
      exfalso. rewrite L in E1.
      destruct (Z.ltb_spec (- Z.of_nat (length b)) 0) as [H | H].
      * replace (Z.to_nat _) with 0%nat in E1 by lia. cbn [skipn] in E1.
        congruence.
      * destruct b; [| cbn in H; lia]. destruct a; discriminate.
Qed.

(** X4.  A path without NaN is a prefix of every concatenation that
    starts with it and is compatible with it; when it is not empty it is
    a suffix of every concatenation that ends with it. *)
Theorem add_prefix_suffix (a b : Path) :
  nan_free_path a = true ->
  is_prefix_of a (Path_add a b) = true /\
  is_compatible_with a (Path_add a b) = true /\
  (a <> [] -> is_suffix_of a (Path_add b a) = true).
Proof.
  intros Ha. pose proof (parts_eqb_refl a Ha) as R.
  assert (P : is_prefix_of a (Path_add a b) = true).
  { rewrite is_prefix_of_firstn. unfold Path_add.
    rewrite firstn_app, firstn_all, Nat.sub_diag. cbn [firstn].
    now rewrite app_nil_r. }
  split; [exact P |]. split.
  - rewrite is_compatible_with_firstn. unfold Path_add.
    rewrite length_app, Nat.min_l by lia.
    rewrite firstn_app, firstn_all, Nat.sub_diag. cbn [firstn].
    now rewrite app_nil_r.
  - intros Hne. unfold is_suffix_of, slice_from, clamp_index, Path_add, Path_len.
    cbv zeta. rewrite length_app.
    destruct a as [| x a]; [congruence |].
    destruct (Z.ltb_spec (- Z.of_nat (length (x :: a))) 0) as [H | H];
      [| cbn in H; lia].
    replace (Z.to_nat _) with (length b) by (cbn [length] in *; lia).
    rewrite skipn_app, skipn_all, Nat.sub_diag. cbn [skipn app]. exact R.
Qed.

Lemma add_prefix_suffix_witness :
  nan_free_path [KStr "a"; KInt 0] = true /\
  is_prefix_of [KStr "a"; KInt 0] (Path_add [KStr "a"; KInt 0] [KStr "b"])
    = true /\
  is_compatible_with [KStr "a"; KInt 0]
    (Path_add [KStr "a"; KInt 0] [KStr "b"]) = true /\
  ([KStr "a"; KInt 0] <> [] ->
   is_suffix_of [KStr "a"; KInt 0] (Path_add [KStr "b"] [KStr "a"; KInt 0])
     = true).
Proof.
  split; [reflexivity |].
  apply (add_prefix_suffix [KStr "a"; KInt 0] [KStr "b"]). reflexivity.
Defined.

Lemma nan_free_path_skipn (i : nat) (p : Path) :
  nan_free_path p = true -> nan_free_path (skipn i p) = true.
Proof.
  unfold nan_free_path. revert i.
  induction p as [| k p IH]; intros [| i] H; cbn in *; try reflexivity;
    try exact H.
  apply andb_true_iff in H as [_ H]. now apply IH.
Qed.

Lemma nan_free_path_firstn (i : nat) (p : Path) :
  nan_free_path p = true -> nan_free_path (firstn i p) = true.
Proof.
  unfold nan_free_path. revert i.
  induction p as [| k p IH]; intros [| i] H; cbn in *; try reflexivity.
  apply andb_true_iff in H as [H1 H2]. now rewrite H1, IH.
Qed.

Lemma parts_eqb_length_neq (l m : list Key) :
  length l <> length m -> parts_eqb l m = false.
Proof.
  intros H. destruct (parts_eqb l m) eqn:E; [| reflexivity].
  apply parts_eqb_length in E. contradiction.
Qed.

(** X26.  Slices of a path.  For every integer [i], negative ones
    counting from the end, [p[:i] + p[i:]] is [p]; and when [p] holds no
    NaN, [p[:i]] is a prefix of [p], [p] is no prefix of a shorter
    [p[:i]], and [p[i:]] is a suffix of [p] unless it is empty. *)
Theorem slices_of_a_path (p : Path) (i : Z) :
  Path_add (Path_upto p i) (Path_from p i) = p
  /\ (nan_free_path p = true ->
      is_prefix_of (Path_upto p i) p = true
      /\ ((length (Path_upto p i) < length p)%nat ->
          is_prefix_of p (Path_upto p i) = false)
      /\ (Path_from p i <> [] -> is_suffix_of (Path_from p i) p = true)).
Proof.
  unfold Path_add, Path_upto, Path_from, slice_upto, slice_from.
  set (n := clamp_index (length p) i).
  split; [apply firstn_skipn |].
  intros N. split; [| split].
  - rewrite is_prefix_of_firstn, length_firstn.
    assert (E : firstn (Nat.min n (length p)) p = firstn n p).
    { destruct (Nat.le_ge_cases n (length p)).
      - now rewrite Nat.min_l.
      - rewrite Nat.min_r by assumption. now rewrite !firstn_all2 by lia. }
    rewrite E. apply parts_eqb_refl. now apply nan_free_path_firstn.
  - intros L. rewrite is_prefix_of_firstn.
    apply parts_eqb_length_neq. rewrite !length_firstn in *. lia.
  - intros Hne. unfold is_suffix_of, slice_from, Path_len.
    assert (Ln : (n < length p)%nat).
    { destruct (Nat.lt_ge_cases n (length p)) as [H | H]; [exact H |].
      rewrite skipn_all2 in Hne by exact H. congruence. }
    rewrite length_skipn.
    assert (C : clamp_index (length p) (- Z.of_nat (length p - n)) = n).
    { unfold clamp_index. cbv zeta.
      destruct (Z.ltb_spec (- Z.of_nat (length p - n)) 0); lia. }
    rewrite C. apply parts_eqb_refl. now apply nan_free_path_skipn.
Qed.

(* ================================================================== *)
(** * Further properties of the containers *)
(* ================================================================== *)

Lemma track_errors_Ok {A} (self : Path) (body : Result A) (a : A) :
  track_errors self body = Ok a <-> body = Ok a.
Proof.
  unfold track_errors. destruct body as [x | e]; [tauto |].
  destruct (exn_class e); split; discriminate.
Qed.

Lemma bind_Ok {A B} (r : Result A) (k : A -> Result B) (b : B) :
  bind r k = Ok b <-> exists a, r = Ok a /\ k a = Ok b.
Proof.
  destruct r as [a | e]; cbn.
  - split; [intros H; now exists a | intros [a' [[= <-] H]]; exact H].
  - split; [discriminate | intros [a [[=] _]]].
Qed.

Lemma dict_find_dict_set_same (d : list (Key * Value)) (k : Key) (v : Value) :
  Key_eqb k k = true -> dict_find (dict_set d k v) k = Some v.
Proof.
  intros R. induction d as [| [k' v'] d IH]; cbn.
  - now rewrite R.
  - destruct (Key_eqb k' k) eqn:E; cbn; now rewrite E.
Qed.

Lemma list_set_length {A} (l : list A) (i : nat) (x : A) :
  length (list_set l i x) = length l.
Proof.
  revert i. induction l as [| y l IH]; intros [| i]; cbn; auto.
Qed.

Lemma nth_error_list_set {A} (l : list A) (i : nat) (x : A) :
  (i < length l)%nat -> nth_error (list_set l i x) i = Some x.
Proof.
  revert i. induction l as [| y l IH]; intros [| i] H; cbn in *;
    try lia; [reflexivity |].
  apply IH. lia.
Qed.

Lemma sequence_index_lt (n : nat) (i : Z) (j : nat) :
  sequence_index n i = Some j -> (j < n)%nat.
Proof.
  unfold sequence_index. cbv zeta.
  destruct (_ && _) eqn:E; [| discriminate]. intros [= <-].
  apply andb_true_iff in E as [E1 E2].
  apply Z.leb_le in E1. apply Z.ltb_lt in E2. lia.
Qed.

(** One key written with the built-in assignment is read back. *)
Lemma builtin_setitem_getitem (d d' : Value) (k : Key) (v : Value) :
  builtin_setitem d k v = Ok d' ->
  isinstance_slice k = false ->
  Key_eqb k k = true ->
  builtin_getitem d' k = Ok v.
Proof.
  intros H Hs R. destruct d as [a | t | l | items]; cbn in H; try discriminate.
  - destruct k; try discriminate; cbn in H |- *;
      match type of H with
      | context [sequence_index ?n ?i] =>
          destruct (sequence_index n i) as [j |] eqn:E; [| discriminate]
      end;
      injection H as <-; cbn; rewrite list_set_length, E;
      now rewrite nth_error_list_set by (eapply sequence_index_lt; eauto).
  - destruct (unhashable k) eqn:U; [discriminate |].
    injection H as <-. cbn. rewrite U.
    now rewrite dict_find_dict_set_same.
Qed.

Lemma builtin_setitem_kind (d d' : Value) (k : Key) (v : Value) :
  builtin_setitem d k v = Ok d' ->
  is_mutable d = true /\ same_kind d d' = true.
Proof.
  intros H. destruct d as [a | t | l | items]; cbn in H; try discriminate.
  - destruct k; cbn in H;
      try discriminate;
      try (match type of H with
           | context [sequence_index ?n ?i] =>
               destruct (sequence_index n i); [| discriminate]
           end; injection H as <-; now split).
    apply bind_Ok in H as [x [_ [= <-]]]. now split.
  - destruct (unhashable k); [discriminate |]. injection H as <-. now split.
Qed.

Lemma PathMixin_setitem_kind (key : Path) (d d' v : Value) :
  PathMixin_setitem d key v = Ok d' ->
  is_mutable d = true /\ same_kind d d' = true.
Proof.
  destruct key as [| first rest]; cbn [PathMixin_setitem]; intros H;
    apply track_errors_Ok in H; [discriminate |].
  destruct rest as [| r rest].
  - eapply builtin_setitem_kind; eauto.
  - apply bind_Ok in H as [u [_ H]].
    destruct u; try discriminate;
      (destruct (isinstance_slice first); [discriminate |]);
      apply bind_Ok in H as [w [_ H]];
      eapply builtin_setitem_kind; eauto.
Qed.

Lemma same_kind_mutable (a b : Value) :
  is_mutable a = true -> same_kind a b = true -> is_container b = true.
Proof. destruct a, b; cbn; congruence. Qed.

(** X5.  What [d[key] = value] writes, [d[key]] reads back: when the
    assignment succeeds, the key holds no NaN and its last part is no
    slice, the updated container returns the value at [key]. *)
Theorem setitem_getitem (key : Path) :
  forall (d d' v : Value),
  PathMixin_setitem d key v = Ok d' ->
  nan_free_path key = true ->
  isinstance_slice (last key KNone) = false ->
  PathMixin_getitem d' key = Ok v.
Proof.
  induction key as [| first rest IH]; intros d d' v H N L.
  - cbn in H. discriminate.
  - cbn [PathMixin_setitem] in H. apply track_errors_Ok in H.
    unfold recursive_path_conversion in H.
    unfold nan_free_path in N. cbn [forallb] in N.
    apply andb_true_iff in N as [Nf Nr].
    pose proof (Key_eqb_refl first Nf) as R.
    cbn [PathMixin_getitem]. apply track_errors_Ok.
    destruct rest as [| r rest].
    + cbn in L. now rewrite (builtin_setitem_getitem _ _ _ H L R).
    + apply bind_Ok in H as [u [_ H]].
      assert (Hu : is_mutable u = true /\
                   isinstance_slice first = false /\
                   exists w, PathMixin_setitem u (r :: rest) v = Ok w /\
                             builtin_setitem d first w = Ok d').
      { destruct u; try discriminate;
          (destruct (isinstance_slice first); [discriminate |]);
          apply bind_Ok in H as [w [H1 H2]];
          (split; [reflexivity | split; [reflexivity | now exists w]]). }
      destruct Hu as [Mu [S [w [H1 H2]]]].
      rewrite (builtin_setitem_getitem _ _ _ H2 S R). cbn [bind].
      destruct (PathMixin_setitem_kind _ _ _ H1) as [_ K].
      pose proof (same_kind_mutable _ _ Mu K) as C.
      unfold has_path_access. rewrite S.
      destruct w; [discriminate | | |]; cbn [negb];
        apply (IH _ _ _ H1 Nr); exact L.
Qed.

Lemma setitem_getitem_witness :
  PathMixin_setitem
    (VDict [(KStr "a", VList [VAtom (KInt 1); VAtom (KInt 2)])])
    [KStr "a"; KInt (-1)] (VAtom (KStr "x"))
  = Ok (VDict [(KStr "a", VList [VAtom (KInt 1); VAtom (KStr "x")])]) /\
  PathMixin_getitem
    (VDict [(KStr "a", VList [VAtom (KInt 1); VAtom (KStr "x")])])
    [KStr "a"; KInt (-1)] = Ok (VAtom (KStr "x")).
Proof.
  split; [reflexivity |].
  apply (@setitem_getitem [KStr "a"; KInt (-1)]
           (VDict [(KStr "a", VList [VAtom (KInt 1); VAtom (KInt 2)])]));
    reflexivity.
Defined.

(** X6.  Reading at a concatenation is reading in two steps:
    [d[p + q]] returns [v] exactly when [d[p]] returns an item [e] with
    [e[q]] returning [v], where, unless [p] or [q] is empty, [e] is a
    container that the last key of [p], no slice, has read. *)
Theorem getitem_add (p q : Path) :
  forall (d v : Value),
  PathMixin_getitem d (Path_add p q) = Ok v <->
  exists e, PathMixin_getitem d p = Ok e /\
            PathMixin_getitem e q = Ok v /\
            (p = [] \/ q = [] \/ has_path_access (last p KNone) e = true).
Proof.
  unfold Path_add.
  induction p as [| first rest IH]; intros d v.
  - cbn [app PathMixin_getitem]. split.
    + intros H. exists d. auto.
    + intros [e [[= <-] [H _]]]. exact H.
  - cbn [app PathMixin_getitem]. rewrite track_errors_Ok, bind_Ok. split.
    + intros [entry [G H]].
      destruct rest as [| r rest].
      * cbn [app] in H. destruct q as [| k q].
        -- injection H as <-. exists entry. cbn [PathMixin_getitem].
           rewrite G. cbn. auto.
        -- destruct (has_path_access first entry) eqn:A; [| discriminate].
           exists entry. rewrite track_errors_Ok, G. cbn [bind last]. auto.
      * cbn [app] in H.
        destruct (has_path_access first entry) eqn:A; [| discriminate].
        change (r :: rest ++ q) with ((r :: rest) ++ q) in H.
        apply IH in H as [e [H1 [H2 H3]]].
        exists e. rewrite track_errors_Ok, G. cbn [bind]. rewrite A.
        split; [exact H1 |]. split; [exact H2 |].
        destruct H3 as [H3 | [H3 | H3]]; [discriminate | auto |].
        right. right. exact H3.
    + intros [e [H1 [H2 H3]]].
      apply track_errors_Ok, bind_Ok in H1 as [entry [G H1]].
      exists entry. split; [exact G |].
      destruct rest as [| r rest].
      * injection H1 as <-. cbn [app]. destruct q as [| k q].
        -- cbn in H2. exact H2.
        -- destruct H3 as [H3 | [H3 | H3]]; try discriminate.
           cbn [last] in H3. now rewrite H3.
      * destruct (has_path_access first entry) eqn:A; [| discriminate].
        cbn [app]. change (r :: rest ++ q) with ((r :: rest) ++ q).
        apply IH. exists e. split; [exact H1 |]. split; [exact H2 |].
        destruct H3 as [H3 | [H3 | H3]]; [discriminate | auto |].
        right. right. exact H3.
Qed.

(** X7.  An assignment creates no container on the way: [d[p + (k,)] =
    v] succeeds only when [d[p]] already is a dict or a list, and the
    result is of the same kind as [d]. *)
Theorem setitem_needs_parent (p : Path) :
  forall (k : Key) (d d' v : Value),
  PathMixin_setitem d (Path_add p [k]) v = Ok d' ->
  same_kind d d' = true /\
  exists parent, PathMixin_getitem d p = Ok parent /\
                 is_mutable parent = true.
Proof.
  intros k d d' v H.
  split; [eapply PathMixin_setitem_kind; eauto |].
  revert d d' H. unfold Path_add.
  induction p as [| first rest IH]; intros d d' H.
  - exists d. split; [reflexivity |].
    eapply PathMixin_setitem_kind; eauto.
  - cbn [app PathMixin_setitem] in H. apply track_errors_Ok in H.
    destruct (rest ++ [k]) as [| r rk] eqn:E;
      [destruct rest; discriminate |].
    apply bind_Ok in H as [u [G H]].
    assert (Hu : is_mutable u = true /\
                 isinstance_slice first = false /\
                 exists w, PathMixin_setitem u (r :: rk) v = Ok w).
    { destruct u; try discriminate;
        (destruct (isinstance_slice first); [discriminate |]);
        apply bind_Ok in H as [w [H1 H2]];
        (split; [reflexivity | split; [reflexivity | now exists w]]). }
    destruct Hu as [Mu [S [w H1]]].
    apply IH in H1 as [parent [P M]].
    exists parent. split; [| exact M].
    cbn [PathMixin_getitem]. apply track_errors_Ok. rewrite G. cbn [bind].
    destruct rest as [| r' rest'].
    + cbn in P. exact P.
    + unfold has_path_access. rewrite S.
      destruct u; [discriminate | | |]; exact P.
Qed.

Lemma setitem_needs_parent_witness :
  PathMixin_setitem
    (VDict [(KStr "a", VDict [])]) (Path_add [KStr "a"] [KStr "b"])
    (VAtom (KInt 1))
  = Ok (VDict [(KStr "a", VDict [(KStr "b", VAtom (KInt 1))])]) /\
  same_kind (VDict [(KStr "a", VDict [])])
    (VDict [(KStr "a", VDict [(KStr "b", VAtom (KInt 1))])]) = true /\
  exists parent,
    PathMixin_getitem (VDict [(KStr "a", VDict [])]) [KStr "a"] = Ok parent /\
    is_mutable parent = true.
Proof.
  split; [reflexivity |].
  apply (@setitem_needs_parent [KStr "a"] (KStr "b")
           (VDict [(KStr "a", VDict [])]) _ (VAtom (KInt 1))).
  reflexivity.
Defined.

Lemma bind_Raise {A B} (r : Result A) (k : A -> Result B) (e : Exn) :
  bind r k = Raise e <->
  r = Raise e \/ exists a, r = Ok a /\ k a = Raise e.
Proof.
  destruct r as [a | e']; cbn.
  - split; [intros H; right; now exists a |].
    intros [[=] | [a' [[= <-] H]]]. exact H.
  - split; [intros [= <-]; now left |].
    intros [[= <-] | [a [[=] _]]]. reflexivity.
Qed.

Lemma slice_indices_raise (n : nat) (start stop step : option Z) (e : Exn) :
  slice_indices n start stop step = Raise e ->
  e = exn ValueError slice_step_zero.
Proof.
  unfold slice_indices. cbv zeta.
  destruct (_ =? 0); [now intros [= <-] | discriminate].
Qed.

(** The built-in read raises an error that carries no path. *)
Lemma builtin_getitem_raise (d : Value) (k : Key) (e : Exn) :
  builtin_getitem d k = Raise e ->
  exn_path e = None /\ exn_class e <> AssertionError.
Proof.
  assert (S : forall l start stop step (f : list Value -> Value),
             (items <- sequence_getslice l start stop step ;; Ok (f items))
             = Raise e ->
             exn_path e = None /\ exn_class e <> AssertionError).
  { intros l start stop step f H.
    apply bind_Raise in H as [H | [a [_ H]]]; [| discriminate].
    unfold sequence_getslice in H.
    apply bind_Raise in H as [H | [[[[a b] c] x] [_ H]]]; [| discriminate].
    apply slice_indices_raise in H. subst e. now split. }
  assert (I : forall l : list Value,
             match index_of_key k return Result Value with
             | None => Raise (exn TypeError (bad_index_type k))
             | Some i =>
                 match sequence_index (length l) i with
                 | None => Raise (exn IndexError index_out_of_range)
                 | Some n =>
                     match nth_error l n with
                     | Some v => Ok v
                     | None => Raise (exn IndexError index_out_of_range)
                     end
                 end
             end = Raise e ->
             exn_path e = None /\ exn_class e <> AssertionError).
  { intros l H.
    destruct (index_of_key k); [| injection H as <-; now split].
    destruct (sequence_index _ _); [| injection H as <-; now split].
    destruct (nth_error _ _); [discriminate |].
    injection H as <-. now split. }
  destruct d as [a | t | l | items]; cbn [builtin_getitem]; intros H.
  - injection H as <-. now split.
  - destruct k; try (now apply (I t)). now apply S in H.
  - destruct k; try (now apply (I l)). now apply S in H.
  - destruct (unhashable k); [injection H as <-; now split |].
    destruct (dict_find items k); [discriminate |].
    injection H as <-. now split.
Qed.

Lemma Path_upto_1 (first : Key) (rest : Path) :
  Path_upto (first :: rest) 1 = [first].
Proof.
  unfold Path_upto. change 1 with (Z.of_nat 1).
  now rewrite slice_upto_of_nat.
Qed.

Lemma has_path_access_container (k : Key) (v : Value) :
  has_path_access k v = true -> is_container v = true.
Proof. destruct v; cbn; congruence. Qed.

(** X8.  The path that a failed read [d[key]] reports.  With [d] a
    container, a ValueError (a slice of step zero) carries no path, and
    an IndexError, KeyError or TypeError carries a non-empty prefix of
    [key]: the keys before the last one of that prefix resolve, and the
    last one is the key that failed or the key of an item that could not
    be read further. *)
Theorem getitem_error_path (key : Path) :
  forall (d : Value) (e : Exn),
  is_container d = true ->
  PathMixin_getitem d key = Raise e ->
  match exn_class e with
  | AssertionError => False
  | ValueError => exn_path e = None
  | IndexError | KeyError | TypeError => fails_at d key e
  end.
Proof.
  induction key as [| first rest IH]; intros d e C H; [discriminate |].
  cbn [PathMixin_getitem] in H.
  remember (entry <- builtin_getitem d first ;;
            match rest with
            | [] => Ok entry
            | _ :: _ =>
                if has_path_access first entry
                then PathMixin_getitem entry rest
                else Raise (exn TypeError not_subscriptable)
            end)%result as body eqn:B.
  destruct body as [x | e0]; [discriminate |].
  symmetry in B. apply bind_Raise in B as [B | [entry [G B]]].
  - (* the first key fails *)
    destruct (builtin_getitem_raise _ _ B) as [P NA].
    assert (F : forall e1,
               exn_class e1 = exn_class e0 ->
               exn_message e1 = exn_message e0 ->
               exn_path e1 = Some [first] ->
               fails_at d (first :: rest) e1).
    { intros e1 Hc Hm Hp. exists 1%nat, d, first. cbn [length firstn Nat.sub].
      split; [lia |]. split; [exact Hp |]. split; [reflexivity |].
      split; [reflexivity |]. left. rewrite Hc, Hm, B.
      destruct e0 as [c m p]. cbn in P. now subst p. }
    unfold track_errors in H. rewrite P, Path_upto_1 in H.
    destruct (exn_class e0) eqn:Ec; injection H as <-;
      cbn [exn_class]; try (apply F; reflexivity);
      [congruence | rewrite Ec; exact P].
  - destruct rest as [| r rest]; [discriminate |].
    destruct (has_path_access first entry) eqn:A.
    + (* the error comes from further down *)
      pose proof (IH entry e0 (has_path_access_container _ _ A) B) as I.
      unfold track_errors in H. rewrite Path_upto_1 in H.
      assert (F : forall e1,
                 exn_class e1 = exn_class e0 ->
                 exn_message e1 = exn_message e0 ->
                 exn_path e1 =
                   Some match exn_path e0 with
                        | None => [first]
                        | Some p => Path_add [first] p
                        end ->
                 fails_at entry (r :: rest) e0 ->
                 fails_at d (first :: r :: rest) e1).
      { intros e1 Hc Hm Hp [n [parent [k [Hn [Pp [Gp [Nk D]]]]]]].
        exists (S n), parent, k. split; [cbn [length] in *; lia |].
        split; [rewrite Hp, Pp; reflexivity |].
        split.
        - replace (S n - 1)%nat with (S (n - 1)) by lia.
          cbn [firstn PathMixin_getitem]. apply track_errors_Ok.
          rewrite G. cbn [bind].
          destruct (firstn (n - 1) (r :: rest)) eqn:E.
          + cbn in Gp. exact Gp.
          + now rewrite A.
        - split.
          + replace (S n - 1)%nat with (S (n - 1)) by lia. exact Nk.
          + rewrite Hc, Hm. destruct D as [D | [item [D1 [D2 [D3 D4]]]]].
            * now left.
            * right. exists item.
              split; [exact D1 |]. split; [exact D2 |].
              split; [cbn [length] in *; lia | congruence]. }
      destruct (exn_class e0) eqn:Ec; injection H as <-; cbn [exn_class];
        try (apply F; [reflexivity | reflexivity | reflexivity | exact I]);
        [destruct I | rewrite Ec; exact I].
    + (* the item read takes no path *)
      injection B as <-. cbn in H. rewrite Path_upto_1 in H.
      injection H as <-. cbn [exn_class].
      exists 1%nat, d, first. cbn [length firstn Nat.sub exn_path].
      split; [lia |]. split; [reflexivity |]. split; [reflexivity |].
      split; [reflexivity |]. right. exists entry.
      repeat split; auto. lia.
Qed.

Lemma getitem_error_path_witness :
  is_container (VDict [(KStr "a", VList [VAtom (KInt 1)])]) = true /\
  PathMixin_getitem (VDict [(KStr "a", VList [VAtom (KInt 1)])])
    [KStr "a"; KInt 3; KStr "b"]
  = Raise (mkExn IndexError index_out_of_range (Some [KStr "a"; KInt 3])) /\
  fails_at (VDict [(KStr "a", VList [VAtom (KInt 1)])])
    [KStr "a"; KInt 3; KStr "b"]
    (mkExn IndexError index_out_of_range (Some [KStr "a"; KInt 3])).
Proof.
  split; [reflexivity |]. split; [reflexivity |].
  apply (@getitem_error_path [KStr "a"; KInt 3; KStr "b"]
           (VDict [(KStr "a", VList [VAtom (KInt 1)])])
           (mkExn IndexError index_out_of_range (Some [KStr "a"; KInt 3])));
    reflexivity.
Defined.

(* ================================================================== *)
(** * Further properties of the configuration *)
(* ================================================================== *)

(** ** Writes only append *)

Lemma Store_lookup_append (d : Store) (k : Path) (e : Entry) (q : Path) :
  exists extra,
    Store_lookup (Store_append d k e) q = Store_lookup d q ++ extra
    /\ (extra = [] \/ extra = [e]).
Proof.
  rewrite !Store_lookup_find.
  induction d as [| [k' v] d IH]; cbn [Store_append Store_find].
  - destruct (Path_eqb k q); [exists [e] | exists []]; auto.
  - destruct (Path_eqb k' k) eqn:Ek; cbn [Store_find].
    + destruct (Path_eqb k' q).
      * exists [e]. auto.
      * exists []. rewrite app_nil_r. auto.
    + destruct (Path_eqb k' q).
      * exists []. rewrite app_nil_r. auto.
      * exact IH.
Qed.

Lemma Store_lookup_fold_append (es : list Entry) :
  forall (d : Store) (q : Path),
  exists extra,
    Store_lookup
      (fold_left (fun d e => Store_append d (Entry.path e) e) es d) q
    = Store_lookup d q ++ extra
    /\ Forall (fun e => In e es) extra.
Proof.
  induction es as [| e es IH]; intros d q; cbn [fold_left].
  - exists []. rewrite app_nil_r. auto.
  - destruct (IH (Store_append d (Entry.path e) e) q) as [x2 [H2 F2]].
    destruct (Store_lookup_append d (Entry.path e) e q) as [x1 [H1 F1]].
    exists (x1 ++ x2). rewrite H2, H1, app_assoc. split; [reflexivity |].
    apply Forall_app. split.
    + destruct F1 as [-> | ->]; [constructor |].
      constructor; [now left | constructor].
    + eapply Forall_impl; [| exact F2]. intros a Ha. now right.
Qed.

(** X9.  [add_entry] only appends: whatever the outcome, the ceiling
    stays, and the list stored under any path is the former list
    followed by entries taken from the new entry and its implicit
    entries; nothing stored is changed or removed. *)
Theorem add_entry_appends
    (self : Configuration) (path : Path) (value : Value)
    (priority : option Z) (q : Path) :
  let self' := snd (add_entry self path value priority) in
  let added :=
    Entry.get_implicit_entries
      (Entry.new path (or_default priority (active_priority self))
                 value ANY false) in
  active_priority self' = active_priority self
  /\ exists extra,
       Store_lookup (entries_by_path self') q
       = Store_lookup (entries_by_path self) q ++ extra
       /\ Forall (fun e => In e added) extra.
Proof.
  cbv zeta. unfold add_entry. cbv zeta.
  destruct (negb _); cbn [snd].
  - split; [reflexivity |]. exists []. rewrite app_nil_r. auto.
  - split; [reflexivity |]. cbn [with_entries entries_by_path].
    apply Store_lookup_fold_append.
Qed.

(** ** The resolved entry *)

Lemma insert_sorted_In {A} (key : A -> Z) (x y : A) (l : list A) :
  In y (insert_sorted key x l) <-> y = x \/ In y l.
Proof.
  induction l as [| z l IH]; cbn.
  - intuition.
  - destruct (key x <=? key z); cbn; [intuition |].
    rewrite IH. intuition.
Qed.

Lemma sorted_In {A} (key : A -> Z) (y : A) (l : list A) :
  In y (sorted key l) <-> In y l.
Proof.
  unfold sorted. induction l as [| x l IH]; cbn; [tauto |].
  rewrite insert_sorted_In, IH. intuition.
Qed.

Lemma insert_sorted_ascending {A} (key : A -> Z) (x : A) (l : list A) :
  ascending key l -> ascending key (insert_sorted key x l).
Proof.
  induction l as [| z l IH]; cbn [insert_sorted ascending].
  - intros _. split; [constructor | exact I].
  - intros [F S]. destruct (Z.leb_spec (key x) (key z)) as [H | H];
      cbn [ascending].
    + split; [| split; assumption].
      constructor; [exact H |].
      eapply Forall_impl; [| exact F]. cbn. intros a Ha. lia.
    + split; [| now apply IH].
      apply Forall_forall. intros a Ha.
      apply insert_sorted_In in Ha as [-> | Ha]; [lia |].
      rewrite Forall_forall in F. now apply F.
Qed.

Lemma sorted_ascending {A} (key : A -> Z) (l : list A) :
  ascending key (sorted key l).
Proof.
  unfold sorted. induction l as [| x l IH]; cbn [fold_right];
    [exact I | now apply insert_sorted_ascending].
Qed.

Lemma ascending_last {A} (key : A -> Z) (l : list A) (x : A) :
  ascending key (l ++ [x]) -> Forall (fun y => key y <= key x) l.
Proof.
  induction l as [| z l IH]; cbn [app ascending]; [constructor |].
  intros [F S]. constructor.
  - rewrite Forall_forall in F. apply F. apply in_or_app. right. now left.
  - now apply IH.
Qed.

(** The entry popped first is one of greatest priority. *)
Lemma rev_sorted_head {A} (key : A -> Z) (l : list A) (x : A)
    (stack : list A) :
  rev (sorted key l) = x :: stack ->
  In x l /\ (forall y, In y l -> key y <= key x)
  /\ Forall (fun y => key y <= key x) stack.
Proof.
  intros H.
  assert (E : sorted key l = rev stack ++ [x]).
  { rewrite <- (rev_involutive (sorted key l)), H. reflexivity. }
  pose proof (sorted_ascending key l) as S. rewrite E in S.
  apply ascending_last in S.
  assert (F : Forall (fun y => key y <= key x) stack).
  { apply Forall_forall. intros y Hy. rewrite Forall_forall in S.
    apply S. now apply in_rev in Hy. }
  split; [| split; [| exact F]].
  - apply (sorted_In key). rewrite E. apply in_or_app. right. now left.
  - intros y Hy. apply (sorted_In key) in Hy. rewrite E in Hy.
    apply in_app_or in Hy as [Hy | [<- | []]]; [| lia].
    rewrite Forall_forall in S. now apply S.
Qed.

Lemma merge_priority (a b r : Entry) :
  Entry.merge a b = Ok r ->
  Entry.priority r = Z.max (Entry.priority a) (Entry.priority b).
Proof.
  unfold Entry.merge. destruct (negb _); [discriminate |].
  intros [= <-]. apply new_fields.
Qed.

Lemma merge_loop_priority (stack : list Entry) :
  forall (result r : Entry),
  merge_loop result stack = Ok r ->
  Forall (fun x => Entry.priority x <= Entry.priority result) stack ->
  Entry.priority r = Entry.priority result.
Proof.
  induction stack as [| next stack IH]; intros result r H F;
    cbn [merge_loop] in H.
  - now injection H as <-.
  - destruct (Entry.implicit result); [| now injection H as <-].
    apply bind_Ok in H as [merged [M H]].
    apply merge_priority in M.
    inversion F as [| ? ? F1 F2]; subst.
    assert (P : Entry.priority merged = Entry.priority result) by lia.
    rewrite <- P. apply IH; [exact H |]. now rewrite P.
Qed.

(** X10.  The entry [get_entry_for_priority] resolves carries the
    greatest priority stored under the path: it is at least the floor,
    it is the priority of a stored entry, and no stored entry has more. *)
Theorem resolve_highest_priority
    (stored : list Entry) (floor : Z) (r : Entry) :
  resolve stored floor = Ok r ->
  floor <= Entry.priority r
  /\ (exists e, In e stored /\ Entry.priority e = Entry.priority r)
  /\ forall e, In e stored -> Entry.priority e <= Entry.priority r.
Proof.
  unfold resolve. cbv zeta.
  destruct (rev (sorted Entry.priority (filter _ stored)))
    as [| result stack] eqn:E; [discriminate |].
  intros H.
  apply rev_sorted_head in E as [Hin [Hmax F]].
  apply merge_loop_priority in H; [| exact F].
  apply filter_In in Hin as [Hin Hfloor].
  rewrite Z.geb_leb in Hfloor. apply Z.leb_le in Hfloor.
  rewrite H. split; [exact Hfloor |]. split; [now exists result |].
  intros e He.
  destruct (Z.leb_spec floor (Entry.priority e)) as [L | L]; [| lia].
  apply Hmax. apply filter_In. split; [exact He |].
  rewrite Z.geb_leb. now apply Z.leb_le.
Qed.

Lemma resolve_highest_priority_witness :
  resolve (Store_lookup (entries_by_path cfg_two_writes) [KStr "a"]) 0
  = Ok (Entry.mk [KStr "a"] 5 (vint 2) LEAF false)
  /\ 0 <= 5
  /\ (exists e,
        In e (Store_lookup (entries_by_path cfg_two_writes) [KStr "a"])
        /\ Entry.priority e = 5)
  /\ forall e,
       In e (Store_lookup (entries_by_path cfg_two_writes) [KStr "a"]) ->
       Entry.priority e <= 5.
Proof.
  split; [reflexivity |].
  apply (@resolve_highest_priority
           (Store_lookup (entries_by_path cfg_two_writes) [KStr "a"]) 0
           (Entry.mk [KStr "a"] 5 (vint 2) LEAF false)).
  reflexivity.
Defined.

Lemma insert_sorted_below {A} (key : A -> Z) (x : A) (l : list A) :
  Forall (fun y => key y < key x) l -> insert_sorted key x l = l ++ [x].
Proof.
  induction l as [| z l IH]; cbn [insert_sorted app]; [reflexivity |].
  intros F. inversion F as [| ? ? F1 F2]; subst.
  destruct (Z.leb_spec (key x) (key z)); [lia |]. now rewrite IH.
Qed.

Lemma insert_sorted_keeps_last {A} (key : A -> Z) (x e : A) (s : list A) :
  key x <= key e ->
  exists s', insert_sorted key x (s ++ [e]) = s' ++ [e].
Proof.
  intros H. induction s as [| y s [s' IH]]; cbn [insert_sorted app].
  - destruct (Z.leb_spec (key x) (key e)); [| lia]. now exists [x].
  - destruct (key x <=? key y).
    + now exists (x :: y :: s).
    + exists (y :: s'). now rewrite IH.
Qed.

(** The stable sort puts last the last of the entries of greatest key. *)
Lemma sorted_last {A} (key : A -> Z) (before after : list A) (e : A) :
  Forall (fun x => key x <= key e) before ->
  Forall (fun x => key x < key e) after ->
  exists s, sorted key (before ++ e :: after) = s ++ [e].
Proof.
  intros Fb Fa. unfold sorted.
  induction before as [| x before IH]; cbn [app fold_right].
  - exists (fold_right (insert_sorted key) [] after).
    apply insert_sorted_below. apply Forall_forall. intros y Hy.
    apply (proj1 (sorted_In key y after)) in Hy.
    rewrite Forall_forall in Fa. now apply Fa.
  - inversion Fb as [| ? ? F1 F2]; subst.
    destruct (IH F2) as [s ->]. now apply insert_sorted_keeps_last.
Qed.

Lemma filter_Forall {A} (P : A -> Prop) (f : A -> bool) (l : list A) :
  Forall P l -> Forall P (filter f l).
Proof.
  intros F. apply Forall_forall. intros x Hx.
  apply filter_In in Hx as [Hx _]. rewrite Forall_forall in F. now apply F.
Qed.

Lemma resolve_last_highest
    (floor : Z) (before after : list Entry) (e : Entry) :
  Forall (fun x => Entry.priority x <= Entry.priority e) before ->
  Forall (fun x => Entry.priority x < Entry.priority e) after ->
  Entry.implicit e = false ->
  floor <= Entry.priority e ->
  resolve (before ++ e :: after) floor = Ok e.
Proof.
  intros Fb Fa I L. unfold resolve. cbv zeta.
  rewrite filter_app. cbn [filter].
  assert (G : (Entry.priority e >=? floor) = true).
  { rewrite Z.geb_leb. now apply Z.leb_le. }
  rewrite G.
  destruct (@sorted_last _ Entry.priority
              (filter (fun x => Entry.priority x >=? floor) before)
              (filter (fun x => Entry.priority x >=? floor) after) e)
    as [s ->]; try now apply filter_Forall.
  rewrite rev_app_distr. cbn [rev app].
  destruct (rev s); cbn [merge_loop]; [reflexivity |]. now rewrite I.
Qed.

(** X11.  Among the entries stored under a path, the last one of
    greatest priority wins when it is explicit: with no later entry of
    the same or a higher priority, and no earlier one of a higher
    priority, [get_entry_for_priority] returns it as it is. *)
Theorem last_highest_explicit_wins
    (self : Configuration) (path : Path) (floor : Z)
    (before after : list Entry) (e : Entry) :
  Store_lookup (entries_by_path self) path = before ++ e :: after ->
  Forall (fun x => Entry.priority x <= Entry.priority e) before ->
  Forall (fun x => Entry.priority x < Entry.priority e) after ->
  Entry.implicit e = false ->
  floor <= Entry.priority e ->
  Entry.type e <> 0%N ->
  fst (get_entry_for_priority self path floor) = Ok e.
Proof.
  intros S Fb Fa I L T.
  apply get_entry_for_priority_viable; [| exact T].
  rewrite S. now apply resolve_last_highest.
Qed.

Lemma last_highest_explicit_wins_witness :
  fst (get_entry_for_priority cfg_two_writes [KStr "a"] 0)
  = Ok (Entry.mk [KStr "a"] 5 (vint 2) LEAF false).
Proof.
  apply (@last_highest_explicit_wins cfg_two_writes [KStr "a"] 0
           [Entry.mk [KStr "a"] 5 (vint 1) LEAF false] []
           (Entry.mk [KStr "a"] 5 (vint 2) LEAF false)).
  - reflexivity.
  - constructor; [cbn; lia | constructor].
  - constructor.
  - reflexivity.
  - cbn; lia.
  - discriminate.
Defined.

(** ** Reading twice *)

Lemma Store_getitem_found (d : Store) (p : Path) (v : list Entry) :
  Store_find d p = Some v -> Store_getitem d p = (v, d).
Proof. unfold Store_getitem. now intros ->. Qed.

Lemma Store_find_getitem (d : Store) (p : Path) :
  Path_eqb p p = true ->
  Store_find (snd (Store_getitem d p)) p = Some (fst (Store_getitem d p)).
Proof.
  intros R. unfold Store_getitem.
  destruct (Store_find d p) eqn:E; cbn [fst snd]; [exact E |].
  rewrite Store_find_app, E. cbn. now rewrite R.
Qed.

Lemma Store_find_kept (d : Store) (p q : Path) (v : list Entry) :
  Store_find d p = Some v ->
  Store_find (snd (Store_getitem d q)) p = Some v.
Proof.
  intros H. unfold Store_getitem.
  destruct (Store_find d q); cbn [snd]; [exact H |].
  now rewrite Store_find_app, H.
Qed.

Lemma check_write_access_loop_find (prefixes : list Path) :
  forall (d : Store) (priority : Z) (p : Path) (v : list Entry),
  Store_find d p = Some v ->
  Store_find (snd (check_write_access_loop d prefixes priority)) p = Some v.
Proof.
  induction prefixes as [| q ps IH]; intros d priority p v H;
    cbn [check_write_access_loop]; [exact H |].
  pose proof (@Store_find_kept d p q v H) as K.
  destruct (Store_getitem d q) as [stored d1]. cbn [snd] in K.
  destruct (_ <? _); [exact K | now apply IH].
Qed.

Lemma check_write_access_loop_again (prefixes : list Path) :
  forall (d : Store) (priority : Z),
  Forall (fun p => Path_eqb p p = true) prefixes ->
  check_write_access_loop
    (snd (check_write_access_loop d prefixes priority)) prefixes priority
  = check_write_access_loop d prefixes priority.
Proof.
  induction prefixes as [| q ps IH]; intros d priority F;
    cbn [check_write_access_loop]; [reflexivity |].
  inversion F as [| ? ? R F']; subst.
  pose proof (@Store_find_getitem d q R) as G.
  destruct (Store_getitem d q) as [stored d1] eqn:E1. cbn [fst snd] in G.
  destruct (priority <? max_default (map Entry.explicit_priority stored) 0)
    eqn:D.
  - cbn [snd check_write_access_loop].
    rewrite (@Store_getitem_found _ _ _ G). now rewrite D.
  - pose proof (@check_write_access_loop_find ps d1 priority q _ G) as K.
    pose proof (IH d1 priority F') as A.
    destruct (check_write_access_loop d1 ps priority) as [b d2].
    cbn [snd] in *.
    rewrite (@Store_getitem_found _ _ _ K). now rewrite D.
Qed.

(** X12.  A read that is repeated finds what it found and changes
    nothing more: for a path without NaN, calling
    [get_entry_for_priority] or [check_write_access] again on the
    configuration the first call left returns the same result and the
    same configuration. *)
Theorem reads_idempotent
    (self : Configuration) (path : Path) (priority : Z) :
  nan_free_path path = true ->
  get_entry_for_priority
    (snd (get_entry_for_priority self path priority)) path priority
  = get_entry_for_priority self path priority
  /\ check_write_access
       (snd (check_write_access self path priority)) path priority
     = check_write_access self path priority.
Proof.
  intros N. split.
  - unfold get_entry_for_priority.
    pose proof (@Store_find_getitem (entries_by_path self) path
                  (parts_eqb_refl path N)) as G.
    destruct (Store_getitem (entries_by_path self) path) as [stored d].
    cbn [fst snd] in *. cbn [with_entries entries_by_path].
    rewrite (@Store_getitem_found _ _ _ G). reflexivity.
  - unfold check_write_access.
    assert (F : Forall (fun p => Path_eqb p p = true) (proper_prefixes path)).
    { apply Forall_forall. intros p Hp.
      apply In_proper_prefixes in Hp as [i [_ ->]].
      apply parts_eqb_refl. now apply nan_free_path_firstn. }
    pose proof (@check_write_access_loop_again (proper_prefixes path)
                  (entries_by_path self) priority F) as A.
    destruct (check_write_access_loop (entries_by_path self)
                (proper_prefixes path) priority) as [b d].
    cbn [snd] in *. cbn [with_entries entries_by_path]. rewrite A.
    reflexivity.
Qed.

Lemma reads_idempotent_witness :
  get_entry_for_priority
    (snd (get_entry_for_priority Configuration_init [KStr "a"; KInt 0] 0))
    [KStr "a"; KInt 0] 0
  = get_entry_for_priority Configuration_init [KStr "a"; KInt 0] 0
  /\ check_write_access
       (snd (check_write_access Configuration_init [KStr "a"; KInt 0] 0))
       [KStr "a"; KInt 0] 0
     = check_write_access Configuration_init [KStr "a"; KInt 0] 0.
Proof.
  apply (@reads_idempotent Configuration_init [KStr "a"; KInt 0] 0).
  reflexivity.
Defined.

(** ** The entries of a write *)

Lemma Store_append_fresh (d : Store) (k : Path) (e : Entry) :
  Store_find d k = None -> Store_append d k e = d ++ [(k, [e])].
Proof.
  induction d as [| [k' v] d IH]; cbn; [reflexivity |].
  destruct (Path_eqb k' k); [discriminate |]. intros H. now rewrite IH.
Qed.

Lemma fold_append_distinct (es : list Entry) :
  forall d : Store,
  (forall e, In e es -> Store_find d (Entry.path e) = None) ->
  distinct_paths es ->
  fold_left (fun d e => Store_append d (Entry.path e) e) es d
  = d ++ map (fun e => (Entry.path e, [e])) es.
Proof.
  induction es as [| e es IH]; intros d F D; cbn [fold_left map].
  - now rewrite app_nil_r.
  - destruct D as [D1 D2].
    rewrite Store_append_fresh by (apply F; now left).
    rewrite IH; [now rewrite <- app_assoc | | exact D2].
    intros e' He'. rewrite Store_find_app, F by now right.
    cbn. rewrite Forall_forall in D1. now rewrite D1.
Qed.

Lemma implicit_entry_for_path (e : Entry) (i : nat) :
  (i <= length (Entry.path e))%nat ->
  Entry.path (implicit_entry_for e i) = firstn i (Entry.path e).
Proof.
  intros H. unfold implicit_entry_for.
  destruct (nth_error (Entry.path e) i) eqn:E; [reflexivity |].
  apply nth_error_None in E. now rewrite firstn_all2.
Qed.

Lemma sorted_of_ascending {A} (key : A -> Z) (l : list A) :
  ascending key l -> sorted key l = l.
Proof.
  unfold sorted. induction l as [| x l IH]; cbn [fold_right ascending];
    [reflexivity |].
  intros [F S]. rewrite IH by exact S.
  destruct l as [| y l]; [reflexivity |]. cbn [insert_sorted].
  inversion F as [| ? ? F1 F2]; subst.
  destruct (Z.leb_spec (key x) (key y)); [reflexivity | lia].
Qed.

Lemma check_write_access_loop_granted (prefixes : list Path) (d : Store)
    (priority : Z) :
  Forall (fun q =>
            exists stored,
              Store_find d q = Some stored /\
              max_default (map Entry.explicit_priority stored) 0 <= priority)
         prefixes ->
  check_write_access_loop d prefixes priority = (true, d).
Proof.
  induction prefixes as [| q ps IH]; intros F;
    cbn [check_write_access_loop]; [reflexivity |].
  inversion F as [| ? ? [stored [G M]] F']; subst.
  rewrite (@Store_getitem_found _ _ _ G).
  destruct (Z.ltb_spec priority
             (max_default (map Entry.explicit_priority stored) 0)); [lia |].
  now apply IH.
Qed.

Lemma setitem_nest (keys : list Key) (k : Key) (w : Value) :
  nan_free_path keys = true ->
  hashable_path keys = true ->
  unhashable k = false ->
  PathMixin_setitem (nest keys (VDict [])) (keys ++ [k]) w
  = Ok (nest (keys ++ [k]) w).
Proof.
  intros N H U. unfold nan_free_path, hashable_path in *.
  induction keys as [| k0 keys IH].
  - cbn. now rewrite U.
  - cbn [forallb] in N, H.
    apply andb_true_iff in N as [N0 N], H as [H0 H].
    apply negb_true_iff in H0.
    specialize (IH N H).
    cbn [app nest PathMixin_setitem].
    apply track_errors_Ok.
    destruct (keys ++ [k]) as [| r rk] eqn:E; [destruct keys; discriminate |].
    unfold recursive_path_conversion.
    cbn [builtin_getitem dict_find]. rewrite H0, (Key_eqb_refl k0 N0).
    cbn [bind].
    assert (S : isinstance_slice k0 = false) by (destruct k0; auto; discriminate).
    assert (V : exists items, nest keys (VDict []) = VDict items).
    { destruct keys; cbn; eauto. }
    destruct V as [items V]. rewrite V in IH |- *. rewrite S, IH.
    cbn [bind builtin_setitem]. rewrite H0. cbn [dict_set].
    now rewrite (Key_eqb_refl k0 N0).
Qed.

Lemma getitem_nest (keys : list Key) (w : Value) :
  nan_free_path keys = true ->
  hashable_path keys = true ->
  PathMixin_getitem (nest keys w) keys = Ok w.
Proof.
  intros N H. unfold nan_free_path, hashable_path in *.
  induction keys as [| k0 keys IH]; [reflexivity |].
  cbn [forallb] in N, H.
  apply andb_true_iff in N as [N0 N], H as [H0 H].
  apply negb_true_iff in H0. specialize (IH N H).
  cbn [nest PathMixin_getitem]. apply track_errors_Ok.
  cbn [builtin_getitem dict_find]. rewrite H0, (Key_eqb_refl k0 N0).
  cbn [bind]. destruct keys as [| k1 keys]; [reflexivity |].
  assert (S : isinstance_slice k0 = false) by (destruct k0; auto; discriminate).
  unfold has_path_access. cbn [nest]. rewrite S. exact IH.
Qed.

Lemma firstn_forallb {A} (f : A -> bool) (i : nat) (l : list A) :
  forallb f l = true -> forallb f (firstn i l) = true.
Proof.
  revert i. induction l as [| x l IH]; intros [| i] H; cbn in *;
    try reflexivity.
  apply andb_true_iff in H as [H1 H2]. now rewrite H1, IH.
Qed.

Lemma firstn_snoc {A} (l : list A) (i : nat) (x : A) :
  nth_error l i = Some x -> firstn (S i) l = firstn i l ++ [x].
Proof.
  revert i. induction l as [| y l IH]; intros [| i] H; cbn in *;
    try discriminate.
  - now injection H as ->.
  - now rewrite IH.
Qed.

Section OneEntry.

Variable path : Path.
Variable v : Value.
Variable p : Z.

Hypothesis path_hashable : hashable_path path = true.

Local Abbreviation n := (length path).
Local Abbreviation entry := (Entry.new path p v ANY false).
Local Abbreviation E := (implicit_entry_for entry).

Lemma entry_path : Entry.path entry = path.
Proof. apply new_fields. Qed.

Lemma E_path (j : nat) : (j <= n)%nat -> Entry.path (E j) = firstn j path.
Proof.
  intros H. rewrite implicit_entry_for_path; rewrite entry_path;
    [reflexivity | exact H].
Qed.

Lemma key_hashable (j : nat) (k : Key) :
  nth_error path j = Some k -> unhashable k = false.
Proof.
  intros H. apply nth_error_In in H.
  pose proof path_hashable as A. unfold hashable_path in A.
  rewrite forallb_forall in A.
  apply negb_true_iff. now apply A.
Qed.

Lemma E_last :
  E n = entry /\ Entry.value entry = v /\ Entry.priority entry = p
  /\ Entry.type entry <> 0%N.
Proof.
  split.
  - unfold implicit_entry_for. rewrite entry_path.
    now rewrite (proj2 (nth_error_None path n)) by lia.
  - split; [apply new_fields |]. split; [apply new_fields |].
    unfold Entry.new, Entry.post_init.
    cbn [Entry.value Entry.type]. destruct v; cbn; discriminate.
Qed.

Lemma stored_distinct (m a : nat) :
  (a + m <= S n)%nat -> distinct_paths (map E (seq a m)).
Proof.
  revert a. induction m as [| m IH]; intros a H; cbn [seq map distinct_paths];
    [exact I |].
  split; [| apply IH; lia].
  apply Forall_forall. intros e He. apply in_map_iff in He as [j [<- Hj]].
  apply in_seq in Hj. unfold Path_eqb.
  apply parts_eqb_length_neq.
  rewrite !E_path by lia. rewrite !length_firstn. lia.
Qed.

Lemma keys_sorted :
  sorted (fun q : Path => Z.of_nat (Path_len q))
         (map (fun j => firstn j path) (seq 1 n))
  = map (fun j => firstn j path) (seq 1 n).
Proof.
  apply sorted_of_ascending.
  assert (G : forall m a, (a + m <= S n)%nat ->
              ascending (fun q : Path => Z.of_nat (Path_len q))
                        (map (fun j => firstn j path) (seq a m))).
  { induction m as [| m IH]; intros a H; cbn [seq map ascending];
      [exact I |].
    split; [| apply IH; lia].
    apply Forall_forall. intros q Hq.
    apply in_map_iff in Hq as [j [<- Hj]]. apply in_seq in Hj.
    unfold Path_len. rewrite !length_firstn. lia. }
  apply G. lia.
Qed.

End OneEntry.

(** ** Writes to one path *)

Lemma Store_append_skip (d1 d2 : Store) (k : Path) (e : Entry) :
  (forall kv, In kv d1 -> Path_eqb (fst kv) k = false) ->
  Store_append (d1 ++ d2) k e = d1 ++ Store_append d2 k e.
Proof.
  induction d1 as [| [k' l] d1 IH]; intros H; cbn [app Store_append];
    [reflexivity |].
  pose proof (H (k', l) (or_introl eq_refl)) as E. cbn [fst] in E.
  rewrite E. f_equal. apply IH.
  intros kv Hkv. apply H. now right.
Qed.

Lemma max_default_zeros (l : list Entry) :
  Forall (fun x => Entry.implicit x = true) l ->
  max_default (map Entry.explicit_priority l) 0 = 0.
Proof.
  intros F.
  assert (M : map Entry.explicit_priority l = map (fun _ => 0) l).
  { apply map_ext_in. intros x Hx. rewrite Forall_forall in F.
    unfold Entry.explicit_priority. now rewrite (F x Hx). }
  rewrite M. destruct l as [| x l]; [reflexivity |]. cbn [map max_default].
  clear. induction l as [| y l IH]; [reflexivity | exact IH].
Qed.

Lemma filter_all {A} (f : A -> bool) (l : list A) :
  Forall (fun x => f x = true) l -> filter f l = l.
Proof.
  induction l as [| x l IH]; intros F; [reflexivity |].
  inversion F as [| ? ? Hx Hl]; subst. cbn. now rewrite Hx, IH.
Qed.

Section SamePath.

Variable path : Path.

Hypothesis path_nan_free : nan_free_path path = true.
Hypothesis path_hashable : hashable_path path = true.
Hypothesis path_not_empty : path <> [].

Local Abbreviation n := (length path).
Local Abbreviation entry_of w :=
  (Entry.new path (effective_priority w) (fst w) ANY false).
Local Abbreviation E w := (implicit_entry_for (entry_of w)).
Local Abbreviation row ws j := (map (fun w => E w j) ws).
Local Abbreviation rows f :=
  (map (fun j => (firstn j path, f j)) (seq 1 n)).
Local Abbreviation table ws := (rows (fun j => row ws j)).

(** Each prefix finds its own row. *)
Lemma Store_find_rows (f : nat -> list Entry) (m : nat) :
  forall a j : nat,
  (a <= j < a + m)%nat -> (a + m <= S n)%nat ->
  Store_find (map (fun j => (firstn j path, f j)) (seq a m)) (firstn j path)
  = Some (f j).
Proof.
  induction m as [| m IH]; intros a j Hj Hn; [lia |].
  cbn [seq map Store_find].
  destruct (Nat.eq_dec a j) as [-> | Hne].
  - unfold Path_eqb. rewrite parts_eqb_refl; [reflexivity |].
    now apply nan_free_path_firstn.
  - unfold Path_eqb. rewrite parts_eqb_length_neq
      by (rewrite !length_firstn; lia).
    apply IH; lia.
Qed.

Lemma table_find (f : nat -> list Entry) (j : nat) :
  (1 <= j <= n)%nat -> Store_find (rows f) (firstn j path) = Some (f j).
Proof. intros H. apply Store_find_rows; lia. Qed.

(** One more entry for every prefix. *)
Lemma append_rows (f : nat -> list Entry) (e : nat -> Entry) (m : nat) :
  forall (a : nat) (d1 : Store),
  (a + m <= S n)%nat ->
  (forall j, (a <= j < a + m)%nat -> Entry.path (e j) = firstn j path) ->
  (forall kv j, In kv d1 -> (a <= j < a + m)%nat ->
                Path_eqb (fst kv) (firstn j path) = false) ->
  fold_left (fun d x => Store_append d (Entry.path x) x)
            (map e (seq a m))
            (d1 ++ map (fun j => (firstn j path, f j)) (seq a m))
  = d1 ++ map (fun j => (firstn j path, f j ++ [e j])) (seq a m).
Proof.
  induction m as [| m IH]; intros a d1 Hn Hp Hd; [reflexivity |].
  cbn [seq map fold_left].
  rewrite (Hp a) by lia.
  rewrite Store_append_skip by (intros kv Hkv; apply (Hd kv a Hkv); lia).
  cbn [Store_append]. unfold Path_eqb at 1.
  rewrite parts_eqb_refl by now apply nan_free_path_firstn.
  change (d1 ++ (firstn a path, f a ++ [e a])
             :: map (fun j => (firstn j path, f j)) (seq (S a) m))
    with (d1 ++ [(firstn a path, f a ++ [e a])]
             ++ map (fun j => (firstn j path, f j)) (seq (S a) m)).
  rewrite app_assoc, IH; [now rewrite <- app_assoc | lia | | ].
  - intros j Hj. apply Hp. lia.
  - intros kv j Hkv Hj. apply in_app_or in Hkv as [Hkv | [<- | []]].
    + apply (Hd kv j Hkv). lia.
    + cbn [fst]. unfold Path_eqb. apply parts_eqb_length_neq.
      rewrite !length_firstn. lia.
Qed.

Lemma entry_of_fields (w : Value * option Z) :
  Entry.path (entry_of w) = path
  /\ Entry.priority (entry_of w) = effective_priority w
  /\ Entry.value (entry_of w) = fst w
  /\ Entry.implicit (entry_of w) = false.
Proof. apply new_fields. Qed.

Lemma implicit_entries_seq (w : Value * option Z) :
  Entry.get_implicit_entries (entry_of w) = map (E w) (seq 1 n).
Proof.
  rewrite get_implicit_entries_map.
  destruct (entry_of_fields w) as [-> _].
  assert (Hn : exists m, n = S m).
  { clear - path_not_empty. destruct path; [congruence | eexists; reflexivity]. }
  destruct Hn as [m Hn]. rewrite Hn.
  replace (S m - 1)%nat with m by lia.
  rewrite (seq_S m 1), map_app. cbn [map]. f_equal. f_equal.
  change (1 + m)%nat with (S m). rewrite <- Hn. symmetry. apply E_last.
Qed.

Lemma E_row_path (w : Value * option Z) (j : nat) :
  (j <= n)%nat -> Entry.path (E w j) = firstn j path.
Proof. apply E_path. Qed.

(** The store after the writes. *)
Lemma after_writes_store (ws : list (Value * option Z)) :
  ws <> [] ->
  Forall (fun w => effective_priority w <= 7) ws ->
  after_writes path ws = mkConfiguration (table ws) 7.
Proof.
  unfold after_writes.
  induction ws as [| w ws IH] using rev_ind; intros Hne F; [congruence |].
  apply Forall_app in F as [F Fw]. inversion Fw as [| ? ? Hw _]; subst.
  rewrite fold_left_app. cbn [fold_left].
  unfold after_add_entry at 1, add_entry. cbv zeta.
  assert (A : active_priority
                (fold_left
                   (fun self w0 => after_add_entry self path (fst w0) (snd w0))
                   ws Configuration_init) = 7).
  { destruct ws as [| w0 ws0]; [reflexivity |].
    now rewrite IH by (try discriminate; exact F). }
  rewrite A.
  change (or_default (snd w) 7) with (effective_priority w).
  destruct (Z.leb_spec (effective_priority w) 7) as [_ | L]; [| lia].
  cbn [negb snd]. unfold with_entries. rewrite A. f_equal.
  rewrite implicit_entries_seq.
  destruct ws as [| w0 ws0].
  - cbn [fold_left entries_by_path Configuration_init app].
    rewrite fold_append_distinct;
      [| reflexivity | apply stored_distinct; lia].
    cbn [app]. rewrite map_map. apply map_ext_in.
    intros j Hj. apply in_seq in Hj. now rewrite E_row_path by lia.
  - rewrite IH by (try discriminate; exact F). cbn [entries_by_path].
    pose proof (@append_rows (fun j => row (w0 :: ws0) j) (E w) n 1 [])
      as R.
    cbn [app] in R. rewrite R.
    + apply map_ext. intros j. now rewrite map_app.
    + lia.
    + intros j Hj. apply E_row_path. lia.
    + intros kv j [].
Qed.

(** ** What is resolved for a prefix and for the path *)

Lemma merge_placeholder (j : nat) (t : Node) (a b : Entry) :
  (t = DICT \/ t = LIST_OR_DICT) ->
  placeholder path j t a -> placeholder path j t b ->
  exists r, Entry.merge a b = Ok r /\ placeholder path j t r.
Proof.
  intros Ht (Pa & Va & Ta & Ia & La) (Pb & Vb & Tb & Ib & Lb).
  unfold Entry.merge. rewrite Pa, Pb. unfold Path_eqb.
  rewrite parts_eqb_refl by now apply nan_free_path_firstn.
  cbn [negb]. rewrite Va, Vb, Ta, Tb, Ia, Ib. cbn [andb].
  assert (Tt : Node_and t t = t) by (destruct Ht; subst; reflexivity).
  rewrite Tt.
  eexists. split; [reflexivity |].
  rewrite new_not_ANY by (destruct Ht; subst; discriminate).
  unfold placeholder.
  cbn [Entry.path Entry.value Entry.type Entry.implicit Entry.priority].
  repeat split; try reflexivity; [now destruct (_ >=? _) | lia].
Qed.

Lemma merge_loop_placeholder (j : nat) (t : Node) (stack : list Entry) :
  (t = DICT \/ t = LIST_OR_DICT) ->
  forall result,
  placeholder path j t result -> Forall (placeholder path j t) stack ->
  exists r, merge_loop result stack = Ok r /\ placeholder path j t r.
Proof.
  intros Ht. induction stack as [| next stack IH]; intros result P F.
  - exists result. now split.
  - inversion F as [| ? ? Pn Fs]; subst. cbn [merge_loop].
    destruct P as (Pa & Va & Ta & Ia & La) eqn:Ep. rewrite Ia.
    destruct (merge_placeholder Ht P Pn) as [merged [-> Pm]]. cbn [bind].
    now apply IH.
Qed.

Lemma E_placeholder (w : Value * option Z) (j : nat) (k : Key) :
  nth_error path j = Some k ->
  0 <= effective_priority w ->
  placeholder path j (if isinstance_int k then LIST_OR_DICT else DICT) (E w j).
Proof.
  intros Hk L. pose proof (@key_hashable path path_hashable _ _ Hk) as U.
  assert (Sl : isinstance_slice k = false)
    by (destruct k; auto; discriminate).
  unfold implicit_entry_for. destruct (entry_of_fields w) as [-> [-> _]].
  rewrite Hk, Sl. unfold placeholder.
  cbn [Entry.path Entry.value Entry.type Entry.implicit Entry.priority].
  now repeat split.
Qed.

(** The entries of a prefix resolve to a placeholder. *)
Lemma resolve_row_inner (ws : list (Value * option Z)) (j : nat) :
  ws <> [] ->
  Forall (fun w => 0 <= effective_priority w) ws ->
  (1 <= j < n)%nat ->
  exists r,
    resolve (row ws j) 0 = Ok r
    /\ Entry.value r = VDict [] /\ Entry.type r <> 0%N
    /\ 0 <= Entry.priority r.
Proof.
  intros Hne F Hj.
  destruct (@nth_error_path_lt path j) as [k Hk]; [lia |].
  set (t := if isinstance_int k then LIST_OR_DICT else DICT).
  assert (Ht : t = DICT \/ t = LIST_OR_DICT)
    by (unfold t; destruct (isinstance_int k); auto).
  assert (P : Forall (placeholder path j t) (row ws j)).
  { apply Forall_forall. intros x Hx. apply in_map_iff in Hx as [w [<- Hw]].
    rewrite Forall_forall in F. apply E_placeholder; auto. }
  unfold resolve. cbv zeta.
  rewrite filter_all.
  2:{ eapply Forall_impl; [| exact P]. intros x (_ & _ & _ & _ & L).
      rewrite Z.geb_leb. now apply Z.leb_le. }
  assert (Q : Forall (placeholder path j t)
                     (rev (sorted Entry.priority (row ws j)))).
  { apply Forall_forall. intros x Hx. apply in_rev in Hx.
    apply (proj1 (sorted_In Entry.priority x (row ws j))) in Hx.
    rewrite Forall_forall in P. now apply P. }
  destruct (rev (sorted Entry.priority (row ws j))) as [| result stack] eqn:R.
  - exfalso. destruct ws as [| w ws]; [congruence |].
    assert (Hin : In (E w j) (rev (sorted Entry.priority (row (w :: ws) j)))).
    { apply in_rev. rewrite rev_involutive.
      apply (proj2 (sorted_In Entry.priority _ _)). now left. }
    rewrite R in Hin. destruct Hin.
  - inversion Q as [| ? ? Pr Ps]; subst.
    destruct (merge_loop_placeholder Ht Pr Ps) as [r [-> (_ & V & T & _ & L)]].
    exists r. split; [reflexivity |]. split; [exact V |].
    split; [| exact L]. rewrite T.
    destruct Ht as [Et | Et]; rewrite Et; discriminate.
Qed.

(** The entries of the path resolve to the last write of greatest
    priority. *)
Lemma resolve_row_last (before after : list (Value * option Z))
    (w : Value * option Z) :
  Forall (fun x => effective_priority x <= effective_priority w) before ->
  Forall (fun x => effective_priority x < effective_priority w) after ->
  0 <= effective_priority w ->
  resolve (row (before ++ w :: after) n) 0 = Ok (entry_of w).
Proof.
  intros Fb Fa L.
  assert (R : forall ws, row ws n = map (fun x => entry_of x) ws).
  { intros ws. apply map_ext. intros x. apply E_last. }
  rewrite R, map_app. cbn [map].
  destruct (entry_of_fields w) as (_ & Pw & _ & Iw).
  apply resolve_last_highest; [| | exact Iw | now rewrite Pw].
  - apply Forall_forall. intros e He. apply in_map_iff in He as [x [<- Hx]].
    rewrite Forall_forall in Fb. rewrite Pw.
    destruct (entry_of_fields x) as (_ & -> & _). now apply Fb.
  - apply Forall_forall. intros e He. apply in_map_iff in He as [x [<- Hx]].
    rewrite Forall_forall in Fa. rewrite Pw.
    destruct (entry_of_fields x) as (_ & -> & _). now apply Fa.
Qed.

Variable ws : list (Value * option Z).
Variable ceiling : Z.

Hypothesis ws_floor : Forall (fun w => 0 <= effective_priority w) ws.

Local Abbreviation c := (mkConfiguration (table ws) ceiling).

Lemma get_entry_row (j : nat) (r : Entry) :
  (1 <= j <= n)%nat ->
  resolve (row ws j) 0 = Ok r ->
  Entry.type r <> 0%N ->
  get_entry_for_priority c (firstn j path) 0 = (Ok r, c).
Proof.
  intros Hj R T. unfold get_entry_for_priority. cbn [entries_by_path].
  rewrite (@Store_getitem_found _ _ _ (table_find _ Hj)), R. cbn [bind].
  unfold Node_bool. destruct (N.eqb_spec (Entry.type r) 0);
    [contradiction | reflexivity].
Qed.

Lemma write_access_row (j : nat) (priority : Z) :
  (1 <= j <= n)%nat -> 0 <= priority ->
  check_write_access c (firstn j path) priority = (true, c).
Proof.
  intros Hj L. unfold check_write_access. cbn [entries_by_path].
  rewrite check_write_access_loop_granted; [reflexivity |].
  apply Forall_forall. intros q Hq.
  apply In_proper_prefixes in Hq as [i [Hi ->]].
  rewrite length_firstn in Hi. rewrite firstn_firstn.
  replace (Nat.min i j) with i by lia.
  exists (row ws i). split; [apply table_find; lia |].
  rewrite max_default_zeros; [exact L |].
  destruct (@nth_error_path_lt path i) as [k Hk]; [lia |].
  apply Forall_forall. intros x Hx. apply in_map_iff in Hx as [w [<- Hw]].
  pose proof ws_floor as WF. rewrite Forall_forall in WF.
  now destruct (@E_placeholder w i k Hk (WF _ Hw)) as (_ & _ & _ & I & _).
Qed.

Variable v : Value.
Variable winner : Entry.

Hypothesis ws_not_empty : ws <> [].
Hypothesis winner_resolved : resolve (row ws n) 0 = Ok winner.
Hypothesis winner_value : Entry.value winner = v.
Hypothesis winner_type : Entry.type winner <> 0%N.
Hypothesis winner_priority : 0 <= Entry.priority winner.

(** The loop of [to_dict] builds the chain of dicts, key by key. *)
Lemma to_dict_loop_rows (m : nat) :
  forall i : nat,
  (i + S m = n)%nat ->
  to_dict_loop c 0 (map (fun j => firstn j path) (seq (S i) (S m)))
               (nest (firstn i path) (VDict []))
  = (Ok (nest path v), c).
Proof.
  induction m as [| m IH]; intros i H.
  - cbn [seq map to_dict_loop].
    assert (Ei : S i = n) by lia.
    rewrite (@get_entry_row (S i) winner);
      [| lia | now rewrite Ei | exact winner_type].
    rewrite write_access_row by (try lia; exact winner_priority).
    rewrite winner_value.
    destruct (@nth_error_path_lt path i) as [k Hk]; [lia |].
    rewrite (firstn_snoc _ _ Hk).
    rewrite setitem_nest;
      [| now apply nan_free_path_firstn
       | now apply firstn_forallb | eapply key_hashable; eauto].
    rewrite <- (firstn_snoc _ _ Hk).
    now rewrite firstn_all2 by lia.
  - cbn [seq map to_dict_loop].
    destruct (@resolve_row_inner ws (S i) ws_not_empty ws_floor)
      as [r [R [V [T L]]]]; [lia |].
    rewrite (@get_entry_row (S i) r); [| lia | exact R | exact T].
    rewrite write_access_row by (try lia; exact L).
    rewrite V.
    destruct (@nth_error_path_lt path i) as [k Hk]; [lia |].
    rewrite (firstn_snoc _ _ Hk) at 1.
    rewrite setitem_nest;
      [| now apply nan_free_path_firstn
       | now apply firstn_forallb | eapply key_hashable; eauto].
    rewrite <- (firstn_snoc _ _ Hk).
    apply (IH (S i)). lia.
Qed.

Lemma prefixes_compatible (restrict : Path) :
  is_prefix_of restrict path = true ->
  filter (fun k => is_compatible_with restrict k) (Store_keys (table ws))
  = map (fun j => firstn j path) (seq 1 n).
Proof.
  intros Hr. unfold Store_keys. rewrite map_map. cbn [fst].
  apply forallb_filter_id. apply forallb_forall. intros q Hq.
  apply in_map_iff in Hq as [j [<- Hj]]. apply in_seq in Hj.
  rewrite is_prefix_of_firstn in Hr.
  pose proof (parts_eqb_length _ _ Hr) as Lr. rewrite length_firstn in Lr.
  rewrite is_compatible_with_firstn, length_firstn.
  rewrite firstn_firstn.
  set (m := Nat.min (length restrict) (Nat.min j n)).
  replace (Nat.min m j) with m by lia.
  assert (Hm : (m <= length restrict)%nat) by lia.
  clearbody m.
  revert Hr Hm. generalize (length restrict) at 1 as len.
  clear. revert path m.
  induction restrict as [| x r IH]; intros path m len Hr Hm.
  - cbn in Hm. assert (m = 0)%nat as -> by lia. reflexivity.
  - destruct m as [| m]; [reflexivity |].
    destruct len as [| len]; [destruct path; discriminate |].
    destruct path as [| y path]; [discriminate |].
    cbn [firstn parts_eqb] in *.
    apply andb_true_iff in Hr as [Hx Hr]. rewrite Hx. cbn [andb].
    apply (IH path m len Hr). cbn in Hm. lia.
Qed.

Lemma to_dict_rows (restrict : Path) :
  is_prefix_of restrict path = true ->
  to_dict c restrict 0 = (Ok (nest path v), c).
Proof.
  intros Hr. unfold to_dict. cbn [entries_by_path].
  rewrite (prefixes_compatible _ Hr), keys_sorted.
  assert (Hn : exists m, n = S m).
  { clear - path_not_empty. destruct path; [congruence | eexists; reflexivity]. }
  destruct Hn as [m Hn].
  pose proof (@to_dict_loop_rows m 0%nat) as L.
  cbn [firstn nest] in L. rewrite <- Hn in L. apply L. lia.
Qed.

End SamePath.

(** X13.  Writes to one path on a new configuration: the last write of
    greatest priority is read back.  For a path that is not empty, whose
    keys are hashable and hold no NaN, and writes whose priorities
    (omitted ones count as the ceiling 7) lie between 0 and 7, pick the
    write that no earlier write outranks and that outranks every later
    one: [to_dict()] is then the nested dict that holds its value at the
    path and nothing else, and [get_value(path)] returns its value. *)
Theorem writes_read_back
    (path : Path) (before after : list (Value * option Z))
    (w : Value * option Z) :
  path <> [] ->
  nan_free_path path = true ->
  hashable_path path = true ->
  Forall (fun x => 0 <= effective_priority x <= 7) (before ++ w :: after) ->
  Forall (fun x => effective_priority x <= effective_priority w) before ->
  Forall (fun x => effective_priority x < effective_priority w) after ->
  let self := after_writes path (before ++ w :: after) in
  fst (to_dict self [] 0) = Ok (nest path (fst w))
  /\ fst (get_value self path) = Ok (fst w).
Proof.
  intros Hne N H F Fb Fa. cbv zeta.
  assert (F0 : Forall (fun x => 0 <= effective_priority x)
                      (before ++ w :: after)).
  { eapply Forall_impl; [| exact F]. cbn. intros; lia. }
  assert (F7 : Forall (fun x => effective_priority x <= 7)
                      (before ++ w :: after)).
  { eapply Forall_impl; [| exact F]. cbn. intros; lia. }
  assert (Hw : 0 <= effective_priority w).
  { rewrite Forall_forall in F0. apply F0. apply in_or_app. right. now left. }
  assert (Hws : before ++ w :: after <> []) by (destruct before; discriminate).
  rewrite (@after_writes_store path N Hne _ Hws F7).
  pose proof (@resolve_row_last path before after w Fb Fa Hw) as R.
  destruct (new_fields path (effective_priority w) (fst w) ANY false)
    as (_ & P & V & _).
  destruct (E_last path (fst w) (effective_priority w)) as (_ & _ & _ & T).
  assert (D : forall restrict,
              is_prefix_of restrict path = true ->
              to_dict (mkConfiguration
                         (map (fun j =>
                                 (firstn j path,
                                  map (fun x =>
                                         implicit_entry_for
                                           (Entry.new path
                                              (effective_priority x)
                                              (fst x) ANY false) j)
                                      (before ++ w :: after)))
                              (seq 1 (length path))) 7) restrict 0
              = (Ok (nest path (fst w)),
                 mkConfiguration
                   (map (fun j =>
                           (firstn j path,
                            map (fun x =>
                                   implicit_entry_for
                                     (Entry.new path (effective_priority x)
                                        (fst x) ANY false) j)
                                (before ++ w :: after)))
                        (seq 1 (length path))) 7)).
  { intros restrict Hr.
    apply (@to_dict_rows path N H Hne (before ++ w :: after) 7 F0 (fst w)
             (Entry.new path (effective_priority w) (fst w) ANY false)
             Hws R V T); [| exact Hr].
    now rewrite P. }
  split.
  - rewrite D; [reflexivity |]. unfold is_prefix_of. now destruct path.
  - unfold get_value. rewrite D.
    + cbn [fst]. now apply getitem_nest.
    + rewrite is_prefix_of_firstn, firstn_all. now apply parts_eqb_refl.
Qed.

Lemma writes_read_back_witness :
  fst (to_dict
         (after_writes [KStr "a"; KInt 0]
            ([(vint 1, Some 5); (vint 2, None)] ++ (vint 3, None)
               :: [(vint 4, Some 6)])) [] 0)
  = Ok (VDict [(KStr "a", VDict [(KInt 0, vint 3)])])
  /\ fst (get_value
            (after_writes [KStr "a"; KInt 0]
               ([(vint 1, Some 5); (vint 2, None)] ++ (vint 3, None)
                  :: [(vint 4, Some 6)])) [KStr "a"; KInt 0])
     = Ok (vint 3).
Proof.
  apply (@writes_read_back [KStr "a"; KInt 0]
           [(vint 1, Some 5); (vint 2, None)] [(vint 4, Some 6)]
           (vint 3, None)).
  - discriminate.
  - reflexivity.
  - reflexivity.
  - repeat constructor; cbn; lia.
  - repeat constructor; cbn; lia.
  - repeat constructor; cbn; lia.
Defined.

(** ** Write access and priority *)

(** X29.  Write access grows with the priority: a path that
    [check_write_access] opens for a priority is open for every higher
    priority, and one that it closes for a priority is closed for every
    lower one. *)
Theorem check_write_access_monotone
    (self : Configuration) (path : Path) (low high : Z) :
  low <= high ->
  (fst (check_write_access self path low) = true ->
   fst (check_write_access self path high) = true)
  /\ (fst (check_write_access self path high) = false ->
      fst (check_write_access self path low) = false).
Proof.
  intros L.
  assert (D : fst (check_write_access self path high) = false ->
              fst (check_write_access self path low) = false).
  { intros H. apply check_write_access_false in H as [i [Hi H]].
    apply check_write_access_false. exists i. split; [exact Hi |].
    cbv zeta in *. destruct H as [[e [He H]] | [Hs H]].
    - left. exists e. split; [exact He | lia].
    - right. split; [exact Hs | lia]. }
  split; [| exact D].
  intros H. destruct (fst (check_write_access self path high)) eqn:E;
    [reflexivity |].
  rewrite D in H by reflexivity. discriminate.
Qed.

Lemma check_write_access_monotone_witness :
  (fst (check_write_access cfg_closed [KStr "a"; KStr "b"] 6) = true ->
   fst (check_write_access cfg_closed [KStr "a"; KStr "b"] 7) = true)
  /\ (fst (check_write_access cfg_closed [KStr "a"; KStr "b"] 7) = false ->
      fst (check_write_access cfg_closed [KStr "a"; KStr "b"] 6) = false).
Proof.
  apply (@check_write_access_monotone cfg_closed [KStr "a"; KStr "b"] 6 7).
  lia.
Defined.

(* ================================================================== *)
(** * Further properties of the text of a path *)
(* ================================================================== *)

Local Open Scope string_scope.

Lemma span_split (p : ascii -> bool) (s tok rest : string) :
  span p s = (tok, rest) ->
  s = tok ++ rest /\ forall_chars p tok = true.
Proof.
  unfold forall_chars. revert tok rest.
  induction s as [| c s IH]; intros tok rest; cbn [span].
  - intros [= <- <-]. now split.
  - destruct (p c) eqn:Hc.
    + destruct (span p s) as [tok' rest'] eqn:E. intros [= <- <-].
      destruct (IH tok' rest' eq_refl) as [-> Hall]. cbn.
      now rewrite Hc, Hall.
    + intros [= <- <-]. now split.
Qed.

Lemma one_or_more_split (p : ascii -> bool) (s tok rest : string) :
  one_or_more p s = Some (tok, rest) ->
  s = tok ++ rest /\ forall_chars p tok = true /\ tok <> "".
Proof.
  unfold one_or_more. destruct (span p s) as [tok' rest'] eqn:E.
  destruct tok' as [| c tok']; [discriminate |]. intros [= <- <-].
  apply span_split in E as [-> Hall]. now repeat split.
Qed.

(** X14.  What [Path.from_str] can return starts with a name: a parse
    of a text gives the empty path only for the empty text, and
    otherwise a path whose first key is a string, the longest run of
    word characters that the text begins with.  No text is read as a
    path that begins with an integer, a slice or any other key. *)
Theorem from_str_first_key
    (float_of_str : string -> option spec_float)
    (complex_of_str : string -> option (spec_float * spec_float))
    (text : string) (p : Path) :
  from_str_may_be float_of_str complex_of_str text p ->
  match p with
  | [] => text = ""
  | KStr tok :: _ =>
      tok <> "" /\ forall_chars is_word tok = true
      /\ exists rest, text = tok ++ rest /\ stops is_word rest
  | _ :: _ => False
  end.
Proof.
  intros [children [Hp Ht]]. inversion Hp as [| s tok rest ch Hid Hseg]; subst.
  - cbn in Ht. now injection Ht as <-.
  - cbn [transform_path transform_child] in Ht.
    destruct (transform_path float_of_str complex_of_str ch);
      [| discriminate].
    injection Ht as <-.
    unfold IDENTIFIER, one_or_more in Hid.
    destruct (span is_word text) as [tok' rest'] eqn:E.
    assert (St : stops is_word rest').
    { clear - E. revert tok' rest' E.
      induction text as [| c s IH]; intros tok' rest'; cbn [span].
      - intros [= <- <-]. exact I.
      - destruct (is_word c) eqn:Hc.
        + destruct (span is_word s) as [t r] eqn:Es. intros [= <- <-].
          now apply (IH t).
        + intros [= <- <-]. exact Hc. }
    apply span_split in E as [-> Hall].
    destruct tok' as [| c tok']; [discriminate |].
    injection Hid as <- <-.
    split; [discriminate |]. split; [exact Hall |]. now exists rest'.
Qed.

Lemma from_str_first_key_witness :
  from_str_may_be (fun _ => None) (fun _ => None) "ab[0]"
    [KStr "ab"; KInt 0]
  /\ "ab" <> "" /\ forall_chars is_word "ab" = true
  /\ exists rest, "ab[0]" = "ab" ++ rest /\ stops is_word rest.
Proof.
  assert (H : from_str_may_be (fun _ => None) (fun _ => None) "ab[0]"
                [KStr "ab"; KInt 0]).
  { exists [c_identifier "ab"; c_key (t_integer "0")]. split; [| reflexivity].
    apply pp_identifier with (rest := "[0]"); [reflexivity |].
    apply pg_item with (s1 := "0]") (s2 := "]") (rest := "");
      [reflexivity | | reflexivity | apply pg_end].
    apply pk_integer. apply pi_dec. reflexivity. }
  split; [exact H |].
  apply (@from_str_first_key (fun _ => None) (fun _ => None) "ab[0]"
           [KStr "ab"; KInt 0] H).
Defined.

(** X15.  [repr] tells paths of text keys apart: two paths that are
    empty or start with an identifier, and whose further keys are
    identifiers or quotable strings, have the same [repr] only when they
    are the same path. *)
Theorem Path_repr_injective
    (str_float : spec_float -> string)
    (str_complex : spec_float -> spec_float -> string)
    (p q : Path) :
  text_path p = true ->
  text_path q = true ->
  Path_repr str_float str_complex p = Path_repr str_float str_complex q ->
  p = q.
Proof.
  intros Hp Hq E.
  destruct (text_path_round_trip str_float str_complex
              (fun _ => None) (fun _ => None) p Hp) as [[children Hc] Hall].
  destruct (text_path_round_trip str_float str_complex
              (fun _ => None) (fun _ => None) q Hq) as [_ Hallq].
  pose proof (Hall children Hc) as T1.
  rewrite E in Hc. pose proof (Hallq children Hc) as T2.
  congruence.
Qed.

Lemma Path_repr_injective_witness :
  Path_repr (fun _ => "") (fun _ _ => "") [KStr "a"; KStr "b c"] = "a['b c']"
  /\ [KStr "a"; KStr "b c"] = [KStr "a"; KStr "b c"].
Proof.
  split; [reflexivity |].
  apply (@Path_repr_injective (fun _ => "") (fun _ _ => "")
           [KStr "a"; KStr "b c"] [KStr "a"; KStr "b c"]); reflexivity.
Defined.

Local Open Scope list_scope.
Local Open Scope Z_scope.

Local Open Scope string_scope.

Lemma join_empty_app (l1 l2 : list string) :
  join "" (l1 ++ l2) = join "" l1 ++ join "" l2.
Proof.
  induction l1 as [| x l1 IH]; [reflexivity |].
  change ((x :: l1) ++ l2)%list with (x :: (l1 ++ l2))%list.
  now rewrite !join_empty_cons, IH, append_assoc.
Qed.

(** X30.  The text of a concatenation.  For a path [a] that is not
    empty, [repr(a + b)] is [repr(a)] followed by the formatted keys of
    [b]: only a dot at the very start of the text is left out. *)
Theorem Path_repr_add
    (str_float : spec_float -> string)
    (str_complex : spec_float -> spec_float -> string)
    (a b : Path) :
  a <> [] ->
  Path_repr str_float str_complex (Path_add a b)
  = Path_repr str_float str_complex a
    ++ join "" (map (format_part str_float str_complex) b).
Proof.
  intros Hne. unfold Path_repr, Path_add. cbv zeta.
  rewrite map_app, join_empty_app.
  destruct a as [| k a]; [congruence |].
  cbn [map]. rewrite join_empty_cons.
  assert (F : exists c r, format_part str_float str_complex k = String c r).
  { destruct k as [s | | | | | | | start stop step];
      cbn [format_part]; try (eexists; eexists; reflexivity).
    destruct (isidentifier s); eexists; eexists; reflexivity. }
  destruct F as [c [r ->]]. cbn [append].
  destruct c as [[] [] [] [] [] [] [] []]; reflexivity.
Qed.

Lemma Path_repr_add_witness :
  Path_repr (fun _ => "") (fun _ _ => "")
    (Path_add [KStr "a"; KInt 0] [KStr "b"; KStr "c d"])
  = Path_repr (fun _ => "") (fun _ _ => "") [KStr "a"; KInt 0]
    ++ join "" (map (format_part (fun _ => "") (fun _ _ => ""))
                    [KStr "b"; KStr "c d"]).
Proof.
  apply (@Path_repr_add (fun _ => "") (fun _ _ => "")
           [KStr "a"; KInt 0] [KStr "b"; KStr "c d"]).
  discriminate.
Defined.

Local Open Scope list_scope.
Local Open Scope Z_scope.

(* ================================================================== *)
(** * Membership and deletion by path *)
(* ================================================================== *)

Lemma track_outcome_Done {A} (self : Path) (body : Outcome A) (a : A) :
  track_outcome self body = Done a <-> body = Done a.
Proof.
  unfold track_outcome. destruct body as [x | f p]; [tauto |].
  destruct (tracked f); split; discriminate.
Qed.

Lemma unhashable_slice (k : Key) :
  unhashable k = false -> isinstance_slice k = false.
Proof. destruct k; auto; discriminate. Qed.

(** A read by path, one key at a time. *)
Lemma getitem_cons (self : Value) (first : Key) (rest : Path) (v : Value) :
  PathMixin_getitem self (first :: rest) = Ok v <->
  exists entry,
    builtin_getitem self first = Ok entry /\
    match rest with
    | [] => v = entry
    | _ :: _ =>
        has_path_access first entry = true /\
        PathMixin_getitem entry rest = Ok v
    end.
Proof.
  cbn [PathMixin_getitem]. rewrite track_errors_Ok, bind_Ok.
  split; intros [entry [G H]]; exists entry; (split; [exact G |]).
  - destruct rest; [now injection H as -> |].
    destruct (has_path_access first entry); [now split | discriminate].
  - destruct rest; [now subst |]. destruct H as [-> H]. exact H.
Qed.

Lemma contains_atom (a : Key) (key : Path) :
  contains (VAtom a) key <> Done true.
Proof. destruct key; cbn; destruct a; discriminate. Qed.

(** A membership test that holds, one key at a time. *)
Lemma contains_cons (self : Value) (first : Key) (rest : Path) :
  contains self (first :: rest) = Done true <->
  exists entry,
    builtin_getitem self first = Ok entry /\
    match rest with
    | [] => True
    | _ :: _ =>
        has_path_access first entry = true /\
        contains entry rest = Done true
    end.
Proof.
  assert (Seq : forall (self : Value),
            (match builtin_getitem self first with
             | Raise e =>
                 match exn_class e with
                 | IndexError => Done false
                 | c => Fails (Builtin c) (exn_path e)
                 end
             | Ok sub_item =>
                 match rest with
                 | [] => Done true
                 | _ :: _ =>
                     if isinstance_slice first then Done false
                     else
                       match contains sub_item rest with
                       | Fails AttributeError _ => Done false
                       | Fails (Builtin IndexError) _ => Done false
                       | outcome => outcome
                       end
                 end
             end = Done true <->
             exists entry,
               builtin_getitem self first = Ok entry /\
               match rest with
               | [] => True
               | _ :: _ =>
                   has_path_access first entry = true /\
                   contains entry rest = Done true
               end)).
  { intros s. destruct (builtin_getitem s first) as [x | e].
    - destruct rest as [| r rest].
      + split; [intros _; now exists x | reflexivity].
      + unfold has_path_access. destruct (isinstance_slice first).
        * split; [discriminate |].
          intros [entry [[= <-] [H _]]]. destruct x; discriminate.
        * split.
          -- intros H. exists x. split; [reflexivity |].
             destruct (contains x (r :: rest)) as [b | f p] eqn:E.
             ++ injection H as ->. split; [| reflexivity].
                destruct x; [| reflexivity ..].
                now apply contains_atom in E.
             ++ destruct f as [| []]; discriminate.
          -- intros [entry [[= <-] [_ H]]]. now rewrite H.
    - split; [destruct (exn_class e); discriminate |].
      intros [entry [[=] _]]. }
  destruct self as [a | t | l | items].
  - split; [intros H; now apply contains_atom in H |].
    intros [entry [[=] _]].
  - cbn [contains]. rewrite track_outcome_Done. apply Seq.
  - cbn [contains]. rewrite track_outcome_Done. apply Seq.
  - cbn [contains builtin_getitem]. rewrite track_outcome_Done.
    destruct (unhashable first) eqn:U.
    + split; [discriminate | intros [entry [[=] _]]].
    + destruct (dict_find items first) as [item |].
      * destruct rest as [| r rest].
        -- split; [intros _; now exists item | reflexivity].
        -- split.
           ++ intros H. exists item. split; [reflexivity |].
              split; [| exact H]. unfold has_path_access.
              rewrite (unhashable_slice _ U).
              destruct item; [| reflexivity ..].
              now apply contains_atom in H.
           ++ intros [entry [[= <-] [_ H]]]. exact H.
      * split; [discriminate | intros [entry [[=] _]]].
Qed.

(** X16.  Membership agrees with reading: for a path that is not empty,
    [key in d] is true exactly when [d[key]] returns an item.  In every
    other case [d[key]] raises, and [key in d] is false or raises
    itself. *)
Theorem contains_iff_getitem (rest : Path) :
  forall (self : Value) (first : Key),
  contains self (first :: rest) = Done true <->
  exists v, PathMixin_getitem self (first :: rest) = Ok v.
Proof.
  induction rest as [| r rest IH]; intros self first;
    rewrite contains_cons.
  - split.
    + intros [entry [G _]]. exists entry. apply getitem_cons. now exists entry.
    + intros [v H]. apply getitem_cons in H as [entry [G _]]. now exists entry.
  - split.
    + intros [entry [G [A H]]]. apply IH in H as [v H].
      exists v. apply getitem_cons. exists entry. auto.
    + intros [v H]. apply getitem_cons in H as [entry [G [A H]]].
      exists entry. split; [exact G |]. split; [exact A |].
      apply IH. now exists v.
Qed.

Lemma track_outcome_AttributeError {A} (key : Path) (body : Outcome A)
    (p : option Path) :
  track_outcome key body = Fails AttributeError p ->
  exists p0,
    body = Fails AttributeError p0 /\
    p = Some match p0 with
             | None => Path_upto key 1
             | Some q => Path_add (Path_upto key 1) q
             end.
Proof.
  unfold track_outcome. destruct body as [x | f p0]; [discriminate |].
  destruct f as [| c]; cbn [tracked].
  - intros [= <-]. now exists p0.
  - destruct c; discriminate.
Qed.

(** A list or tuple turns the AttributeError of an item into [False]. *)
Lemma contains_sequence_no_AttributeError (self : Value) (key : Path)
    (p : option Path) :
  (exists l, self = VList l \/ self = VTuple l) ->
  contains self key <> Fails AttributeError p.
Proof.
  intros [l [-> | ->]]; destruct key as [| first rest]; cbn [contains];
    try discriminate; intros H;
    apply track_outcome_AttributeError in H as [p0 [H _]];
    (match type of H with
     | context [builtin_getitem ?s first] =>
         destruct (builtin_getitem s first) as [x | e]
     end;
     [ destruct rest as [| r rest]; [discriminate |];
       destruct (isinstance_slice first); [discriminate |];
       destruct (contains x (r :: rest)) as [b | [| []] q]; discriminate
     | destruct (exn_class e); discriminate ]).
Qed.

(** X17.  The AttributeError of a membership test.  When [key in d]
    raises an AttributeError for a dict, list or tuple [d], then [d] is
    a dict, the error carries a proper prefix of the key, and that
    prefix reads a scalar of [d] that is no string: the test went
    through dicts to an item that has no [__contains__], with keys
    left.  A list or tuple never lets the error out. *)
Theorem contains_attribute_error (key : Path) :
  forall (d : Value) (p : option Path),
  is_container d = true ->
  contains d key = Fails AttributeError p ->
  (exists items, d = VDict items)
  /\ exists (n : nat) (a : Key),
       (1 <= n < length key)%nat
       /\ p = Some (firstn n key)
       /\ PathMixin_getitem d (firstn n key) = Ok (VAtom a)
       /\ isinstance_str a = false.
Proof.
  induction key as [| first rest IH]; intros d p C H.
  - destruct d as [a | t | l | items]; discriminate.
  - destruct d as [a | t | l | items]; [discriminate | | |].
    + exfalso. revert H. apply contains_sequence_no_AttributeError. eauto.
    + exfalso. revert H. apply contains_sequence_no_AttributeError. eauto.
    + split; [eauto |].
      cbn [contains] in H.
      apply track_outcome_AttributeError in H as [p0 [H ->]].
      rewrite Path_upto_1.
      destruct (unhashable first) eqn:U; [discriminate |].
      destruct (dict_find items first) as [item |] eqn:F; [| discriminate].
      destruct rest as [| r rest]; [discriminate |].
      assert (G : builtin_getitem (VDict items) first = Ok item).
      { cbn [builtin_getitem]. now rewrite U, F. }
      destruct item as [a | t | l | inner].
      * (* the item is a scalar *)
        exists 1%nat, a. cbn [length firstn]. split; [lia |].
        assert (p0 = None /\ isinstance_str a = false) as [-> Sa].
        { cbn in H. destruct a; try discriminate;
            injection H as <-; now split. }
        split; [reflexivity |]. split; [| exact Sa].
        apply getitem_cons. exists (VAtom a). now split.
      * exfalso. revert H. apply contains_sequence_no_AttributeError. eauto.
      * exfalso. revert H. apply contains_sequence_no_AttributeError. eauto.
      * apply IH in H as [_ [n [a [Hn [-> [Gn Sa]]]]]]; [| reflexivity].
        exists (S n), a. split; [cbn [length] in *; lia |].
        split; [reflexivity |]. split; [| exact Sa].
        cbn [firstn]. apply getitem_cons. exists (VDict inner).
        split; [exact G |].
        destruct (firstn n (r :: rest)) eqn:E.
        -- destruct n; [lia | discriminate].
        -- split; [| exact Gn]. unfold has_path_access.
           now rewrite (unhashable_slice _ U).
Qed.

Lemma contains_attribute_error_witness :
  contains (VDict [(KStr "a", VDict [(KStr "b", VAtom (KInt 1))])])
    [KStr "a"; KStr "b"; KStr "c"]
  = Fails AttributeError (Some [KStr "a"; KStr "b"])
  /\ (exists items,
        VDict [(KStr "a", VDict [(KStr "b", VAtom (KInt 1))])] = VDict items)
  /\ exists (n : nat) (a : Key),
       (1 <= n < length [KStr "a"; KStr "b"; KStr "c"])%nat
       /\ Some [KStr "a"; KStr "b"]
          = Some (firstn n [KStr "a"; KStr "b"; KStr "c"])
       /\ PathMixin_getitem
            (VDict [(KStr "a", VDict [(KStr "b", VAtom (KInt 1))])])
            (firstn n [KStr "a"; KStr "b"; KStr "c"]) = Ok (VAtom a)
       /\ isinstance_str a = false.
Proof.
  split; [reflexivity |].
  apply (@contains_attribute_error [KStr "a"; KStr "b"; KStr "c"]
           (VDict [(KStr "a", VDict [(KStr "b", VAtom (KInt 1))])])
           (Some [KStr "a"; KStr "b"])); reflexivity.
Defined.

(** The two membership tests, one key at a time. *)
Lemma contains_dict_eq (items : list (Key * Value)) (first : Key)
    (rest : Path) :
  contains (VDict items) (first :: rest) =
  track_outcome (first :: rest)
    (if unhashable first then Fails (Builtin TypeError) None
     else
       match dict_find items first with
       | None => Done false
       | Some item =>
           match rest with
           | [] => Done true
           | _ :: _ => contains item rest
           end
       end).
Proof. reflexivity. Qed.

Lemma contains_list_eq (l : list Value) (first : Key) (rest : Path) :
  contains (VList l) (first :: rest) =
  track_outcome (first :: rest)
    (match builtin_getitem (VList l) first with
     | Raise e =>
         match exn_class e with
         | IndexError => Done false
         | c => Fails (Builtin c) (exn_path e)
         end
     | Ok sub_item =>
         match rest with
         | [] => Done true
         | _ :: _ =>
             if isinstance_slice first then Done false
             else
               match contains sub_item rest with
               | Fails AttributeError _ => Done false
               | Fails (Builtin IndexError) _ => Done false
               | outcome => outcome
               end
         end
     end).
Proof. reflexivity. Qed.

(** ** Deleting what was written *)

Lemma dict_remove_set_fresh (items : list (Key * Value)) (k : Key)
    (v : Value) :
  dict_find items k = None ->
  Key_eqb k k = true ->
  dict_remove (dict_set items k v) k = items.
Proof.
  intros F R. induction items as [| [k' v'] items IH]; cbn in *.
  - now rewrite R.
  - destruct (Key_eqb k' k) eqn:E; [discriminate |].
    cbn. rewrite E. now rewrite IH.
Qed.

Lemma dict_set_back (items : list (Key * Value)) (k : Key) (u w : Value) :
  dict_find items k = Some u ->
  dict_set (dict_set items k w) k u = items.
Proof.
  induction items as [| [k' v'] items IH]; cbn; [discriminate |].
  destruct (Key_eqb k' k) eqn:E; cbn; rewrite E.
  - now intros [= ->].
  - intros F. now rewrite IH.
Qed.

Lemma list_set_back {A} (l : list A) (n : nat) (u w : A) :
  nth_error l n = Some u -> list_set (list_set l n w) n u = l.
Proof.
  revert n. induction l as [| x l IH]; intros [| n]; cbn;
    try discriminate.
  - now intros [= ->].
  - intros H. now rewrite IH.
Qed.

(** Writing back the item that a key held restores the container. *)
Lemma builtin_setitem_back (d d' : Value) (k : Key) (u w : Value) :
  builtin_setitem d k w = Ok d' ->
  isinstance_slice k = false ->
  builtin_getitem d k = Ok u ->
  builtin_setitem d' k u = Ok d.
Proof.
  intros H S G. destruct d as [a | t | l | items]; cbn in H; try discriminate.
  - destruct k; try discriminate; cbn in H, G |- *;
      match type of H with
      | context [sequence_index ?n ?i] =>
          destruct (sequence_index n i) as [j |] eqn:E; [| discriminate]
      end;
      injection H as <-; cbn; rewrite list_set_length, E;
      (destruct (nth_error l j) eqn:N; [| discriminate]);
      injection G as <-; now rewrite list_set_back.
  - cbn in G. destruct (unhashable k) eqn:U; [discriminate |].
    injection H as <-. cbn. rewrite U.
    destruct (dict_find items k) eqn:F; [| discriminate].
    injection G as <-. now rewrite dict_set_back.
Qed.

Lemma list_setslice_getslice (l : list Value) (start stop step : option Z)
    (v : Value) (items : list Value) :
  list_setslice l start stop step v = Ok items ->
  exists read, sequence_getslice l start stop step = Ok read.
Proof.
  unfold list_setslice, sequence_getslice. intros H.
  apply bind_Ok in H as [[[[a b] c] n] [-> _]]. cbn. eauto.
Qed.

(** A key that was assigned with success and was not there before is
    the key of a dict, and deleting it gives the dict back. *)
Lemma builtin_setitem_delitem (d d' : Value) (k : Key) (v : Value) :
  builtin_setitem d k v = Ok d' ->
  contains d [k] = Done false ->
  Key_eqb k k = true ->
  builtin_delitem d' k = Ok d.
Proof.
  intros H C R. destruct d as [a | t | l | items]; cbn in H; try discriminate.
  - exfalso. cbn [contains] in C. apply track_outcome_Done in C.
    assert (G : exists x, builtin_getitem (VList l) k = Ok x).
    { destruct k; try discriminate; cbn in H |- *;
        try (match type of H with
             | context [sequence_index ?n ?i] =>
                 destruct (sequence_index n i) as [j |] eqn:E;
                 [| discriminate]
             end;
             pose proof (sequence_index_lt _ _ E) as Lt;
             destruct (nth_error l j) eqn:N;
             [eauto | apply nth_error_None in N; lia]).
      apply bind_Ok in H as [items [H _]].
      apply list_setslice_getslice in H as [read ->]. cbn. eauto. }
    destruct G as [x G]. rewrite G in C. discriminate.
  - destruct (unhashable k) eqn:U; [discriminate |].
    injection H as <-. cbn [contains] in C. apply track_outcome_Done in C.
    rewrite U in C. destruct (dict_find items k) eqn:F; [discriminate |].
    cbn [builtin_delitem]. rewrite U, dict_find_dict_set_same by exact R.
    now rewrite dict_remove_set_fresh.
Qed.

(** An assignment that succeeds goes where a membership test answers. *)
Lemma setitem_contains_Done (key : Path) :
  forall (d d' v : Value),
  PathMixin_setitem d key v = Ok d' ->
  exists b, contains d key = Done b.
Proof.
  induction key as [| first rest IH]; intros d d' v H;
    cbn [PathMixin_setitem] in H; apply track_errors_Ok in H;
    [discriminate |].
  destruct rest as [| r rest].
  - destruct d as [a | t | l | items]; cbn in H; try discriminate.
    + cbn [contains].
      assert (G : exists x, builtin_getitem (VList l) first = Ok x).
      { destruct first; try discriminate; cbn in H |- *;
          try (match type of H with
               | context [sequence_index ?n ?i] =>
                   destruct (sequence_index n i) as [j |] eqn:E;
                   [| discriminate]
               end;
               pose proof (sequence_index_lt _ _ E) as Lt;
               destruct (nth_error l j) eqn:N;
               [eauto | apply nth_error_None in N; lia]).
        apply bind_Ok in H as [items [H _]].
        apply list_setslice_getslice in H as [read ->]. cbn. eauto. }
      destruct G as [x ->]. cbn. eauto.
    + cbn [contains]. destruct (unhashable first); [discriminate |].
      destruct (dict_find items first); cbn; eauto.
  - apply bind_Ok in H as [u [G H]].
    assert (Hu : isinstance_slice first = false /\
                 exists w, PathMixin_setitem u (r :: rest) v = Ok w /\
                           builtin_setitem d first w = Ok d').
    { destruct u; try discriminate;
        (destruct (isinstance_slice first); [discriminate |]);
        apply bind_Ok in H as [w [H1 H2]]; split; eauto. }
    destruct Hu as [S [w [H1 H2]]].
    destruct (IH _ _ _ H1) as [b Hb].
    destruct d as [a | t | l | items]; try discriminate.
    + rewrite contains_list_eq, G, S, Hb. cbn. eauto.
    + rewrite contains_dict_eq. cbn [builtin_getitem] in G.
      destruct (unhashable first); [discriminate |].
      destruct (dict_find items first); [| discriminate].
      injection G as ->. rewrite Hb. cbn. eauto.
Qed.

(** X18.  Deleting undoes a write to a new key: when [d[key] = value]
    succeeds for a key without NaN that was not in [d] before ([key in
    d] was false), [del d[key]] on the updated container succeeds and
    gives [d] back as it was. *)
Theorem setitem_delitem (key : Path) :
  forall (d d' v : Value),
  PathMixin_setitem d key v = Ok d' ->
  contains d key = Done false ->
  nan_free_path key = true ->
  delitem d' key = Done d.
Proof.
  induction key as [| first rest IH]; intros d d' v H C N.
  - cbn in H. discriminate.
  - pose proof (PathMixin_setitem_kind _ _ _ H) as [M K].
    cbn [PathMixin_setitem] in H. apply track_errors_Ok in H.
    unfold recursive_path_conversion in H.
    unfold nan_free_path in N. cbn [forallb] in N.
    apply andb_true_iff in N as [Nf Nr].
    pose proof (Key_eqb_refl first Nf) as R.
    assert (D : delitem d' (first :: rest) =
                track_outcome (first :: rest)
                  (match rest with
                   | [] => of_result (builtin_delitem d' first)
                   | _ :: _ =>
                       match builtin_getitem d' first with
                       | Raise e => of_result (Raise e : Result Value)
                       | Ok item =>
                           if isinstance_slice first
                           then Fails (Builtin TypeError) None
                           else
                             match delitem item rest with
                             | Done item' =>
                                 of_result (builtin_setitem d' first item')
                             | Fails f path => Fails f path
                             end
                       end
                   end)).
    { destruct d; try discriminate; destruct d'; try discriminate;
        reflexivity. }
    rewrite D. apply track_outcome_Done.
    destruct rest as [| r rest].
    + now rewrite (@builtin_setitem_delitem _ _ _ _ H C R).
    + apply bind_Ok in H as [u [G H]].
      assert (Hu : isinstance_slice first = false /\
                   exists w, PathMixin_setitem u (r :: rest) v = Ok w /\
                             builtin_setitem d first w = Ok d').
      { destruct u; try discriminate;
          (destruct (isinstance_slice first); [discriminate |]);
          apply bind_Ok in H as [w [H1 H2]]; split; eauto. }
      destruct Hu as [S [w [H1 H2]]].
      assert (Cu : contains u (r :: rest) = Done false).
      { destruct (setitem_contains_Done _ _ _ H1) as [b Hb].
        destruct d as [a | t | l | items]; try discriminate.
        - rewrite contains_list_eq in C. apply track_outcome_Done in C.
          rewrite G, S, Hb in C. now rewrite Hb, C.
        - rewrite contains_dict_eq in C. apply track_outcome_Done in C.
          cbn [builtin_getitem] in G.
          destruct (unhashable first); [discriminate |].
          destruct (dict_find items first); [| discriminate].
          now injection G as ->. }
      rewrite (@builtin_setitem_getitem _ _ _ _ H2 S R), S.
      rewrite (IH _ _ _ H1 Cu Nr).
      now rewrite (@builtin_setitem_back _ _ _ _ _ H2 S G).
Qed.

Lemma setitem_delitem_witness :
  PathMixin_setitem (VDict [(KStr "a", VList [VDict []])])
    [KStr "a"; KInt 0; KStr "b"] (vint 1)
  = Ok (VDict [(KStr "a", VList [VDict [(KStr "b", vint 1)]])])
  /\ delitem (VDict [(KStr "a", VList [VDict [(KStr "b", vint 1)]])])
       [KStr "a"; KInt 0; KStr "b"]
     = Done (VDict [(KStr "a", VList [VDict []])]).
Proof.
  split; [reflexivity |].
  apply (@setitem_delitem [KStr "a"; KInt 0; KStr "b"]
           (VDict [(KStr "a", VList [VDict []])]) _ (vint 1));
    reflexivity.
Defined.

Lemma getitem_eq (self : Value) (first : Key) (rest : Path) :
  PathMixin_getitem self (first :: rest) =
  track_errors (first :: rest)
    (entry <- builtin_getitem self first ;;
     match rest with
     | [] => Ok entry
     | _ :: _ =>
         if has_path_access first entry
         then PathMixin_getitem entry rest
         else Raise (exn TypeError not_subscriptable)
     end).
Proof. reflexivity. Qed.

(** ** Deleting a key *)

Lemma delitem_eq (d : Value) (first : Key) (rest : Path) :
  is_mutable d = true ->
  delitem d (first :: rest) =
  track_outcome (first :: rest)
    (match rest with
     | [] => of_result (builtin_delitem d first)
     | _ :: _ =>
         match builtin_getitem d first with
         | Raise e => of_result (Raise e : Result Value)
         | Ok item =>
             if isinstance_slice first
             then Fails (Builtin TypeError) None
             else
               match delitem item rest with
               | Done item' => of_result (builtin_setitem d first item')
               | Fails f path => Fails f path
               end
         end
     end).
Proof. destruct d; try discriminate; reflexivity. Qed.

Lemma of_result_Done {A} (r : Result A) (a : A) :
  of_result r = Done a <-> r = Ok a.
Proof.
  destruct r; cbn; split; try discriminate; now intros [= ->].
Qed.

Lemma builtin_delitem_kind (d d' : Value) (k : Key) :
  builtin_delitem d k = Ok d' ->
  is_mutable d = true /\ same_kind d d' = true.
Proof.
  intros H. destruct d as [a | t | l | items]; cbn in H; try discriminate.
  - destruct k; cbn in H; try discriminate;
      try (match type of H with
           | context [sequence_index ?n ?i] =>
               destruct (sequence_index n i); [| discriminate]
           end; injection H as <-; now split).
    apply bind_Ok in H as [x [_ [= <-]]]. now split.
  - destruct (unhashable k); [discriminate |].
    destruct (dict_find items k); [| discriminate].
    injection H as <-. now split.
Qed.

Lemma delitem_kind (key : Path) (d d' : Value) :
  delitem d key = Done d' ->
  is_mutable d = true /\ same_kind d d' = true.
Proof.
  intros H.
  assert (M : is_mutable d = true) by (destruct d, key; auto; discriminate).
  split; [exact M |].
  destruct key as [| first rest].
  - destruct d; discriminate.
  - rewrite delitem_eq in H by exact M. apply track_outcome_Done in H.
    destruct rest as [| r rest].
    + apply of_result_Done in H. now apply builtin_delitem_kind in H.
    + destruct (builtin_getitem d first) as [item |]; [| discriminate].
      destruct (isinstance_slice first); [discriminate |].
      destruct (delitem item (r :: rest)) as [item' |]; [| discriminate].
      apply of_result_Done in H. now apply builtin_setitem_kind in H.
Qed.

Lemma Key_eqb_str (k : Key) (s : string) :
  Key_eqb k (KStr s) = true -> k = KStr s.
Proof.
  destruct k; cbn; try discriminate.
  intros H. apply String.eqb_eq in H. now subst.
Qed.

(** Once a string key is removed from a dict of pairwise different
    keys, it is not found any more. *)
Lemma dict_find_remove (items : list (Key * Value)) (s : string) :
  unique_keys items ->
  dict_find (dict_remove items (KStr s)) (KStr s) = None.
Proof.
  induction items as [| [k v] items IH]; cbn [unique_keys dict_remove];
    [reflexivity |].
  intros [F U]. destruct (Key_eqb k (KStr s)) eqn:E.
  - apply Key_eqb_str in E. now subst.
  - cbn [dict_find]. rewrite E. now apply IH.
Qed.

(** X19.  A deleted key is gone.  When [del d[p + Path(name)]] succeeds
    for a string [name], where the keys of [p] hold no NaN and [d[p]] is
    a dict (its keys pairwise different, as in every dict), the path is
    no longer in the updated container, and reading it raises a KeyError
    for [name] that carries the whole path. *)
Theorem delitem_removes (p : Path) :
  forall (d d' : Value) (name : string) (items : list (Key * Value)),
  delitem d (Path_add p [KStr name]) = Done d' ->
  nan_free_path p = true ->
  PathMixin_getitem d p = Ok (VDict items) ->
  unique_keys items ->
  contains d' (Path_add p [KStr name]) = Done false
  /\ PathMixin_getitem d' (Path_add p [KStr name])
     = Raise (mkExn KeyError (missing_key (KStr name))
                    (Some (Path_add p [KStr name]))).
Proof.
  unfold Path_add.
  induction p as [| first rest IH]; intros d d' name items H N G U.
  - cbn in G. injection G as ->. cbn [app] in *.
    rewrite delitem_eq in H by reflexivity.
    apply track_outcome_Done, of_result_Done in H.
    cbn [builtin_delitem unhashable] in H.
    destruct (dict_find items (KStr name)); [| discriminate].
    injection H as <-.
    pose proof (@dict_find_remove items name U) as F.
    split.
    + rewrite contains_dict_eq. cbn [unhashable]. now rewrite F.
    + cbn [PathMixin_getitem builtin_getitem unhashable]. rewrite F.
      cbn [bind track_errors exn exn_class exn_message exn_path].
      now rewrite Path_upto_1.
  - pose proof (delitem_kind _ _ H) as [M K].
    cbn [app] in *. rewrite delitem_eq in H by exact M.
    apply track_outcome_Done in H.
    unfold nan_free_path in N. cbn [forallb] in N.
    apply andb_true_iff in N as [Nf Nr].
    pose proof (Key_eqb_refl first Nf) as R.
    destruct (rest ++ [KStr name]) as [| r rk] eqn:E;
      [destruct rest; discriminate |].
    destruct (builtin_getitem d first) as [item |] eqn:Gi; [| discriminate].
    destruct (isinstance_slice first) eqn:S; [discriminate |].
    destruct (delitem item (r :: rk)) as [item' |] eqn:Di; [| discriminate].
    apply of_result_Done in H.
    pose proof (delitem_kind _ _ Di) as [Mi Ki].
    assert (Gr : PathMixin_getitem item rest = Ok (VDict items)).
    { apply getitem_cons in G as [entry [Ge G]].
      rewrite Gi in Ge. injection Ge as <-.
      destruct rest; [now subst | now destruct G]. }
    rewrite <- E in Di.
    destruct (IH item item' name items Di Nr Gr U) as [C1 C2].
    rewrite E in C1, C2.
    pose proof (@builtin_setitem_getitem _ _ _ _ H S R) as G'.
    assert (A : has_path_access first item' = true).
    { unfold has_path_access. rewrite S.
      destruct item, item'; try discriminate; reflexivity. }
    split.
    + destruct d' as [a | t | l | its];
        [destruct d; discriminate | destruct d; discriminate | |].
      * rewrite contains_list_eq, G', S, C1. reflexivity.
      * rewrite contains_dict_eq. cbn [builtin_getitem] in G'.
        destruct (unhashable first); [discriminate |].
        destruct (dict_find its first); [| discriminate].
        injection G' as ->. now rewrite C1.
    + rewrite getitem_eq, G'. cbn [bind]. rewrite A, C2.
      cbn [track_errors exn_class exn_message exn_path].
      now rewrite Path_upto_1.
Qed.

Lemma delitem_removes_witness :
  delitem (VDict [(KStr "lol", VDict [(KStr "rofl", vint 42)])])
    (Path_add [KStr "lol"] [KStr "rofl"])
  = Done (VDict [(KStr "lol", VDict [])])
  /\ contains (VDict [(KStr "lol", VDict [])])
       (Path_add [KStr "lol"] [KStr "rofl"]) = Done false
  /\ PathMixin_getitem (VDict [(KStr "lol", VDict [])])
       (Path_add [KStr "lol"] [KStr "rofl"])
     = Raise (mkExn KeyError (missing_key (KStr "rofl"))
                    (Some (Path_add [KStr "lol"] [KStr "rofl"]))).
Proof.
  split; [reflexivity |].
  apply (@delitem_removes [KStr "lol"]
           (VDict [(KStr "lol", VDict [(KStr "rofl", vint 42)])])
           (VDict [(KStr "lol", VDict [])]) "rofl"
           [(KStr "rofl", vint 42)]).
  - reflexivity.
  - reflexivity.
  - reflexivity.
  - cbn. auto.
Defined.

(** ** Assignments and the other keys *)

Lemma dict_find_set_other (items : list (Key * Value)) (s s' : string)
    (x : Value) :
  s <> s' ->
  dict_find (dict_set items (KStr s) x) (KStr s')
  = dict_find items (KStr s').
Proof.
  intros Hne.
  assert (E : Key_eqb (KStr s) (KStr s') = false)
    by (cbn; now apply String.eqb_neq).
  induction items as [| [k0 v0] items IH]; cbn [dict_set dict_find].
  - now rewrite E.
  - destruct (Key_eqb k0 (KStr s)) eqn:E0; cbn [dict_find].
    + apply Key_eqb_str in E0. subst k0. now rewrite E.
    + destruct (Key_eqb k0 (KStr s')); [reflexivity | exact IH].
Qed.

(** An assignment under a string key changes no other string key of the
    container. *)
Lemma builtin_setitem_other (d d' : Value) (s s' : string) (x : Value) :
  builtin_setitem d (KStr s) x = Ok d' ->
  s <> s' ->
  builtin_getitem d' (KStr s') = builtin_getitem d (KStr s').
Proof.
  intros H Hne. destruct d as [a | t | l | items]; cbn in H; try discriminate.
  injection H as <-. cbn [builtin_getitem unhashable].
  now rewrite dict_find_set_other.
Qed.

Lemma has_path_access_same_kind (k : Key) (u w : Value) :
  same_kind u w = true -> has_path_access k w = has_path_access k u.
Proof. destruct u, w; cbn; congruence. Qed.

(** X27.  An assignment does not disturb what is stored under another
    name.  When [d[p + (s, ...)] = value] succeeds, with a string key
    [s] after keys [p] without NaN, then for any other string [s'] and
    any keys after it, reading [p + (s', ...)] from the updated
    container gives what it gave before: the same item, or the same
    error with the same path. *)
Theorem setitem_other_key (p : Path) :
  forall (d d' v : Value) (s s' : string) (rest q : Path),
  PathMixin_setitem d (Path_add p (KStr s :: rest)) v = Ok d' ->
  s <> s' ->
  nan_free_path p = true ->
  PathMixin_getitem d' (Path_add p (KStr s' :: q))
  = PathMixin_getitem d (Path_add p (KStr s' :: q)).
Proof.
  unfold Path_add.
  induction p as [| first p IH]; intros d d' v s s' rest q H Hne N;
    cbn [app] in *.
  - rewrite !getitem_eq.
    cbn [PathMixin_setitem] in H. apply track_errors_Ok in H.
    assert (G : exists x, builtin_setitem d (KStr s) x = Ok d').
    { destruct rest as [| r rest]; [eauto |].
      apply bind_Ok in H as [u [_ H]].
      destruct u; try discriminate; cbn [isinstance_slice] in H;
        apply bind_Ok in H as [w [_ H]]; eauto. }
    destruct G as [x G].
    now rewrite (@builtin_setitem_other d d' s s' x G Hne).
  - unfold nan_free_path in N. cbn [forallb] in N.
    apply andb_true_iff in N as [Nf Np].
    pose proof (Key_eqb_refl first Nf) as R.
    cbn [PathMixin_setitem] in H. apply track_errors_Ok in H.
    destruct (p ++ KStr s :: rest) as [| r rk] eqn:E;
      [destruct p; discriminate |].
    apply bind_Ok in H as [u [G H]].
    assert (Hu : isinstance_slice first = false /\
                 exists w, PathMixin_setitem u (r :: rk) v = Ok w /\
                           builtin_setitem d first w = Ok d').
    { unfold recursive_path_conversion in H.
      destruct u; try discriminate;
        (destruct (isinstance_slice first); [discriminate |]);
        apply bind_Ok in H as [w [H1 H2]]; split; eauto. }
    destruct Hu as [S [w [H1 H2]]].
    rewrite <- E in H1.
    pose proof (IH u w v s s' rest q H1 Hne Np) as I.
    destruct (PathMixin_setitem_kind _ _ _ H1) as [_ K].
    rewrite !getitem_eq.
    rewrite (@builtin_setitem_getitem _ _ _ _ H2 S R), G. cbn [bind].
    destruct (p ++ KStr s' :: q) as [| r' rq] eqn:E';
      [destruct p; discriminate |].
    now rewrite (@has_path_access_same_kind first u w K), I.
Qed.

Lemma setitem_other_key_witness :
  PathMixin_setitem
    (VDict [(KStr "a", VDict [(KStr "b", vint 1); (KStr "c", vint 2)])])
    (Path_add [KStr "a"] [KStr "b"]) (vint 9)
  = Ok (VDict [(KStr "a", VDict [(KStr "b", vint 9); (KStr "c", vint 2)])])
  /\ PathMixin_getitem
       (VDict [(KStr "a", VDict [(KStr "b", vint 9); (KStr "c", vint 2)])])
       (Path_add [KStr "a"] [KStr "c"])
     = PathMixin_getitem
         (VDict [(KStr "a", VDict [(KStr "b", vint 1); (KStr "c", vint 2)])])
         (Path_add [KStr "a"] [KStr "c"]).
Proof.
  split; [reflexivity |].
  apply (@setitem_other_key [KStr "a"]
           (VDict [(KStr "a", VDict [(KStr "b", vint 1); (KStr "c", vint 2)])])
           _ (vint 9) "b" "c" [] []).
  - reflexivity.
  - discriminate.
  - reflexivity.
Defined.

(** ** Assigning twice *)

Lemma dict_set_twice (items : list (Key * Value)) (k : Key) (x y : Value) :
  Key_eqb k k = true ->
  dict_set (dict_set items k x) k y = dict_set items k y.
Proof.
  intros R. induction items as [| [k0 v0] items IH]; cbn [dict_set].
  - now rewrite R.
  - destruct (Key_eqb k0 k) eqn:E; cbn [dict_set]; rewrite E;
      [reflexivity | now rewrite IH].
Qed.

Lemma list_set_twice {A} (l : list A) (n : nat) (x y : A) :
  list_set (list_set l n x) n y = list_set l n y.
Proof.
  revert n. induction l as [| z l IH]; intros [| n]; cbn; try reflexivity.
  now rewrite IH.
Qed.

Lemma builtin_setitem_twice (d d1 : Value) (k : Key) (x y : Value) :
  builtin_setitem d k x = Ok d1 ->
  isinstance_slice k = false ->
  Key_eqb k k = true ->
  builtin_setitem d1 k y = builtin_setitem d k y.
Proof.
  intros H S R. destruct d as [a | t | l | items]; cbn in H; try discriminate.
  - destruct k; try discriminate; cbn in H |- *;
      match type of H with
      | context [sequence_index ?n ?i] =>
          destruct (sequence_index n i) as [j |] eqn:E; [| discriminate]
      end;
      injection H as <-; cbn; rewrite list_set_length, E;
      now rewrite list_set_twice.
  - destruct (unhashable k) eqn:U; [discriminate |].
    injection H as <-. cbn. rewrite U. now rewrite dict_set_twice.
Qed.

Lemma setitem_eq (self : Value) (first : Key) (rest : Path) (value : Value) :
  PathMixin_setitem self (first :: rest) value =
  track_errors (first :: rest)
    (match rest with
     | [] => builtin_setitem self first value
     | _ :: _ =>
         to_update <- builtin_getitem self first ;;
         match to_update with
         | VDict _ | VList _ =>
             if isinstance_slice first
             then Raise (exn TypeError (bad_index_type first))
             else
               updated <- PathMixin_setitem to_update rest value ;;
               builtin_setitem self first updated
         | VTuple _ | VAtom _ =>
             Raise (exn TypeError no_item_assignment)
         end
     end).
Proof. reflexivity. Qed.

(** X28.  The last assignment counts.  When [d[key] = first] succeeds,
    for a key without NaN whose last part is no slice, a second
    assignment [d[key] = second] leaves the container as if [second] had
    been assigned in the first place, and fails only if that would have
    failed. *)
Theorem setitem_twice (key : Path) :
  forall (d d1 v1 v2 : Value),
  PathMixin_setitem d key v1 = Ok d1 ->
  nan_free_path key = true ->
  isinstance_slice (last key KNone) = false ->
  PathMixin_setitem d1 key v2 = PathMixin_setitem d key v2.
Proof.
  induction key as [| first rest IH]; intros d d1 v1 v2 H N L.
  - cbn in H. discriminate.
  - unfold nan_free_path in N. cbn [forallb] in N.
    apply andb_true_iff in N as [Nf Nr].
    pose proof (Key_eqb_refl first Nf) as R.
    rewrite setitem_eq in H. apply track_errors_Ok in H.
    rewrite !setitem_eq. f_equal.
    destruct rest as [| r rest].
    + cbn in L. exact (@builtin_setitem_twice d d1 first v1 v2 H L R).
    + apply bind_Ok in H as [u [G H]].
      assert (Hu : isinstance_slice first = false /\
                   exists w, PathMixin_setitem u (r :: rest) v1 = Ok w /\
                             builtin_setitem d first w = Ok d1).
      { destruct u; try discriminate;
          (destruct (isinstance_slice first); [discriminate |]);
          apply bind_Ok in H as [w [H1 H2]]; split; eauto. }
      destruct Hu as [S [w [H1 H2]]].
      rewrite (@builtin_setitem_getitem _ _ _ _ H2 S R), G. cbn [bind].
      destruct (PathMixin_setitem_kind _ _ _ H1) as [_ K].
      pose proof (IH u w v1 v2 H1 Nr L) as I.
      destruct u, w; try discriminate; rewrite S, I;
        (match goal with
         | |- context [PathMixin_setitem ?x (r :: rest) v2] =>
             destruct (PathMixin_setitem x (r :: rest) v2) as [updated | e]
         end;
         [cbn [bind] | reflexivity]);
        apply (@builtin_setitem_twice d d1 first _ updated H2 S R).
Qed.

Lemma setitem_twice_witness :
  PathMixin_setitem (VDict [(KStr "a", VList [vint 1; vint 2])])
    [KStr "a"; KInt 1] (vint 7)
  = Ok (VDict [(KStr "a", VList [vint 1; vint 7])])
  /\ PathMixin_setitem (VDict [(KStr "a", VList [vint 1; vint 7])])
       [KStr "a"; KInt 1] (vint 8)
     = PathMixin_setitem (VDict [(KStr "a", VList [vint 1; vint 2])])
         [KStr "a"; KInt 1] (vint 8).
Proof.
  split; [reflexivity |].
  apply (@setitem_twice [KStr "a"; KInt 1]
           (VDict [(KStr "a", VList [vint 1; vint 2])]) _ (vint 7) (vint 8));
    reflexivity.
Defined.

(* ================================================================== *)
(** * Updating a dict *)
(* ================================================================== *)

Lemma dict_set_fresh (items : list (Key * Value)) (k : Key) (v : Value) :
  dict_find items k = None -> dict_set items k v = items ++ [(k, v)].
Proof.
  induction items as [| [k' v'] items IH]; cbn; [reflexivity |].
  destruct (Key_eqb k' k); [discriminate |]. intros H. now rewrite IH.
Qed.

Lemma dict_set_last (items : list (Key * Value)) (k : Key) (x y : Value) :
  dict_find items k = None ->
  Key_eqb k k = true ->
  dict_set (items ++ [(k, x)]) k y = items ++ [(k, y)].
Proof.
  intros F R. induction items as [| [k' v'] items IH]; cbn in *.
  - now rewrite R.
  - destruct (Key_eqb k' k); [discriminate |]. now rewrite IH.
Qed.

(** An assignment by path into a new, empty dict: one key is written,
    and with more keys the first of them is missing. *)
Lemma assign_item_empty (k : Key) (rest : Path) (v : Value) :
  unhashable k = false ->
  assign_item (VDict []) (k :: rest) v =
  match rest with
  | [] => Ok (VDict [(k, v)])
  | _ :: _ => Raise (mkExn KeyError (missing_key k) (Some [k]))
  end.
Proof.
  intros U. unfold assign_item. destruct rest as [| r rest].
  - cbn [PathMixin_setitem builtin_setitem recursive_path_conversion
         track_errors dict_set].
    now rewrite U.
  - cbn [PathMixin_setitem builtin_getitem dict_find bind].
    rewrite U. cbn [bind track_errors exn exn_class exn_message exn_path].
    now rewrite Path_upto_1.
Qed.

(** X20.  The default of an update creates one level only.  When
    [PathDict.__setitem__(key, value, PathDict)] gets a path whose first
    key (hashable, without NaN) is not in the dict, a path of two keys
    is written into a new dict under the first key; with more keys the
    call raises a KeyError for the second key, at the path of the first
    two keys, and leaves a new empty dict under the first key. *)
Theorem setitem_default_one_level
    (items : list (Key * Value)) (k1 k2 : Key) (rest : Path) (v : Value) :
  dict_find items k1 = None ->
  nan_free k1 = true ->
  unhashable k1 = false ->
  unhashable k2 = false ->
  PathDict_setitem_default items (k1 :: k2 :: rest) v =
  match rest with
  | [] => (Ok tt, items ++ [(k1, VDict [(k2, v)])])
  | _ :: _ =>
      (Raise (mkExn KeyError (missing_key k2) (Some [k1; k2])),
       items ++ [(k1, VDict [])])
  end.
Proof.
  intros F N U1 U2. pose proof (Key_eqb_refl k1 N) as R.
  unfold PathDict_setitem_default, recursive_path_conversion.
  rewrite U1, F, (@dict_set_fresh items k1 _ F).
  rewrite (@assign_item_empty k2 rest v U2).
  destruct rest as [| r rest].
  - cbn [track_errors]. now rewrite dict_set_last.
  - cbn [track_errors exn_class exn_message exn_path].
    now rewrite Path_upto_1.
Qed.

Lemma setitem_default_one_level_witness :
  PathDict_setitem_default [(KStr "x", vint 0)]
    [KStr "a"; KStr "b"; KStr "c"] (vint 1)
  = (Raise (mkExn KeyError (missing_key (KStr "b"))
                  (Some [KStr "a"; KStr "b"])),
     [(KStr "x", vint 0)] ++ [(KStr "a", VDict [])]).
Proof.
  apply (@setitem_default_one_level [(KStr "x", vint 0)]
           (KStr "a") (KStr "b") [KStr "c"] (vint 1)); reflexivity.
Defined.

(** Induction on a value, with the items of a container as smaller
    values. *)
Lemma Value_nested_ind (P : Value -> Prop) :
  (forall a, P (VAtom a)) ->
  (forall l, Forall P l -> P (VTuple l)) ->
  (forall l, Forall P l -> P (VList l)) ->
  (forall items, Forall (fun kv => P (snd kv)) items -> P (VDict items)) ->
  forall v, P v.
Proof.
  intros Ha Ht Hl Hd.
  fix IH 1. intros v.
  destruct v as [a | t | l | items]; [apply Ha | apply Ht | apply Hl | apply Hd].
  - induction t as [| x t IHt]; constructor; [apply IH | exact IHt].
  - induction l as [| x l IHl]; constructor; [apply IH | exact IHl].
  - induction items as [| [k x] items IHi]; constructor;
      [apply IH | exact IHi].
Qed.

Lemma insert_by_str_In {A} (key : A -> string) (x y : A) (l : list A) :
  In y (insert_by_str key x l) <-> y = x \/ In y l.
Proof.
  induction l as [| z l IH]; cbn.
  - intuition.
  - destruct (String.leb (key x) (key z)); cbn; [intuition |].
    rewrite IH. intuition.
Qed.

Lemma sorted_by_str_In {A} (key : A -> string) (y : A) (l : list A) :
  In y (sorted_by_str key l) <-> In y l.
Proof.
  unfold sorted_by_str. induction l as [| x l IH]; cbn; [tauto |].
  rewrite insert_by_str_In, IH. intuition.
Qed.

Lemma dict_find_In (items : list (Key * Value)) (k k0 : Key) (x : Value) :
  In (k, x) items -> Key_eqb k k0 = true -> dict_find items k0 <> None.
Proof.
  induction items as [| [k' x'] items IH]; cbn; [tauto |].
  intros [[= -> ->] | H] E.
  - now rewrite E.
  - destruct (Key_eqb k' k0); [discriminate | now apply IH].
Qed.

(** In a dict of pairwise different keys, each key finds its item. *)
Lemma dict_find_unique (items : list (Key * Value)) (k : Key) (x : Value) :
  unique_keys items ->
  In (k, x) items ->
  Key_eqb k k = true ->
  dict_find items k = Some x.
Proof.
  induction items as [| [k0 x0] items IH]; cbn [unique_keys dict_find In];
    [tauto |].
  intros [F U] [[= -> ->] | H] R.
  - now rewrite R.
  - destruct (Key_eqb k0 k) eqn:E; [| now apply IH].
    exfalso. rewrite Key_eqb_sym in E.
    now apply (@dict_find_In items k k0 x H E).
Qed.

Lemma well_keyed_dict (items : list (Key * Value)) (k : Key) (x : Value) :
  well_keyed (VDict items) ->
  In (k, x) items ->
  unique_keys items /\ nan_free k = true /\ unhashable k = false
  /\ well_keyed x.
Proof.
  cbn [well_keyed]. intros [U W] H. split; [exact U |]. clear U.
  induction items as [| [k0 x0] items IH]; [destruct H |].
  destruct W as [N [Hh [Wx W]]]. destruct H as [[= -> ->] | H]; auto.
Qed.

Lemma well_keyed_item (l : list Value) (x : Value) :
  (well_keyed (VList l) \/ well_keyed (VTuple l)) ->
  In x l -> well_keyed x.
Proof.
  intros W H.
  assert (A : (fix all (l : list Value) : Prop :=
                 match l with
                 | [] => True
                 | x :: l' => well_keyed x /\ all l'
                 end) l) by (destruct W as [W | W]; exact W).
  clear W. induction l as [| y l IH]; [destruct H |].
  destruct A as [Wy A]. destruct H as [-> | H]; auto.
Qed.

Lemma getitem_atom_nonempty (a : Key) (first : Key) (rest : Path) (v : Value) :
  PathMixin_getitem (VAtom a) (first :: rest) <> Ok v.
Proof.
  intros H. apply getitem_cons in H as [entry [H _]]. discriminate.
Qed.

Section Updates.

Variable str_float : spec_float -> string.
Variable str_complex : spec_float -> spec_float -> string.

Local Abbreviation flattened := (iterate_flattened str_float str_complex).

(** The one leaf of a chain of dicts. *)
Lemma iterate_flattened_nest (keys : list Key) (a : Key) :
  forall key : Path,
  flattened (nest keys (VAtom a)) key = [(key ++ keys, VAtom a)].
Proof.
  induction keys as [| k keys IH]; intros key; cbn [nest iterate_flattened].
  - now rewrite app_nil_r.
  - cbn [map sorted_by_str fold_right insert_by_str flat_map fst snd].
    rewrite IH, app_nil_r. unfold Path_add. now rewrite <- app_assoc.
Qed.

(** X21.  [recursive_update] does not recurse into dicts that are
    missing: for an update that holds one scalar under the keys [k1, k2,
    ...] (nested dicts, the keys hashable and without NaN) and a dict
    that lacks [k1], two keys are written into a new dict under [k1];
    with three or more keys the call raises the KeyError of [k2] at the
    path [k1, k2] and leaves an empty dict under [k1]. *)
Theorem recursive_update_depth
    (self : list (Key * Value)) (k1 k2 : Key) (rest : Path) (a : Key) :
  dict_find self k1 = None ->
  nan_free k1 = true ->
  unhashable k1 = false ->
  unhashable k2 = false ->
  recursive_update str_float str_complex self
    (nest (k1 :: k2 :: rest) (VAtom a)) [] =
  match rest with
  | [] => (Done tt, self ++ [(k1, VDict [(k2, VAtom a)])])
  | _ :: _ =>
      (Fails (Builtin KeyError) (Some [k1; k2]), self ++ [(k1, VDict [])])
  end.
Proof.
  intros F N U1 U2.
  unfold recursive_update, recursive_path_conversion, flat_items.
  cbn [nest truthy orb negb].
  change (VDict [(k1, VDict [(k2, nest rest (VAtom a))])])
    with (nest (k1 :: k2 :: rest) (VAtom a)).
  rewrite iterate_flattened_nest. cbn [app update_loop].
  unfold PathDict_setitem_default, recursive_path_conversion.
  rewrite U1, F, (@dict_set_fresh self k1 _ F).
  rewrite (@assign_item_empty k2 rest (VAtom a) U2).
  pose proof (Key_eqb_refl k1 N) as R.
  destruct rest as [| r rest].
  - cbn [track_errors update_loop of_result]. now rewrite dict_set_last.
  - cbn [track_errors exn_class exn_message exn_path of_result].
    now rewrite Path_upto_1.
Qed.

(** The leaves below the items of a list or tuple, from the index [i]
    on. *)
Lemma enumerate_In (key : Path) (l : list Value) :
  forall (i : nat) (p : Path) (v : Value),
  In (p, v)
     ((fix enumerate (l : list Value) (i : nat) : list (Path * Value) :=
         match l with
         | [] => []
         | value :: l' =>
             flattened value (Path_add key [KInt (Z.of_nat i)])
             ++ enumerate l' (S i)
         end) l i) ->
  exists (j : nat) (x : Value),
    nth_error l j = Some x
    /\ In (p, v) (flattened x (Path_add key [KInt (Z.of_nat (i + j))])).
Proof.
  induction l as [| y l IH]; intros i p v H; [destruct H |].
  apply in_app_or in H as [H | H].
  - exists 0%nat, y. rewrite Nat.add_0_r. now split.
  - apply IH in H as [j [x [Hj H]]]. exists (S j), x.
    rewrite Nat.add_succ_r. now split.
Qed.

Lemma builtin_getitem_index (self : Value) (l : list Value) (j : nat)
    (x : Value) :
  self = VList l \/ self = VTuple l ->
  nth_error l j = Some x ->
  builtin_getitem self (KInt (Z.of_nat j)) = Ok x.
Proof.
  intros S H.
  assert (Lt : (j < length l)%nat) by (apply nth_error_Some; congruence).
  assert (I : sequence_index (length l) (Z.of_nat j) = Some j).
  { unfold sequence_index. cbv zeta.
    destruct (Z.ltb_spec (Z.of_nat j) 0); [lia |].
    destruct (Z.leb_spec 0 (Z.of_nat j)); [| lia].
    destruct (Z.ltb_spec (Z.of_nat j) (Z.of_nat (length l))); [| lia].
    cbn. now rewrite Nat2Z.id. }
  destruct S as [-> | ->]; cbn [builtin_getitem index_of_key];
    now rewrite I, H.
Qed.

(** X22.  What [flat_items] yields can be read back.  For a value [d]
    whose dicts have hashable, pairwise different keys without NaN,
    every pair that [iterate_flattened(d, key)] yields is [key + q] with
    a scalar that [d[q]] returns; so every pair [(path, leaf)] of
    [d.flat_items()], where [key] is empty, has [d[path] == leaf]. *)
Theorem flat_items_readable :
  forall (d : Value) (key p : Path) (v : Value),
  well_keyed d ->
  In (p, v) (flattened d key) ->
  exists q,
    p = key ++ q /\ PathMixin_getitem d q = Ok v /\ is_container v = false.
Proof.
  induction d as [a | t IH | l IH | items IH] using Value_nested_ind;
    intros key p v W H.
  - cbn in H. destruct H as [[= <- <-] | []].
    exists []. now rewrite app_nil_r.
  - cbn [iterate_flattened] in H.
    apply enumerate_In in H as [j [x [Hj H]]]. cbn [Nat.add] in H.
    rewrite Forall_forall in IH.
    pose proof (nth_error_In _ _ Hj) as Hin.
    destruct (IH x Hin _ _ _ (@well_keyed_item _ _ (or_intror W) Hin) H)
      as [q [-> [G A]]].
    exists (KInt (Z.of_nat j) :: q). unfold Path_add.
    rewrite <- app_assoc. split; [reflexivity |]. split; [| exact A].
    apply getitem_cons. exists x.
    split; [eapply builtin_getitem_index; eauto |].
    destruct q as [| k q]; [cbn in G; congruence |].
    split; [| exact G].
    destruct x; [now apply getitem_atom_nonempty in G | reflexivity ..].
  - cbn [iterate_flattened] in H.
    apply enumerate_In in H as [j [x [Hj H]]]. cbn [Nat.add] in H.
    rewrite Forall_forall in IH.
    pose proof (nth_error_In _ _ Hj) as Hin.
    destruct (IH x Hin _ _ _ (@well_keyed_item _ _ (or_introl W) Hin) H)
      as [q [-> [G A]]].
    exists (KInt (Z.of_nat j) :: q). unfold Path_add.
    rewrite <- app_assoc. split; [reflexivity |]. split; [| exact A].
    apply getitem_cons. exists x.
    split; [eapply builtin_getitem_index; eauto |].
    destruct q as [| k q]; [cbn in G; congruence |].
    split; [| exact G].
    destruct x; [now apply getitem_atom_nonempty in G | reflexivity ..].
  - cbn [iterate_flattened] in H.
    apply in_flat_map in H as [[s leaves] [Hs H]]. cbn [snd] in H.
    apply sorted_by_str_In, in_map_iff in Hs as [[k x] [[= <- <-] Hin]].
    cbn [fst snd] in H.
    rewrite Forall_forall in IH.
    destruct (@well_keyed_dict _ _ _ W Hin) as [U [N [Hh Wx]]].
    destruct (IH (k, x) Hin _ _ _ Wx H) as [q [-> [G A]]].
    exists (k :: q). unfold Path_add.
    rewrite <- app_assoc. split; [reflexivity |]. split; [| exact A].
    apply getitem_cons. exists x. split.
    + cbn [builtin_getitem]. rewrite Hh.
      now rewrite (@dict_find_unique _ _ _ U Hin (Key_eqb_refl k N)).
    + destruct q as [| k' q]; [cbn in G; congruence |].
      split; [| exact G]. unfold has_path_access.
      rewrite (@unhashable_slice _ Hh).
      destruct x; [now apply getitem_atom_nonempty in G | reflexivity ..].
Qed.


End Updates.

Lemma recursive_update_depth_witness :
  recursive_update (fun _ => "") (fun _ _ => "") [(KStr "x", vint 0)]
    (VDict [(KStr "a", VDict [(KStr "b", VDict [(KStr "c", vint 1)])])]) []
  = (Fails (Builtin KeyError) (Some [KStr "a"; KStr "b"]),
     [(KStr "x", vint 0)] ++ [(KStr "a", VDict [])]).
Proof.
  apply (@recursive_update_depth (fun _ => "") (fun _ _ => "")
           [(KStr "x", vint 0)] (KStr "a") (KStr "b") [KStr "c"] (KInt 1));
    reflexivity.
Defined.

Lemma flat_items_readable_witness :
  In ([KStr "b"; KInt 1; KInt 3], VAtom KNone)
     (flat_items (fun _ => "") (fun _ _ => "")
        (VDict [(KStr "b", VList [vint 1; VDict [(KInt 3, VAtom KNone)]]);
                (KStr "a", vint 0)]))
  /\ exists q,
       [KStr "b"; KInt 1; KInt 3] = [] ++ q
       /\ PathMixin_getitem
            (VDict [(KStr "b", VList [vint 1; VDict [(KInt 3, VAtom KNone)]]);
                    (KStr "a", vint 0)]) q = Ok (VAtom KNone)
       /\ is_container (VAtom KNone) = false.
Proof.
  assert (H : In ([KStr "b"; KInt 1; KInt 3], VAtom KNone)
                (flat_items (fun _ => "") (fun _ _ => "")
                   (VDict [(KStr "b",
                            VList [vint 1; VDict [(KInt 3, VAtom KNone)]]);
                           (KStr "a", vint 0)]))).
  { cbn. auto. }
  split; [exact H |].
  apply (@flat_items_readable (fun _ => "") (fun _ _ => "") _ _ _ _);
    [| exact H].
  cbn. repeat split.
Defined.

(* ================================================================== *)
(** * The order of paths *)
(* ================================================================== *)

Lemma parts_gt_app (p l m : list Key) :
  nan_free_path p = true ->
  parts_gt (p ++ l) (p ++ m) = parts_gt l m.
Proof.
  unfold nan_free_path. induction p as [| k p IH]; cbn [app forallb];
    [reflexivity |].
  intros H. apply andb_true_iff in H as [Hk Hp].
  cbn [parts_gt]. now rewrite (Key_eqb_refl k Hk), IH.
Qed.

(** X23.  A path and its extensions.  For a path [a] without NaN and
    any path [b], [a] is never greater than [a + b], and [a + b] is
    greater than [a], and [a] less than [a + b], exactly when [b] is not
    empty; no TypeError is raised, whatever the keys are. *)
Theorem prefix_is_smaller (a b : Path) :
  nan_free_path a = true ->
  let longer := match b with [] => false | _ :: _ => true end in
  Path_gt a (Path_add a b) = Some false
  /\ Path_gt (Path_add a b) a = Some longer
  /\ Path_lt a (Path_add a b) = Some longer
  /\ Path_le a (Path_add a b) = Some true
  /\ Path_ge (Path_add a b) a = Some true.
Proof.
  intros N. cbv zeta. unfold Path_lt, Path_le, Path_ge, Path_gt, Path_add.
  assert (G1 : parts_gt a (a ++ b) = Some false).
  { rewrite <- (app_nil_r a) at 1. now rewrite parts_gt_app. }
  assert (G2 : parts_gt (a ++ b) a
               = Some match b with [] => false | _ :: _ => true end).
  { rewrite <- (app_nil_r a) at 2. rewrite parts_gt_app by exact N.
    now destruct b. }
  rewrite G1, G2. cbn [option_map negb andb].
  split; [reflexivity |]. split; [reflexivity |].
  unfold Path_eqb. destruct b as [| k b].
  - rewrite app_nil_r, (parts_eqb_refl a N). cbn. repeat split.
  - rewrite (parts_eqb_sym (a ++ k :: b) a).
    rewrite parts_eqb_length_neq by (rewrite length_app; cbn; lia).
    cbn. repeat split.
Qed.

Lemma prefix_is_smaller_witness :
  Path_gt [KStr "a"; KNone] (Path_add [KStr "a"; KNone] [KInt 0])
    = Some false
  /\ Path_gt (Path_add [KStr "a"; KNone] [KInt 0]) [KStr "a"; KNone]
     = Some true
  /\ Path_lt [KStr "a"; KNone] (Path_add [KStr "a"; KNone] [KInt 0])
     = Some true
  /\ Path_le [KStr "a"; KNone] (Path_add [KStr "a"; KNone] [KInt 0])
     = Some true
  /\ Path_ge (Path_add [KStr "a"; KNone] [KInt 0]) [KStr "a"; KNone]
     = Some true.
Proof.
  apply (@prefix_is_smaller [KStr "a"; KNone] [KInt 0]). reflexivity.
Defined.

(** X24.  The first keys that differ decide the order of two paths.
    After a common start without NaN, [p + (x, ...) > p + (y, ...)] is
    [x > y] for the keys [x != y], whatever follows them; so two paths
    that first differ in a string against an integer or boolean key have
    no order, and comparing them raises a TypeError. *)
Theorem first_difference_decides (p : Path) (x y : Key) (q q' : Path) :
  nan_free_path p = true ->
  Key_eqb x y = false ->
  Path_gt (Path_add p (x :: q)) (Path_add p (y :: q')) = Key_gt x y
  /\ (isinstance_str x = true -> isinstance_int y = true ->
      Path_gt (Path_add p (x :: q)) (Path_add p (y :: q')) = None
      /\ Path_lt (Path_add p (x :: q)) (Path_add p (y :: q')) = None).
Proof.
  intros N E. unfold Path_lt, Path_gt, Path_add.
  rewrite parts_gt_app by exact N. cbn [parts_gt]. rewrite E.
  split; [reflexivity |].
  intros Sx Iy. destruct x; try discriminate. destruct y; try discriminate;
    now split.
Qed.

Lemma first_difference_decides_witness :
  Path_gt (Path_add [KStr "a"] [KStr "b"; KStr "c"])
          (Path_add [KStr "a"] [KInt 0]) = Key_gt (KStr "b") (KInt 0)
  /\ Path_gt (Path_add [KStr "a"] [KStr "b"; KStr "c"])
             (Path_add [KStr "a"] [KInt 0]) = None
  /\ Path_lt (Path_add [KStr "a"] [KStr "b"; KStr "c"])
             (Path_add [KStr "a"] [KInt 0]) = None.
Proof.
  destruct (@first_difference_decides [KStr "a"] (KStr "b") (KInt 0)
              [KStr "c"] [] eq_refl eq_refl) as [H1 H2].
  split; [exact H1 |]. apply H2; reflexivity.
Defined.

Lemma string_order (s t : string) :
  String.eqb s t = false ->
  String.ltb t s = negb (String.ltb s t).
Proof.
  intros E. unfold String.ltb. rewrite (String.compare_antisym t s).
  destruct (String.compare s t) eqn:C; try reflexivity.
  apply String.compare_eq_iff in C. apply String.eqb_neq in E. contradiction.
Qed.

(** X25.  Paths of string keys are totally ordered: for two such paths
    no comparison raises, and exactly one of [a > b], [b > a] and
    [a == b] holds. *)
Theorem string_paths_total (a : Path) :
  forall b : Path,
  string_path a = true ->
  string_path b = true ->
  exists ga gb : bool,
    Path_gt a b = Some ga /\ Path_gt b a = Some gb
    /\ ((ga = true /\ gb = false /\ Path_eqb a b = false)
        \/ (ga = false /\ gb = true /\ Path_eqb a b = false)
        \/ (ga = false /\ gb = false /\ Path_eqb a b = true)).
Proof.
  unfold string_path, Path_gt, Path_eqb.
  induction a as [| x a IH]; intros [| y b] Ha Hb.
  - exists false, false. cbn. auto 10.
  - exists false, true. cbn. auto 10.
  - exists true, false. cbn. auto 10.
  - cbn [forallb] in Ha, Hb.
    apply andb_true_iff in Ha as [Sx Ha], Hb as [Sy Hb].
    destruct x as [s | | | | | | |]; try discriminate.
    destruct y as [t | | | | | | |]; try discriminate.
    cbn [parts_gt parts_eqb Key_eqb Key_gt].
    rewrite (String.eqb_sym t s).
    destruct (String.eqb s t) eqn:E.
    + destruct (IH b Ha Hb) as [ga [gb [G1 [G2 H]]]].
      exists ga, gb. cbn [andb]. auto.
    + exists (String.ltb t s), (String.ltb s t).
      split; [reflexivity |]. split; [reflexivity |]. cbn [andb].
      rewrite (string_order _ _ E).
      destruct (String.ltb s t); cbn; auto 10.
Qed.

Lemma string_paths_total_witness :
  exists ga gb : bool,
    Path_gt [KStr "a"; KStr "b"] [KStr "a"; KStr "B"] = Some ga
    /\ Path_gt [KStr "a"; KStr "B"] [KStr "a"; KStr "b"] = Some gb
    /\ ((ga = true /\ gb = false
         /\ Path_eqb [KStr "a"; KStr "b"] [KStr "a"; KStr "B"] = false)
        \/ (ga = false /\ gb = true
            /\ Path_eqb [KStr "a"; KStr "b"] [KStr "a"; KStr "B"] = false)
        \/ (ga = false /\ gb = false
            /\ Path_eqb [KStr "a"; KStr "b"] [KStr "a"; KStr "B"] = true)).
Proof.
  apply (@string_paths_total [KStr "a"; KStr "b"] [KStr "a"; KStr "B"]);
    reflexivity.
Defined.
